(** * ytarchive-raw-go: the segment downloader ([download] package)

    A shallow embedding of [download.go] (package [download]) and of
    [log/log.go], with the properties of the retry loop, the fetcher, the
    orchestrator, the merge coordinator and the logger proved over it.

    Go values are modelled as follows: [int] as [Z], [uint] as [N], [string]
    as [string], [[]byte] as [list byte], a nilable pointer as [option], a
    struct as a [Record].  A Go function that mutates shared state, may panic
    or may end the process is a function from the state to a [Res]. *)

From stdpp Require Import base option list gmap strings pretty.
From Stdlib Require Import ZArith Strings.Byte.

Abbreviation bytes := (list byte).

(** ** Control: return, panic, [os.Exit] *)

(** How a call ends: it returns [a], it panics, or the process exits.  The
    state reached is kept in the three cases, so that what was done before a
    panic or an exit can be inspected. *)
Inductive Res (S A : Type) : Type :=
| Ok (a : A) (s : S)
| Panicked (msg : string) (s : S)
| Exited (code : Z) (s : S).
Arguments Ok {S A} a s.
Arguments Panicked {S A} msg s.
Arguments Exited {S A} code s.

Definition res_state {S A} (r : Res S A) : S :=
  match r with Ok _ s | Panicked _ s | Exited _ s => s end.

Definition res_value {S A} (r : Res S A) : option A :=
  match r with Ok a _ => Some a | _ => None end.

Definition ST (S A : Type) : Type := S → Res S A.

Definition st_ret {S A} (a : A) : ST S A := λ s, Ok a s.

Definition st_bind {S A B} (m : ST S A) (k : A → ST S B) : ST S B :=
  λ s, match m s with
       | Ok a s' => k a s'
       | Panicked msg s' => Panicked msg s'
       | Exited c s' => Exited c s'
       end.

Definition st_get {S} : ST S S := λ s, Ok s s.
Definition st_modify {S} (f : S → S) : ST S unit := λ s, Ok tt (f s).
Definition st_panic {S A} (msg : string) : ST S A := λ s, Panicked msg s.
Definition st_exit {S A} (code : Z) : ST S A := λ s, Exited code s.

Notation "'do' x <- m ; k" := (st_bind m (λ x, k))
  (at level 10, x name, m at level 100, k at level 200).
Notation "'exec' m ; k" := (st_bind m (λ _, k))
  (at level 10, m at level 100, k at level 200).

(** ** [log/log.go] *)

Module log.

Inductive Level : Set :=
| LevelDebug | LevelInfo | LevelWarn | LevelError
| LevelFatal (* error + exit *).

(** The [iota] value of a level. *)
Definition level_int (l : Level) : Z :=
  match l with
  | LevelDebug => 0 | LevelInfo => 1 | LevelWarn => 2
  | LevelError => 3 | LevelFatal => 4
  end%Z.

Definition level_name (l : Level) : string :=
  match l with
  | LevelDebug => "debug" | LevelInfo => "info" | LevelWarn => "warn"
  | LevelError => "error" | LevelFatal => "fatal"
  end.

(** [Logger].  The minimum level is a [Level], that is an [int]: it may be
    any number, also one above [LevelFatal]. *)
Record Logger : Set := {
  extraFrames : Z;
  minLevel : Z;
  tag : string
}.

(** The logger that [init] gives to [DefaultLogger]. *)
Definition init_DefaultLogger : Logger :=
  {| extraFrames := 1; minLevel := 0; tag := "" |}.

(** A [*Logger].  The logger that a pointer leads to is read in the state in
    which a method is called: [DefaultLogger] is a variable of the package,
    and [SetDefaultLevel] changes the minimum level of the logger it points
    to. *)
Definition Ref (S : Type) : Type := S → Logger.

(** One line handed to [Logger.output]: its level and its format string
    (the arguments are not rendered). *)
Record Line : Set := { line_level : Level; line_text : string }.

(** What [Logger.log] and [Logger.logf] write, over a state that keeps the
    lines: the line goes out when [int(level) >= int(l.minLevel)]. *)
Definition output {S} (put : Line → S → S) (l : Ref S) (level : Level)
    (text : string) (s : S) : S :=
  if (minLevel (l s) <=? level_int level)%Z
  then put {| line_level := level; line_text := text |} s
  else s.

(** [Logger.log] / [Logger.logf]: write, then [os.Exit(1)] when the level
    is [LevelFatal]. *)
Definition logf {S} (put : Line → S → S) (l : Ref S) (level : Level)
    (text : string) : ST S unit :=
  λ s, match level with
       | LevelFatal => Exited 1 (output put l level text s)
       | _ => Ok tt (output put l level text s)
       end.

(** [Logger.Fatal] / [Logger.Fatalf]: they never return, so they fit
    wherever a value is expected. *)
Definition Fatalf {S A} (put : Line → S → S) (l : Ref S) (text : string)
    : ST S A :=
  λ s, Exited 1 (output put l LevelFatal text s).

End log.

(** ** [log/log.go], down to the bytes written to standard error

    The downloader above sees of a logger only which lines pass its level.
    This part follows [log.go] itself: the level table, [ParseLevel], the
    loggers, the line that [Logger.output] builds and the way [doWrite]
    shares the terminal between log lines and the progress line.

    A Go [string] is kept here as the bytes it holds, like a [[]byte]: the
    package splices both into the same buffers. *)

Module logio.

Global Instance byte_eq : EqDecision byte := Byte.byte_eq_dec.

Definition str (s : string) : bytes := String.list_byte_of_string s.

(** [type Level int] and its constants. *)
Definition Level : Set := Z.
Definition LevelDebug : Level := 0%Z.
Definition LevelInfo : Level := 1%Z.
Definition LevelWarn : Level := 2%Z.
Definition LevelError : Level := 3%Z.
Definition LevelFatal : Level := 4%Z.

Definition EndColor : bytes := x1b :: str "[0m".

Record levelInfo : Set := { name : bytes; color : bytes }.

Global Instance levelInfo_eq : EqDecision levelInfo.
Proof. solve_decision. Defined.

Definition levels : gmap Z levelInfo :=
  {[ LevelDebug := {| name := str "debug"; color := x1b :: str "[36m" |};
     LevelInfo := {| name := str "info"; color := x1b :: str "[32m" |};
     LevelWarn := {| name := str "warn"; color := x1b :: str "[93m" |};
     LevelError := {| name := str "error"; color := x1b :: str "[91m" |};
     LevelFatal := {| name := str "fatal"; color := x1b :: str "[91m" |} ]}.

(** [levels[level]]: a key that is not in the map gives the zero value. *)
Definition levels_at (level : Level) : levelInfo :=
  default {| name := []; color := [] |} (levels !! level).

Definition eraseLine : bytes := x1b :: str "[2K".
Definition windowTitleBegin : bytes := x1b :: str "]0;".
Definition windowTitleEnd : bytes := [x07].

(** A position in the source: file and line. *)
Definition Frame : Set := bytes * Z.

(** What the package takes from the Go runtime and from the rest of its own
    package.  [formatTime] and [formatHeader] are called by [Logger.output]
    with a pointer to the buffer and are not defined in [log.go]: they are
    left open, as any function from the buffer and their arguments to the
    buffer they leave behind. *)
Record Runtime : Type := {
  (** [strings.Map(unicode.ToLower, s)], the path that [strings.ToLower]
      takes on a string that is not pure ASCII. *)
  unicode_ToLower : bytes → bytes;
  (** [time.Now().UTC()] at the [n]-th write to standard error. *)
  time_Now : nat → Z;
  formatTime : bytes → Z → bytes;
  formatHeader : bytes → bytes → bytes → Z → bytes
}.

Definition is_upper (c : byte) : bool :=
  (65 <=? Byte.to_N c)%N && (Byte.to_N c <=? 90)%N.

Definition lower_byte (c : byte) : byte :=
  if is_upper c then default c (Byte.of_N (Byte.to_N c + 32)) else c.

(** [strings.ToLower]: bytes below [utf8.RuneSelf] only are lowered byte by
    byte, anything else goes through the Unicode tables. *)
Definition strings_ToLower (R : Runtime) (s : bytes) : bytes :=
  if forallb (λ c, Byte.to_N c <? 128)%N s then lower_byte <$> s
  else unicode_ToLower R s.

(** The loop [for level, info := range levels] of [ParseLevel], over the
    entries in the order in which the map hands them out. *)
Fixpoint ParseLevel_range (name : bytes) (order : list (Level * levelInfo))
    : option Level :=
  match order with
  | [] => None
  | (level, info) :: rest =>
      if decide (name = info.(logio.name)) then Some level
      else ParseLevel_range name rest
  end.

(** [ParseLevel].  Go does not fix the order in which [range] visits a map:
    [order] is that order, some permutation of the entries of [levels].  The
    second component is the error, [None] for [nil]. *)
Definition ParseLevel (R : Runtime) (order : list (Level * levelInfo))
    (name : bytes) : Level * option bytes :=
  let name := strings_ToLower R name in
  match ParseLevel_range name order with
  | Some level => (level, None)
  | None => (LevelFatal, Some (str "Invalid log level '" ++ name ++ str "'"))
  end.

(** [Logger], without its mutex and without [buf], the scratch buffer that
    [output] empties before it uses it. *)
Record Logger : Set := {
  extraFrames : Z;
  minLevel : Level;
  tag : bytes
}.

(** [var progress struct { ... }] *)
Record progress_t : Set := {
  buf : bytes;
  title : bytes;
  lastProgress : bytes;
  hasProgress : bool
}.

(** The variables of the package, and what went to [os.Stderr]: one entry
    for each call of [os.Stderr.Write], newest first. *)
Record Pkg : Set := {
  progress : progress_t;
  DefaultLogger : Logger;
  stderr : list bytes
}.

(** The package after [init]. *)
Definition init : Pkg :=
  {| progress := {| buf := []; title := []; lastProgress := [];
                    hasProgress := false |};
     DefaultLogger := {| extraFrames := 1; minLevel := LevelDebug; tag := [] |};
     stderr := [] |}.

(** [doWrite]; the error it returns is always [nil]. *)
Definition doWrite (isProgress : bool) (title data : bytes) : ST Pkg Z :=
  λ s,
    let p := progress s in
    let buf := if hasProgress p then eraseLine ++ [x0d] ++ data else data in
    if isProgress then
      let lastProgress := data in
      if bool_decide (0 < length title) && bool_decide (title ≠ p.(logio.title))
      then
        let buf := buf ++ windowTitleBegin ++ title ++ windowTitleEnd in
        Ok (Z.of_nat (length data))
           {| progress := {| buf := buf; title := title;
                             lastProgress := lastProgress;
                             hasProgress := true |};
              DefaultLogger := DefaultLogger s;
              stderr := buf :: stderr s |}
      else
        Ok (Z.of_nat (length data))
           {| progress := {| buf := buf; title := p.(logio.title);
                             lastProgress := lastProgress;
                             hasProgress := true |};
              DefaultLogger := DefaultLogger s;
              stderr := buf :: stderr s |}
    else
      let buf := buf ++ lastProgress p in
      Ok (Z.of_nat (length data))
         {| progress := {| buf := buf; title := p.(logio.title);
                           lastProgress := lastProgress p;
                           hasProgress := hasProgress p |};
            DefaultLogger := DefaultLogger s;
            stderr := buf :: stderr s |}.

(** [stdLogProxy.Write], the writer that [init] gives to the standard
    [log] package. *)
Definition stdLogProxy_Write (p : bytes) : ST Pkg Z := doWrite false [] p.

(** [Progress] *)
Definition Progress (title line : bytes) : ST Pkg unit :=
  exec doWrite true title line; st_ret tt.

(** [SetDefaultLevel] *)
Definition SetDefaultLevel (level : Level) : ST Pkg unit :=
  st_modify (λ s,
    {| progress := progress s;
       DefaultLogger := {| extraFrames := extraFrames (DefaultLogger s);
                           minLevel := level;
                           tag := tag (DefaultLogger s) |};
       stderr := stderr s |}).

(** [New] *)
Definition New (tag : bytes) : ST Pkg Logger :=
  do s <- st_get;
  st_ret {| extraFrames := 0; minLevel := minLevel (DefaultLogger s);
            tag := tag |}.

(** [Logger.SubLogger] *)
Definition SubLogger (l : Logger) (tag : bytes) : ST Pkg Logger :=
  New (l.(logio.tag) ++ str "." ++ tag).

(** [runtime.Caller(skip)] on a stack of frames, innermost first: frame 0
    is the caller of [runtime.Caller] itself. *)
Definition runtime_Caller (stack : list Frame) (skip : Z) : option Frame :=
  if decide (0 ≤ skip)%Z then stack !! Z.to_nat skip else None.

(** The file of the package, and the lines of it from which its functions
    call one another. *)
Definition log_go : bytes := str "log/log.go".

(** The line that [Logger.output] builds in [l.buf], once it knows the
    time and the position to show. *)
Definition output_line (R : Runtime) (l : Logger) (level : Level) (now : Z)
    (file : bytes) (line : Z) (s : bytes) : bytes :=
  let buf := [] in
  let info := levels_at level in
  let buf := buf ++ color info in
  let buf := formatTime R buf now in
  let buf := buf ++ name info in
  let buf := buf ++ str ": " in
  let buf := buf ++ replicate (5 - length (name info)) x20 in
  let buf := formatHeader R buf (tag l) file line in
  let buf := buf ++ s in
  let buf := if decide (length s = 0 ∨ last s ≠ Some x0a)
             then buf ++ [x0a] else buf in
  buf ++ EndColor.

(** [Logger.output].  [callers] is the stack at the call, innermost first:
    the place where [output] was called, then the place where that function
    was called, and so on. *)
Definition output (R : Runtime) (l : Logger) (level : Level) (calldepth : Z)
    (s : bytes) (callers : list Frame) : ST Pkg unit :=
  λ st,
    let now := time_Now R (length (stderr st)) in
    let '(file, line) :=
      if decide (length (tag l) = 0) then
        match runtime_Caller ((log_go, 138%Z) :: callers)
                (calldepth + extraFrames l) with
        | Some fr => fr
        | None => (str "???", 0%Z)
        end
      else ([], 0%Z) in
    (exec doWrite false [] (output_line R l level now file line s);
     st_ret tt) st.

(** [Logger.logf] and [Logger.log], given the text that [fmt.Sprintf] or
    [fmt.Sprint] makes of their arguments. *)
Definition logf (R : Runtime) (l : Logger) (level : Level) (s : bytes)
    (callers : list Frame) : ST Pkg unit :=
  exec (if decide (minLevel l ≤ level)%Z
        then output R l level 3 s ((log_go, 169%Z) :: callers)
        else st_ret tt);
  if decide (level = LevelFatal) then st_exit 1%Z else st_ret tt.

Definition log (R : Runtime) (l : Logger) (level : Level) (s : bytes)
    (callers : list Frame) : ST Pkg unit :=
  exec (if decide (minLevel l ≤ level)%Z
        then output R l level 3 s ((log_go, 178%Z) :: callers)
        else st_ret tt);
  if decide (level = LevelFatal) then st_exit 1%Z else st_ret tt.

(** The methods of a logger. *)
Definition Logger_Debug R l s callers :=
  log R l LevelDebug s ((log_go, 186%Z) :: callers).
Definition Logger_Debugf R l s callers :=
  logf R l LevelDebug s ((log_go, 189%Z) :: callers).
Definition Logger_Info R l s callers :=
  log R l LevelInfo s ((log_go, 193%Z) :: callers).
Definition Logger_Infof R l s callers :=
  logf R l LevelInfo s ((log_go, 196%Z) :: callers).
Definition Logger_Warn R l s callers :=
  log R l LevelWarn s ((log_go, 200%Z) :: callers).
Definition Logger_Warnf R l s callers :=
  logf R l LevelWarn s ((log_go, 203%Z) :: callers).
Definition Logger_Error R l s callers :=
  log R l LevelError s ((log_go, 207%Z) :: callers).
Definition Logger_Errorf R l s callers :=
  logf R l LevelError s ((log_go, 210%Z) :: callers).
Definition Logger_Fatal R l s callers :=
  log R l LevelFatal s ((log_go, 214%Z) :: callers).
Definition Logger_Fatalf R l s callers :=
  logf R l LevelFatal s ((log_go, 217%Z) :: callers).

(** The functions of the package, on [DefaultLogger]. *)
Definition Debug R s callers : ST Pkg unit :=
  do st <- st_get; Logger_Debug R (DefaultLogger st) s ((log_go, 221%Z) :: callers).
Definition Debugf R s callers : ST Pkg unit :=
  do st <- st_get; Logger_Debugf R (DefaultLogger st) s ((log_go, 224%Z) :: callers).
Definition Info R s callers : ST Pkg unit :=
  do st <- st_get; Logger_Info R (DefaultLogger st) s ((log_go, 228%Z) :: callers).
Definition Infof R s callers : ST Pkg unit :=
  do st <- st_get; Logger_Infof R (DefaultLogger st) s ((log_go, 231%Z) :: callers).
Definition Warn R s callers : ST Pkg unit :=
  do st <- st_get; Logger_Warn R (DefaultLogger st) s ((log_go, 235%Z) :: callers).
Definition Warnf R s callers : ST Pkg unit :=
  do st <- st_get; Logger_Warnf R (DefaultLogger st) s ((log_go, 238%Z) :: callers).
Definition Error R s callers : ST Pkg unit :=
  do st <- st_get; Logger_Error R (DefaultLogger st) s ((log_go, 242%Z) :: callers).
Definition Errorf R s callers : ST Pkg unit :=
  do st <- st_get; Logger_Errorf R (DefaultLogger st) s ((log_go, 245%Z) :: callers).
Definition Fatal R s callers : ST Pkg unit :=
  do st <- st_get; Logger_Fatal R (DefaultLogger st) s ((log_go, 249%Z) :: callers).
Definition Fatalf R s callers : ST Pkg unit :=
  do st <- st_get; Logger_Fatalf R (DefaultLogger st) s ((log_go, 252%Z) :: callers).

(** The ten functions of the package with the level each logs at, and the
    ten methods. *)
Definition packageFunctions
    : list (Level * (Runtime → bytes → list Frame → ST Pkg unit)) :=
  [(LevelDebug, Debug); (LevelDebug, Debugf); (LevelInfo, Info);
   (LevelInfo, Infof); (LevelWarn, Warn); (LevelWarn, Warnf);
   (LevelError, Error); (LevelError, Errorf); (LevelFatal, Fatal);
   (LevelFatal, Fatalf)].

Definition loggerMethods
    : list (Level * (Runtime → Logger → bytes → list Frame → ST Pkg unit)) :=
  [(LevelDebug, Logger_Debug); (LevelDebug, Logger_Debugf);
   (LevelInfo, Logger_Info); (LevelInfo, Logger_Infof);
   (LevelWarn, Logger_Warn); (LevelWarn, Logger_Warnf);
   (LevelError, Logger_Error); (LevelError, Logger_Errorf);
   (LevelFatal, Logger_Fatal); (LevelFatal, Logger_Fatalf)].

(** A call of the package from outside, for the histories of the
    statements. *)
Inductive Call : Set :=
| CallWrite (p : bytes)                 (* [stdLogProxy.Write(p)] *)
| CallProgress (title line : bytes).    (* [Progress(title, line)] *)

Definition call (c : Call) : ST Pkg unit :=
  match c with
  | CallWrite p => exec stdLogProxy_Write p; st_ret tt
  | CallProgress title line => Progress title line
  end.

Fixpoint calls (cs : list Call) : ST Pkg unit :=
  match cs with
  | [] => st_ret tt
  | c :: cs' => exec call c; calls cs'
  end.

End logio.

(** ** [net/http], as much as the downloader sees of it *)

Record http_Client : Set := { Timeout : Z }.

(** [var defaultClient = &http.Client {}] *)
Definition defaultClient : http_Client := {| Timeout := 0 |}.

Record Request : Set := {
  Method : string;
  URL : string;
  Header : list (string * string)
}.

Record Response : Set := {
  StatusCode : Z;
  Body : bytes
}.

(** What [Client.Do] gives back: [err != nil], or a response. *)
Inductive Reply : Set :=
| TransportErr
| Replied (resp : Response).

Definition userAgent : string :=
  "Mozilla/5.0 (Windows NT 10.0; Win64; x64) AppleWebKit/537.36 (KHTML, like Gecko) Chrome/89.0.4389.90 Safari/537.36".

Definition Header_Set (k v : string) (r : Request) : Request :=
  {| Method := Method r; URL := URL r;
     Header := (k, v) :: filter (λ kv, kv.1 ≠ k) (Header r) |}.

(** ** The surroundings of a run *)

(** What stream discovery reports: an error, or the segment count and
    whether it is final. *)
Inductive Discovery : Set :=
| DiscoveryFailed (err : string)
| Discovered (known : bool) (total : Z).

(** Everything the downloader does not decide: the collaborators the package
    imports from elsewhere, the origin server, and the faults of the file
    system.  Indexing the replies by the number of calls made so far lets one
    request fail now and succeed later. *)
Record Env : Type := {
  (** stream discovery, from the URL of the stream. *)
  discover : string → Discovery;
  (** [getSegUrl(base, index)]: the segment URL construction. *)
  getSegUrl : string → Z → string;
  (** whether [http.NewRequest] can parse the URL. *)
  url_parses : string → bool;
  (** the reply to the [n]-th call of [Client.Do] (counting from 0). *)
  transport : nat → Request → Reply;
  (** the random suffix [ioutil.TempFile] picks at its [n]-th call, or
      [None] when it reports an error. *)
  tempfile : nat → option string;
  (** whether [io.Copy] into the [n]-th temporary file fails, and after how
      many bytes. *)
  copy_fault : nat → option nat
}.

(** ** The Segment Scheduler *)

Inductive QueueMode : Set := QueueAuto | QueueSequential | QueueOutOfOrder.

Record segmentResult : Set := { ok : bool; filename : string }.

(** Modelled from the spec: the declaration of [segmentStatus], the shared
    state of the Segment Scheduler (section 3, SchedulerState).  [end_] is the
    field [end] that [run] reads; [outcomes] holds the finished indices only;
    [mode] and [workers] are what [newSegStatus] keeps of the queue mode and
    of the thread count it is given. *)
Record segmentStatus : Type := {
  mode : QueueMode;
  workers : Z;
  totalKnown : bool;
  end_ : Z;
  nextToAssign : Z;
  outcomes : gmap Z segmentResult;
  highestMergedContiguous : Z
}.

Definition set_totalKnown (b : bool) (st : segmentStatus) : segmentStatus :=
  {| mode := mode st; workers := workers st; totalKnown := b;
     end_ := end_ st; nextToAssign := nextToAssign st;
     outcomes := outcomes st;
     highestMergedContiguous := highestMergedContiguous st |}.
Definition set_end (n : Z) (st : segmentStatus) : segmentStatus :=
  {| mode := mode st; workers := workers st; totalKnown := totalKnown st;
     end_ := n; nextToAssign := nextToAssign st;
     outcomes := outcomes st;
     highestMergedContiguous := highestMergedContiguous st |}.
Definition set_nextToAssign (n : Z) (st : segmentStatus) : segmentStatus :=
  {| mode := mode st; workers := workers st; totalKnown := totalKnown st;
     end_ := end_ st; nextToAssign := n;
     outcomes := outcomes st;
     highestMergedContiguous := highestMergedContiguous st |}.
Definition set_outcomes (f : gmap Z segmentResult → gmap Z segmentResult)
    (st : segmentStatus) : segmentStatus :=
  {| mode := mode st; workers := workers st; totalKnown := totalKnown st;
     end_ := end_ st; nextToAssign := nextToAssign st;
     outcomes := f (outcomes st);
     highestMergedContiguous := highestMergedContiguous st |}.
Definition set_frontier (n : Z) (st : segmentStatus) : segmentStatus :=
  {| mode := mode st; workers := workers st; totalKnown := totalKnown st;
     end_ := end_ st; nextToAssign := nextToAssign st;
     outcomes := outcomes st;
     highestMergedContiguous := n |}.

(** ** The state shared by the goroutines of a run *)

Record World : Type := {
  sched : segmentStatus;
  (** the scratch directory: file name to contents. *)
  fs : gmap string bytes;
  (** the requests handed to [Client.Do], newest first. *)
  net : list Request;
  (** how many times [ioutil.TempFile] was called. *)
  ntmp : nat;
  (** seconds spent in [time.Sleep]. *)
  clock : nat;
  (** the lines written by the loggers, newest first. *)
  logged : list log.Line;
  (** the indices passed to the progress callback [done], newest first. *)
  progress : list Z;
  (** the logger that the variable [log.DefaultLogger] points to; nothing in
      the package [download] changes it. *)
  log_DefaultLogger : log.Logger
}.

Definition set_sched (f : segmentStatus → segmentStatus) (w : World) : World :=
  {| sched := f (sched w); fs := fs w; net := net w; ntmp := ntmp w;
     clock := clock w; logged := logged w; progress := progress w;
     log_DefaultLogger := log_DefaultLogger w |}.
Definition set_fs (f : gmap string bytes → gmap string bytes) (w : World) : World :=
  {| sched := sched w; fs := f (fs w); net := net w; ntmp := ntmp w;
     clock := clock w; logged := logged w; progress := progress w;
     log_DefaultLogger := log_DefaultLogger w |}.
Definition set_net (f : list Request → list Request) (w : World) : World :=
  {| sched := sched w; fs := fs w; net := f (net w); ntmp := ntmp w;
     clock := clock w; logged := logged w; progress := progress w;
     log_DefaultLogger := log_DefaultLogger w |}.
Definition set_ntmp (f : nat → nat) (w : World) : World :=
  {| sched := sched w; fs := fs w; net := net w; ntmp := f (ntmp w);
     clock := clock w; logged := logged w; progress := progress w;
     log_DefaultLogger := log_DefaultLogger w |}.
Definition set_clock (f : nat → nat) (w : World) : World :=
  {| sched := sched w; fs := fs w; net := net w; ntmp := ntmp w;
     clock := f (clock w); logged := logged w; progress := progress w;
     log_DefaultLogger := log_DefaultLogger w |}.
Definition put_line (l : log.Line) (w : World) : World :=
  {| sched := sched w; fs := fs w; net := net w; ntmp := ntmp w;
     clock := clock w; logged := l :: logged w; progress := progress w;
     log_DefaultLogger := log_DefaultLogger w |}.
Definition put_progress (seg : Z) (w : World) : World :=
  {| sched := sched w; fs := fs w; net := net w; ntmp := ntmp w;
     clock := clock w; logged := logged w; progress := seg :: progress w;
     log_DefaultLogger := log_DefaultLogger w |}.

(** [log.SetDefaultLevel(level)]: the logger that [log.DefaultLogger] points
    to gets the minimum level [level]. *)
Definition log_SetDefaultLevel (level : Z) : ST World unit :=
  st_modify (λ w,
    {| sched := sched w; fs := fs w; net := net w; ntmp := ntmp w;
       clock := clock w; logged := logged w; progress := progress w;
       log_DefaultLogger :=
         {| log.extraFrames := log.extraFrames (log_DefaultLogger w);
            log.minLevel := level;
            log.tag := log.tag (log_DefaultLogger w) |} |}).

(** Modelled from the spec: [segmentStatus.downloaded], the scheduler's
    [recordOutcome(index, outcome)]: it stores the outcome of the index. *)
Definition downloaded (seg : Z) (r : segmentResult) : ST World unit :=
  st_modify (set_sched (set_outcomes <[seg := r]>)).

(** ** [DownloadResult] and [DownloadTask] *)

Definition FailThreshold : Z := 20.
Definition RetryThreshold : Z := 3.

Record DownloadResult : Set := {
  Error : option string;
  LostSegments : list Z;
  TotalSegments : Z
}.

Record DownloadTask : Type := {
  Client : option http_Client;
  DeleteSegments : bool;
  Logger : option log.Logger;
  MergeFile : string;
  QueueMode_ : QueueMode;
  SegmentDir : string;
  Threads : N;
  Url : string;
  (** the counter of the [sync.WaitGroup]. *)
  wg : Z;
  result : DownloadResult;
  started : bool
}.

(** [DownloadTask.client] *)
Definition client (d : DownloadTask) : http_Client :=
  match Client d with
  | Some c => c
  | None => defaultClient
  end.

(** [DownloadTask.logger]: the logger of the task or, without one, the
    logger that [log.DefaultLogger] points to at the time. *)
Definition logger (d : DownloadTask) : log.Ref World :=
  λ w, match Logger d with
       | Some l => l
       | None => log_DefaultLogger w
       end.

Definition Debugf (d : DownloadTask) (text : string) : ST World unit :=
  log.logf put_line (logger d) log.LevelDebug text.
Definition Infof (d : DownloadTask) (text : string) : ST World unit :=
  log.logf put_line (logger d) log.LevelInfo text.
Definition Warnf (d : DownloadTask) (text : string) : ST World unit :=
  log.logf put_line (logger d) log.LevelWarn text.
Definition Errorf (d : DownloadTask) (text : string) : ST World unit :=
  log.logf put_line (logger d) log.LevelError text.

(** ** The Segment Fetcher *)

Section Fetcher.

Variable E : Env.

(** [http.NewRequest(method, url, nil)]: [None] is [err != nil]. *)
Definition http_NewRequest (method url : string) : option Request :=
  if url_parses E url
  then Some {| Method := method; URL := url; Header := [] |}
  else None.

(** [c.Do(req)] on a [*http.Client] that may be nil. *)
Definition Client_Do (c : option http_Client) (req : Request)
    : ST World Reply :=
  λ w, match c with
       | None => Panicked "invalid memory address or nil pointer dereference" w
       | Some _ =>
           Ok (transport E (length (net w)) req) (set_net (cons req) w)
       end.

(** The loop of [doRequest], with [n] iterations left:
    [for i := 0; i < RetryThreshold; i++]. *)
Fixpoint doRequest_from (n : nat) (task : DownloadTask) (req : Request)
    : ST World (option Response) :=
  match n with
  | O => st_ret None (* fmt.Errorf("All requests failed") *)
  | S n' =>
      do r <- Client_Do (Client task) req;
      match r with
      | Replied resp => st_ret (Some resp)
      | TransportErr => doRequest_from n' task req
      end
  end.

(** [doRequest]: [None] is [err != nil]. *)
Definition doRequest (task : DownloadTask) (req : Request)
    : ST World (option Response) :=
  doRequest_from (Z.to_nat RetryThreshold) task req.

(** [ioutil.TempFile(dir, pattern)]: a file that did not exist is created
    empty and its name returned; [None] is [err != nil]. *)
Definition ioutil_TempFile (dir pattern : string) : ST World (option string) :=
  λ w,
    let w' := set_ntmp S w in
    match tempfile E (ntmp w) with
    | None => Ok None w'
    | Some suffix =>
        let name := dir +:+ "/" +:+ pattern +:+ suffix in
        match fs w !! name with
        | Some _ => Ok None w'
        | None => Ok (Some name) (set_fs <[name := []]> w')
        end
    end.

(** [io.Copy(file, body)]: [true] is [err == nil]; on an error the bytes
    copied so far stay in the file. *)
Definition io_Copy (name : string) (body : bytes) : ST World bool :=
  λ w, match copy_fault E (ntmp w - 1) with
       | None => Ok true (set_fs <[name := body]> w)
       | Some k => Ok false (set_fs <[name := take k body]> w)
       end.

(** [os.Remove(name)] *)
Definition os_Remove (name : string) : ST World unit :=
  st_modify (set_fs (delete name)).

(** [downloadSegment]: one attempt at a segment.  The deferred
    [resp.Body.Close()] and [file.Close()] change nothing that is observed
    here. *)
Definition downloadSegment (task : DownloadTask) (segment : Z)
    : ST World bool :=
  let targetUrl := getSegUrl E (Url task) segment in
  match http_NewRequest "GET" targetUrl with
  | None =>
      log.Fatalf put_line (logger task) "Unable to create http request: %v"
  | Some req =>
      let req := Header_Set "User-Agent" userAgent req in
      do r <- doRequest task req;
      match r with
      | None =>
          exec Debugf task "Request for segment %d failed with %v";
          st_ret false
      | Some resp =>
          if decide (StatusCode resp ≠ 200%Z) then
            exec Debugf task "Non-200 status code %d for segment %d";
            match http_NewRequest "GET" (Url task) with
            | Some req' =>
                do _ <- doRequest task req';
                st_ret false
            | None => st_ret false
            end
          else
            do file <- ioutil_TempFile "/tmp/ytarchive_test" "segment-";
            match file with
            | None =>
                exec Warnf task "Unable to create temp file for segment %d: %v";
                st_ret false
            | Some name =>
                do copied <- io_Copy name (Body resp);
                if negb copied then
                  exec os_Remove name;
                  exec Errorf task "Unable to write segment %d: %v";
                  st_ret false
                else
                  exec downloaded segment {| ok := true; filename := name |};
                  st_ret true
            end
      end
  end.

End Fetcher.

(** ** The queues of the scheduler *)

(** Modelled from the spec: the queue that [segmentStatus.createQueue] gives
    to a worker (section 4.2).  In Sequential mode the cursor is the
    scheduler's [nextToAssign], shared by all workers; in OutOfOrder mode the
    index range is dealt round-robin, worker [k] of [n] taking [k], [k+n],
    [k+2n], ... with a cursor of its own. *)
Record segmentQueue : Set := {
  sequential : bool;
  cursor : Z;
  stride : Z
}.

(** Modelled from the spec: Auto is Sequential when the total is unknown at
    the start and OutOfOrder otherwise. *)
Definition createQueue (st : segmentStatus) (threadNumber : Z) : segmentQueue :=
  let seq := match mode st with
             | QueueSequential => true
             | QueueOutOfOrder => false
             | QueueAuto => negb (totalKnown st)
             end in
  {| sequential := seq; cursor := threadNumber; stride := workers st |}.

(** Modelled from the spec: [NextSegment], the scheduler's [nextSegment].
    [Some (seg, true, q)] dispenses [seg]; [Some (_, false, q)] says that no
    index is left and none will come; [None] is a call that does not return
    yet, because the total may still grow. *)
Definition NextSegment (q : segmentQueue)
    : ST World (option (Z * bool * segmentQueue)) :=
  λ w,
    let st := sched w in
    let next := if sequential q then nextToAssign st else cursor q in
    if decide (next < end_ st)%Z then
      if sequential q
      then Ok (Some (next, true, q))
              (set_sched (set_nextToAssign (next + 1)) w)
      else Ok (Some (next, true,
                     {| sequential := false; cursor := (next + stride q)%Z;
                        stride := stride q |})) w
    else if totalKnown st then Ok (Some (0%Z, false, q)) w
    else Ok None w.

(** Modelled from the spec: the callback [pbar.done] of [makeProgressBar],
    which counts one more finished index. *)
Definition done_ (seg : Z) : ST World unit := st_modify (put_progress seg).

(** [time.Sleep(n * time.Second)] *)
Definition time_Sleep (seconds : nat) : ST World unit :=
  st_modify (set_clock (λ t, t + seconds)).

(** ** The Worker Pool: [downloadTask] *)

(** The local variables of one [downloadTask] goroutine. *)
Record Worker : Set := {
  threadNumber : N;
  queue : segmentQueue;
  failCount : Z;
  seg : Z;
  (** the loop was left through [break]. *)
  exited : bool
}.

(** What one step of the loop did. *)
Inductive Action : Set :=
| ActDispensed (s : Z)            (* [queue.NextSegment] gave [s] *)
| ActWaiting                      (* [queue.NextSegment] has not returned *)
| ActExited                       (* [break] *)
| ActGaveUp (s : Z)               (* the threshold branch *)
| ActAttempted (s : Z) (ok : bool)(* one call of [downloadSegment] *)
| ActNone.                        (* the goroutine is gone *)

Definition newWorker (st : segmentStatus) (threadNumber : N) : Worker :=
  {| threadNumber := threadNumber;
     queue := createQueue st (Z.of_N threadNumber);
     failCount := 0; seg := (-1); exited := false |}.

Definition set_local (failCount seg : Z) (wk : Worker) : Worker :=
  {| threadNumber := threadNumber wk; queue := queue wk;
     failCount := failCount; seg := seg; exited := exited wk |}.

Section Pool.

Variable E : Env.
Variable task : DownloadTask.

(** One step of the [for] loop of [downloadTask].  An iteration that
    starts with [seg == -1] is cut after [queue.NextSegment]: what follows
    in it is what an iteration starting with the index in hand does. *)
Definition downloadTask_step (wk : Worker) : ST World (Action * Worker) :=
  if exited wk then st_ret (ActNone, wk)
  else if decide (seg wk = -1)%Z then
    do r <- NextSegment (queue wk);
    match r with
    | None => st_ret (ActWaiting, wk)
    | Some (s, ok, q) =>
        let wk' := {| threadNumber := threadNumber wk; queue := q;
                      failCount := failCount wk; seg := s;
                      exited := negb ok |} in
        if negb ok then
          exec Infof task "Thread %d done";
          st_ret (ActExited, wk')
        else if decide (s = -1)%Z then st_panic "Segment == -1"
        else st_ret (ActDispensed s, wk')
    end
  else if decide (FailThreshold ≤ failCount wk)%Z then
    exec Warnf task "Giving up segment %d";
    exec downloaded (seg wk) {| ok := false; filename := "" |};
    exec done_ (seg wk);
    st_ret (ActGaveUp (seg wk), set_local 0 (-1) wk)
  else
    exec Debugf task "Current segment: %d";
    do ok <- downloadSegment E task (seg wk);
    if ok then
      exec Debugf task "Downloaded segment %d";
      exec done_ (seg wk);
      st_ret (ActAttempted (seg wk) true, set_local 0 (-1) wk)
    else
      let wk' := set_local (failCount wk + 1) (seg wk) wk in
      exec Debugf task "Failed segment %d [%d/%d]";
      exec time_Sleep 1;
      st_ret (ActAttempted (seg wk) false, wk').

(** [n] steps of the loop of one goroutine, with what each did. *)
Fixpoint downloadTask_steps (n : nat) (wk : Worker)
    : ST World (list Action * Worker) :=
  match n with
  | O => st_ret ([], wk)
  | S n' =>
      if exited wk then st_ret ([], wk)
      else
        do r <- downloadTask_step wk;
        do rs <- downloadTask_steps n' r.2;
        st_ret (r.1 :: rs.1, rs.2)
  end.

End Pool.

(** ** The Merge Coordinator *)

(** Modelled from the spec: the merge task that [makeMergeTask] starts
    (section 4.5).  The merge frontier is the scheduler's
    [highestMergedContiguous]; [notMerged] is the field that [run] copies
    into [LostSegments]. *)
Record mergeTask : Set := {
  mergeFile : string;
  notMerged : list Z;
  finished : bool
}.

Inductive MergeAction : Set :=
| MergeAppended (i : Z)
| MergeSkipped (i : Z)
| MergeWaiting
| MergeFinished
| MergeNone.

(** Modelled from the spec: [makeMergeTask] creates the output file, empty. *)
Definition makeMergeTask (file : string) : ST World mergeTask :=
  exec st_modify (set_fs <[file := []]>);
  st_ret {| mergeFile := file; notMerged := []; finished := false |}.

Definition set_notMerged (l : list Z) (mt : mergeTask) : mergeTask :=
  {| mergeFile := mergeFile mt; notMerged := l; finished := finished mt |}.
Definition set_finished (mt : mergeTask) : mergeTask :=
  {| mergeFile := mergeFile mt; notMerged := notMerged mt; finished := true |}.

(** Modelled from the spec: one round of the merge loop.  When the index at
    the frontier has an outcome it is consumed: the scratch file of a success
    is appended to the output file and deleted, a permanent failure is
    recorded as lost; the frontier then moves by one.  Without an outcome the
    task ends if the total is final and reached, and waits otherwise.  A
    scratch file or an output file that cannot be read is a merge I/O error,
    fatal to the process. *)
Definition mergeTask_step (l : log.Ref World) (mt : mergeTask)
    : ST World (MergeAction * mergeTask) :=
  λ w,
    if finished mt then Ok (MergeNone, mt) w
    else
      let st := sched w in
      let i := highestMergedContiguous st in
      match outcomes st !! i with
      | Some r =>
          if ok r then
            match fs w !! filename r, fs w !! mergeFile mt with
            | Some content, Some out =>
                Ok (MergeAppended i, mt)
                   (set_sched (set_frontier (i + 1))
                      (set_fs (λ f, delete (filename r)
                                      (<[mergeFile mt := out ++ content]> f)) w))
            | _, _ => log.Fatalf put_line l "Unable to merge segment %d: %v" w
            end
          else
            Ok (MergeSkipped i, set_notMerged (notMerged mt ++ [i]) mt)
               (set_sched (set_frontier (i + 1)) w)
      | None =>
          if totalKnown st && bool_decide (end_ st ≤ i)%Z
          then Ok (MergeFinished, set_finished mt) w
          else Ok (MergeWaiting, mt) w
      end.

(** Modelled from the spec: [extendTotal(newTotal)], legal only to raise the
    total of a stream whose length is not final. *)
Definition extendTotal (newTotal : Z) : ST World unit :=
  st_modify (set_sched (λ st,
    if negb (totalKnown st) && bool_decide (end_ st < newTotal)%Z
    then set_end newTotal st else st)).

(** Modelled from the spec: the stream has ended, its total is now final. *)
Definition finalizeTotal : ST World unit :=
  st_modify (set_sched (set_totalKnown true)).

(** Modelled from the spec: [newSegStatus] builds the scheduler from what
    stream discovery reports. *)
Definition newSegStatus (E : Env) (d : DownloadTask) (url : string)
    (m : QueueMode) : string + segmentStatus :=
  match discover E url with
  | DiscoveryFailed err => inl err
  | Discovered known total =>
      inr {| mode := m; workers := Z.of_N (Threads d); totalKnown := known;
             end_ := total; nextToAssign := 0; outcomes := ∅;
             highestMergedContiguous := 0 |}
  end.

(** ** The Download Orchestrator *)

(** Where the goroutine [d.run()] stands. *)
Inductive RunState : Set :=
| RunSpawned                                       (* [go d.run()] was issued *)
| RunPool (workers : list Worker) (mt : mergeTask) (* waiting for both groups *)
| RunReturned.

(** The process around one [DownloadTask]. *)
Record Proc : Type := {
  proc_task : DownloadTask;
  proc_world : World;
  proc_run : option RunState;
  (** how many times [go d.run()] was executed. *)
  spawned : nat
}.

Definition set_task (f : DownloadTask → DownloadTask) (p : Proc) : Proc :=
  {| proc_task := f (proc_task p); proc_world := proc_world p;
     proc_run := proc_run p; spawned := spawned p |}.
Definition set_world (f : World → World) (p : Proc) : Proc :=
  {| proc_task := proc_task p; proc_world := f (proc_world p);
     proc_run := proc_run p; spawned := spawned p |}.
Definition set_run (r : RunState) (p : Proc) : Proc :=
  {| proc_task := proc_task p; proc_world := proc_world p;
     proc_run := Some r; spawned := spawned p |}.
Definition go_run (p : Proc) : Proc :=
  {| proc_task := proc_task p; proc_world := proc_world p;
     proc_run := Some RunSpawned; spawned := S (spawned p) |}.

Definition set_Threads (n : N) (d : DownloadTask) : DownloadTask :=
  {| Client := Client d; DeleteSegments := DeleteSegments d;
     Logger := Logger d; MergeFile := MergeFile d;
     QueueMode_ := QueueMode_ d; SegmentDir := SegmentDir d;
     Threads := n; Url := Url d; wg := wg d; result := result d;
     started := started d |}.
Definition set_wg (f : Z → Z) (d : DownloadTask) : DownloadTask :=
  {| Client := Client d; DeleteSegments := DeleteSegments d;
     Logger := Logger d; MergeFile := MergeFile d;
     QueueMode_ := QueueMode_ d; SegmentDir := SegmentDir d;
     Threads := Threads d; Url := Url d; wg := f (wg d); result := result d;
     started := started d |}.
Definition set_started (b : bool) (d : DownloadTask) : DownloadTask :=
  {| Client := Client d; DeleteSegments := DeleteSegments d;
     Logger := Logger d; MergeFile := MergeFile d;
     QueueMode_ := QueueMode_ d; SegmentDir := SegmentDir d;
     Threads := Threads d; Url := Url d; wg := wg d; result := result d;
     started := b |}.
Definition set_result (f : DownloadResult → DownloadResult)
    (d : DownloadTask) : DownloadTask :=
  {| Client := Client d; DeleteSegments := DeleteSegments d;
     Logger := Logger d; MergeFile := MergeFile d;
     QueueMode_ := QueueMode_ d; SegmentDir := SegmentDir d;
     Threads := Threads d; Url := Url d; wg := wg d; result := f (result d);
     started := started d |}.

Definition set_Error (e : string) (r : DownloadResult) : DownloadResult :=
  {| Error := Some e; LostSegments := LostSegments r;
     TotalSegments := TotalSegments r |}.
Definition set_LostSegments (l : list Z) (r : DownloadResult) : DownloadResult :=
  {| Error := Error r; LostSegments := l; TotalSegments := TotalSegments r |}.
Definition set_TotalSegments (n : Z) (r : DownloadResult) : DownloadResult :=
  {| Error := Error r; LostSegments := LostSegments r; TotalSegments := n |}.

(** The zero value of [DownloadResult]. *)
Definition zeroResult : DownloadResult :=
  {| Error := None; LostSegments := []; TotalSegments := 0 |}.

(** A task as a caller builds it: a struct literal gives the exported fields,
    the unexported ones have their zero values. *)
Definition newTask (c : option http_Client) (del : bool)
    (l : option log.Logger) (mergeFile : string) (m : QueueMode)
    (segmentDir : string) (threads : N) (url : string) : DownloadTask :=
  {| Client := c; DeleteSegments := del; Logger := l; MergeFile := mergeFile;
     QueueMode_ := m; SegmentDir := segmentDir; Threads := threads;
     Url := url; wg := 0; result := zeroResult; started := false |}.

(** [log.Fatal(text)] of the package [log], on the default logger. *)
Definition log_Fatal {A} (text : string) : ST Proc A :=
  log.Fatalf (λ l, set_world (put_line l))
    (λ p, log_DefaultLogger (proc_world p)) text.

(** [wg.Add(n)] and [wg.Done()] of the task's wait group. *)
Definition wg_Add (n : Z) : ST Proc unit :=
  λ p, if decide (wg (proc_task p) + n < 0)%Z
       then Panicked "sync: negative WaitGroup counter" p
       else Ok tt (set_task (set_wg (Z.add n)) p).
Definition wg_Done : ST Proc unit := wg_Add (-1).

(** [DownloadTask.Start] *)
Definition Start : ST Proc unit :=
  do p <- st_get;
  if started (proc_task p) then st_ret tt
  else
    exec (if decide (Threads (proc_task p) < 1)%N
          then st_modify (set_task (set_Threads 1))
          else st_ret tt);
    exec (if decide (String.length (Url (proc_task p)) = 0)
          then log_Fatal "Empty URL" else st_ret tt);
    exec (if decide (String.length (MergeFile (proc_task p)) = 0)
          then log_Fatal "Empty MergeFile" else st_ret tt);
    exec (if decide (String.length (SegmentDir (proc_task p)) = 0)
          then log_Fatal "Empty SegmentDir" else st_ret tt);
    exec wg_Add 1;
    exec st_modify (set_task (set_started true));
    st_modify go_run.

(** [DownloadTask.Wait]: [d.wg.Wait()] returns once the counter is zero;
    [None] is a call that is still blocked. *)
Definition Wait (p : Proc) : option DownloadResult :=
  if decide (wg (proc_task p) = 0)%Z then Some (result (proc_task p))
  else None.

(** A goroutine of the process acting on the shared state. *)
Definition in_world {A} (m : ST World A) : ST Proc A :=
  λ p, match m (proc_world p) with
       | Ok a w => Ok a (set_world (λ _, w) p)
       | Panicked msg w => Panicked msg (set_world (λ _, w) p)
       | Exited c w => Exited c (set_world (λ _, w) p)
       end.

(** The thread numbers [0 .. n-1] of [for i := uint(0); i < d.Threads; i++]. *)
Definition threadNumbers (n : N) : list N := N.of_nat <$> seq 0 (N.to_nat n).

(** [DownloadTask.run] up to [downloadGroup.Wait()]. *)
Definition run_begin (E : Env) : ST Proc unit :=
  do p <- st_get;
  let d := proc_task p in
  match newSegStatus E d (Url d) (QueueMode_ d) with
  | inl err =>
      exec st_modify (set_task (set_result (set_Error err)));
      exec wg_Done;
      st_modify (set_run RunReturned)
  | inr st =>
      exec st_modify (set_task (set_result (set_TotalSegments (end_ st))));
      exec st_modify (set_world (set_sched (λ _, st)));
      do mt <- in_world (makeMergeTask (MergeFile d));
      st_modify (set_run (RunPool (newWorker st <$> threadNumbers (Threads d)) mt))
  end.

(** [DownloadTask.run] from [downloadGroup.Wait()] on: nothing happens while
    a worker or the merge task is still at work. *)
Definition run_end (ws : list Worker) (mt : mergeTask) : ST Proc unit :=
  if forallb exited ws && finished mt then
    exec st_modify (set_task (set_result (set_LostSegments (notMerged mt))));
    exec wg_Done;
    st_modify (set_run RunReturned)
  else st_ret tt.

(** Who moves next: the goroutine of [run], a worker, the merge task, or the
    origin, which lengthens a live stream or ends it. *)
Inductive Turn : Set :=
| TurnRun
| TurnWorker (i : nat)
| TurnMerge
| TurnExtend (newTotal : Z)
| TurnFinal.

Definition proc_step (E : Env) (t : Turn) : ST Proc unit :=
  do p <- st_get;
  let d := proc_task p in
  match proc_run p, t with
  | Some RunSpawned, TurnRun => run_begin E
  | Some (RunPool ws mt), TurnRun => run_end ws mt
  | Some (RunPool ws mt), TurnWorker i =>
      match ws !! i with
      | Some wk =>
          do r <- in_world (downloadTask_step E d wk);
          st_modify (set_run (RunPool (<[i := r.2]> ws) mt))
      | None => st_ret tt
      end
  | Some (RunPool ws mt), TurnMerge =>
      do r <- in_world (mergeTask_step (logger d) mt);
      st_modify (set_run (RunPool ws r.2))
  | Some (RunPool ws mt), TurnExtend n => in_world (extendTotal n)
  | Some (RunPool ws mt), TurnFinal => in_world finalizeTotal
  | _, _ => st_ret tt
  end.

Fixpoint proc_exec (E : Env) (ts : list Turn) : ST Proc unit :=
  match ts with
  | [] => st_ret tt
  | t :: ts' => exec proc_step E t; proc_exec E ts'
  end.

(** The process before [Start]: no scheduler yet, nothing requested,
    nothing written. *)
Definition world0 (files : gmap string bytes) : World :=
  {| sched := {| mode := QueueAuto; workers := 0; totalKnown := false;
                 end_ := 0; nextToAssign := 0; outcomes := ∅;
                 highestMergedContiguous := 0 |};
     fs := files; net := []; ntmp := 0; clock := 0; logged := [];
     progress := []; log_DefaultLogger := log.init_DefaultLogger |}.

Definition proc0 (d : DownloadTask) (files : gmap string bytes) : Proc :=
  {| proc_task := d; proc_world := world0 files; proc_run := None;
     spawned := 0 |}.


(** ** The merge coordinator against the workers' recorded outcomes

    What the merge coordinator sees of the worker pool is a sequence of
    recorded outcomes.  [EvStore i name content] is a worker that has
    persisted [content] in the new scratch file [name] and records the
    success of index [i] (the last steps of [downloadSegment]); [EvLose i] is
    a worker that gives [i] up; [EvExtend] and [EvFinal] are the origin;
    [EvMerge] is one round of the merge loop. *)
Inductive Event : Set :=
| EvStore (i : Z) (name : string) (content : bytes)
| EvLose (i : Z)
| EvExtend (newTotal : Z)
| EvFinal
| EvMerge.

(** The scheduler's contract for recording an outcome (section 3): the index
    was dispensed, so it is within the total, and it has no outcome yet. *)
Definition recordable (i : Z) (w : World) : Prop :=
  (0 ≤ i < end_ (sched w))%Z ∧ outcomes (sched w) !! i = None.

Global Instance recordable_dec i w : Decision (recordable i w).
Proof. unfold recordable. apply _. Defined.

(** One event; [None] when a worker breaks the contract, when the scratch
    name is not new, or when the merge round ends the process. *)
Definition event_step (l : log.Ref World) (e : Event) (s : World * mergeTask)
    : option (World * mergeTask) :=
  let '(w, mt) := s in
  match e with
  | EvStore i name content =>
      if decide (recordable i w ∧ fs w !! name = None) then
        Some (res_state (downloaded i {| ok := true; filename := name |}
                           (set_fs <[name := content]> w)), mt)
      else None
  | EvLose i =>
      if decide (recordable i w) then
        Some (res_state (downloaded i {| ok := false; filename := "" |} w), mt)
      else None
  | EvExtend n => Some (res_state (extendTotal n w), mt)
  | EvFinal => Some (res_state (finalizeTotal w), mt)
  | EvMerge =>
      match mergeTask_step l mt w with
      | Ok r w' => Some (w', r.2)
      | _ => None
      end
  end.

Fixpoint event_run (l : log.Ref World) (evs : list Event)
    (s : World * mergeTask)
    : option (World * mergeTask) :=
  match evs with
  | [] => Some s
  | e :: evs' =>
      match event_step l e s with
      | Some s' => event_run l evs' s'
      | None => None
      end
  end.

(** The state in which the merge task starts: a scheduler without outcomes,
    the frontier at 0, the output file just created. *)
Definition merge_start (files : gmap string bytes) (st : segmentStatus)
    (file : string) : World * mergeTask :=
  match makeMergeTask file (set_sched (λ _, st) (world0 files)) with
  | Ok mt w => (w, mt)
  | Panicked _ w | Exited _ w =>
      (w, {| mergeFile := file; notMerged := []; finished := false |})
  end.

Definition freshStatus (m : QueueMode) (n : Z) (known : bool) (total : Z)
    : segmentStatus :=
  {| mode := m; workers := n; totalKnown := known; end_ := total;
     nextToAssign := 0; outcomes := ∅; highestMergedContiguous := 0 |}.

(** The contents the workers stored, by index, and the indices they gave up,
    read off the events. *)
Fixpoint stored (evs : list Event) : gmap Z bytes :=
  match evs with
  | [] => ∅
  | EvStore i _ content :: evs' => <[i := content]> (stored evs')
  | _ :: evs' => stored evs'
  end.

Fixpoint lost (evs : list Event) : gset Z :=
  match evs with
  | [] => ∅
  | EvLose i :: evs' => {[i]} ∪ lost evs'
  | _ :: evs' => lost evs'
  end.

(** The concatenation, in ascending index order, of the stored contents of
    the indices below [n]. *)
Definition concat_stored (evs : list Event) (n : Z) : bytes :=
  mjoin ((λ i, default [] (stored evs !! i)) <$> seqZ 0 n).

(** The indices below [n] that were given up, in ascending order. *)
Definition lost_below (evs : list Event) (n : Z) : list Z :=
  filter (λ i, i ∈ lost evs) (seqZ 0 n).

Definition frontier (s : World * mergeTask) : Z :=
  highestMergedContiguous (sched s.1).

(** ** Reference functions for the statements *)

(** The inline tries of one [doRequest]: how many calls of [Client.Do] it
    makes when [n] are allowed and [k] were made before it, and the response
    it ends with. *)
Fixpoint first_reply (E : Env) (n k : nat) (req : Request)
    : nat * option Response :=
  match n with
  | O => (0, None)
  | S n' =>
      match transport E k req with
      | Replied resp => (1, Some resp)
      | TransportErr =>
          let r := first_reply E n' (S k) req in (S r.1, r.2)
      end
  end.

(** The request that [downloadSegment] builds for a segment, and the probe it
    sends to the base URL after a status other than 200. *)
Definition segmentRequest (E : Env) (task : DownloadTask) (segment : Z)
    : Request :=
  Header_Set "User-Agent" userAgent
    {| Method := "GET"; URL := getSegUrl E (Url task) segment; Header := [] |}.

Definition probeRequest (task : DownloadTask) : Request :=
  {| Method := "GET"; URL := Url task; Header := [] |}.

(** The scratch file name that [ioutil.TempFile] builds from a suffix. *)
Definition scratchName (suffix : string) : string :=
  "/tmp/ytarchive_test" +:+ "/" +:+ "segment-" +:+ suffix.

(** The configuration errors that the specification names: an empty URL, an
    empty output path, a thread count below 1. *)
Definition configError (d : DownloadTask) : Prop :=
  String.length (Url d) = 0 ∨ String.length (MergeFile d) = 0
  ∨ (Threads d < 1)%N.

(** [Start] ended the process before any work, through [log.Fatal(text)]:
    exit status 1; the fatal line with [text] is written if the minimum level
    of the default logger is at most [LevelFatal], and nothing is written
    otherwise; nothing was requested, no file was touched, the scheduler, the
    clock and the progress count are as they were; no goroutine was started,
    the wait group and the [started] flag are untouched and the result is
    still the one of [p]. *)
Definition fatalBeforeWork (p : Proc) (text : string) (r : Res Proc unit)
    : Prop :=
  ∃ p',
    r = Exited 1 p'
    ∧ logged (proc_world p')
      = (if decide (log.minLevel (log_DefaultLogger (proc_world p)) ≤ 4)%Z
         then [{| log.line_level := log.LevelFatal; log.line_text := text |}]
         else [])
        ++ logged (proc_world p)
    ∧ net (proc_world p') = net (proc_world p)
    ∧ fs (proc_world p') = fs (proc_world p)
    ∧ sched (proc_world p') = sched (proc_world p)
    ∧ ntmp (proc_world p') = ntmp (proc_world p)
    ∧ clock (proc_world p') = clock (proc_world p)
    ∧ progress (proc_world p') = progress (proc_world p)
    ∧ log_DefaultLogger (proc_world p') = log_DefaultLogger (proc_world p)
    ∧ spawned p' = spawned p ∧ proc_run p' = proc_run p
    ∧ wg (proc_task p') = wg (proc_task p)
    ∧ started (proc_task p') = false
    ∧ result (proc_task p') = result (proc_task p).

(** A configuration that [Start] accepts. *)
Definition validConfig (d : DownloadTask) : Prop :=
  String.length (Url d) ≠ 0 ∧ String.length (MergeFile d) ≠ 0
  ∧ String.length (SegmentDir d) ≠ 0.




(** What holds between the merge coordinator and the recorded outcomes
    after the events [evs]: the frontier is within the total and has passed
    only indices with an outcome; the output file holds the stored contents
    of the indices below the frontier, in order, and [notMerged] the lost
    ones; the outcomes are those of the events, and the scratch file of a
    success not merged yet holds what was stored and is no other file. *)
Definition merge_inv (evs : list Event) (s : World * mergeTask) : Prop :=
  let st := sched s.1 in
  let f := highestMergedContiguous st in
  (0 ≤ f ≤ end_ st)%Z
  ∧ (∀ i, is_Some (outcomes st !! i) → (0 ≤ i < end_ st)%Z)
  ∧ (∀ i, (0 ≤ i < f)%Z → is_Some (outcomes st !! i))
  ∧ fs s.1 !! mergeFile s.2 = Some (concat_stored evs f)
  ∧ notMerged s.2 = lost_below evs f
  ∧ (∀ i r, outcomes st !! i = Some r → ok r = true →
       (i ∉ lost evs)
       ∧ ∃ content, stored evs !! i = Some content
                    ∧ ((f ≤ i)%Z → fs s.1 !! filename r = Some content
                                   ∧ filename r ≠ mergeFile s.2))
  ∧ (∀ i r, outcomes st !! i = Some r → ok r = false →
       stored evs !! i = None ∧ i ∈ lost evs)
  ∧ (∀ i, outcomes st !! i = None → stored evs !! i = None ∧ i ∉ lost evs)
  ∧ (∀ i j ri rj,
       (f ≤ i)%Z → (f ≤ j)%Z →
       outcomes st !! i = Some ri → outcomes st !! j = Some rj →
       ok ri = true → ok rj = true → filename ri = filename rj → i = j)
  ∧ (finished s.2 = true → totalKnown st = true ∧ f = end_ st).

(** ** A run in which the goroutines work one after the other

    The schedule used to show that a run can come to its end: the origin
    ends the stream, then each worker runs until it leaves its loop, then the
    merge task runs until it has finished. *)







(** ** A run under any schedule

    What holds of the worker pool and of the merge coordinator whatever the
    order in which the goroutines move, and how far a run is from its end. *)















(** ** Scenarios

    Concrete surroundings on which the statements are exercised. *)

Definition exampleUrl : string := "https://origin.example/live?id=a1".

Definition exampleSegUrl (base : string) (i : Z) : string :=
  base +:+ "&sq=" +:+ pretty i.

Definition exampleBody : bytes := [x68; x6c; x73].

Definition found : Response := {| StatusCode := 200; Body := exampleBody |}.
Definition notFound : Response := {| StatusCode := 404; Body := [] |}.

(** Surroundings given by the discovery, the origin's replies and the copy
    faults; every URL parses and the temporary files are numbered. *)
Definition exampleEnv (d : Discovery) (replies : nat → Request → Reply)
    (faults : nat → option nat) : Env :=
  {| discover := λ _, d;
     getSegUrl := exampleSegUrl;
     url_parses := λ _, true;
     transport := replies;
     tempfile := λ n, Some (pretty n);
     copy_fault := faults |}.

(** The origin is unreachable. *)
Definition envDown : Env :=
  exampleEnv (Discovered true 3) (λ _ _, TransportErr) (λ _, None).

(** Scenario D: the transport fails twice, then every request is answered. *)
Definition envFlaky : Env :=
  exampleEnv (Discovered true 3)
    (λ n _, if decide (n < 2) then TransportErr else Replied found)
    (λ _, None).

(** The origin answers 404 to everything, after one transport failure. *)
Definition envGone : Env :=
  exampleEnv (Discovered true 3)
    (λ n _, if decide (n < 1) then TransportErr else Replied notFound)
    (λ _, None).

(** The origin answers 404 to the first request and is out of reach from
    then on. *)
Definition envProbeDown : Env :=
  exampleEnv (Discovered true 3)
    (λ n _, if decide (n < 1) then Replied notFound else TransportErr)
    (λ _, None).

(** The origin answers 404 to everything, and the base URL of the stream is
    one that [http.NewRequest] refuses. *)
Definition envNoBase : Env :=
  {| discover := λ _, Discovered true 3;
     getSegUrl := exampleSegUrl;
     url_parses := λ u, bool_decide (u ≠ exampleUrl);
     transport := λ _ _, Replied notFound;
     tempfile := λ n, Some (pretty n);
     copy_fault := λ _, None |}.

(** The origin answers, but the scratch disk fails after one byte. *)
Definition envDiskFull : Env :=
  exampleEnv (Discovered true 3) (λ _ _, Replied found) (λ _, Some 1).

(** A live stream: one segment known at the start, every request answered. *)
Definition envLive : Env :=
  exampleEnv (Discovered false 1) (λ _ _, Replied found) (λ _, None).


Definition exampleTask : DownloadTask :=
  newTask (Some defaultClient) false None "out.ts" QueueAuto "segments" 2
    exampleUrl.

(** The same task without an HTTP client. *)
Definition exampleTaskNoClient : DownloadTask :=
  newTask None false None "out.ts" QueueAuto "segments" 2 exampleUrl.

(** A task that asks for no thread at all. *)
Definition exampleTaskNoThreads : DownloadTask :=
  newTask (Some defaultClient) false None "out.ts" QueueAuto "segments" 0
    exampleUrl.

(** A task without a URL. *)
Definition exampleTaskNoUrl : DownloadTask :=
  newTask (Some defaultClient) false None "out.ts" QueueAuto "segments" 2 "".

(** The process before [Start], after [log.SetDefaultLevel(5)]. *)
Definition silencedProc (d : DownloadTask) : Proc :=
  set_world (λ w, res_state (log_SetDefaultLevel 5 w)) (proc0 d ∅).

(** A world in which the scheduler knows three segments. *)
Definition exampleWorld : World :=
  set_sched (λ _, freshStatus QueueSequential 2 true 3) (world0 ∅).

(** Worker 0 of that world, holding index 1 with no failure so far. *)
Definition exampleWorker : Worker :=
  set_local 0 1 (newWorker (freshStatus QueueSequential 2 true 3) 0).


(** Scenario B in small: three segments, the second is lost, the third is
    stored before the first; the merge task takes them in index order. *)
Definition mergeEvents : list Event :=
  [EvStore 2 "c" [x63]; EvMerge; EvLose 1; EvStore 0 "a" [x61]; EvMerge;
   EvMerge; EvMerge; EvMerge].

(** ** Further scenarios *)

(** The origin answers, but no scratch file can be created. *)
Definition envNoScratch : Env :=
  {| discover := λ _, Discovered true 3;
     getSegUrl := exampleSegUrl;
     url_parses := λ _, true;
     transport := λ _ _, Replied found;
     tempfile := λ _, None;
     copy_fault := λ _, None |}.

(** Segment URLs that [http.NewRequest] cannot parse. *)
Definition envBadUrl : Env :=
  {| discover := λ _, Discovered true 3;
     getSegUrl := exampleSegUrl;
     url_parses := λ u, bool_decide (u = exampleUrl);
     transport := λ _ _, Replied found;
     tempfile := λ n, Some (pretty n);
     copy_fault := λ _, None |}.

(** Stream discovery fails. *)
Definition envNoStream : Env :=
  exampleEnv (DiscoveryFailed "no such stream") (λ _ _, Replied found)
    (λ _, None).

(** The index for which a step of a worker has recorded an outcome and
    called the progress callback, if it has. *)
Definition finishedIndex (a : Action) : option Z :=
  match a with
  | ActAttempted s true => Some s
  | ActGaveUp s => Some s
  | _ => None
  end.

(** [n] calls of the same function, one after the other. *)
Fixpoint times {S} (n : nat) (m : ST S unit) : ST S unit :=
  match n with
  | O => st_ret tt
  | S n' => exec m; times n' m
  end.

(** Two worlds that differ at most in the lines logged. *)
Definition same_but_logged (w1 w2 : World) : Prop :=
  sched w1 = sched w2 ∧ fs w1 = fs w2 ∧ net w1 = net w2 ∧ ntmp w1 = ntmp w2
  ∧ clock w1 = clock w2 ∧ progress w1 = progress w2.

(** Two calls that end in the same way, with the same value, in worlds that
    differ at most in the lines logged. *)
Definition same_outcome {A} (r1 r2 : Res World A) : Prop :=
  match r1, r2 with
  | Ok a1 w1, Ok a2 w2 => a1 = a2 ∧ same_but_logged w1 w2
  | Panicked m1 w1, Panicked m2 w2 => m1 = m2 ∧ same_but_logged w1 w2
  | Exited c1 w1, Exited c2 w2 => c1 = c2 ∧ same_but_logged w1 w2
  | _, _ => False
  end.

(** Two computations that end alike from worlds that differ at most in the
    lines logged. *)
Definition alike {A} (m1 m2 : ST World A) : Prop :=
  ∀ w1 w2, same_but_logged w1 w2 → same_outcome (m1 w1) (m2 w2).

(** A task that logs warnings and errors only. *)
Definition quietTask : DownloadTask :=
  newTask (Some defaultClient) true
    (Some {| log.extraFrames := 0; log.minLevel := 2;
             log.tag := "dl" |})
    "other.ts" QueueSequential "elsewhere" 7 exampleUrl.

(** Scenarios for the logger. *)

(** The order in which the entries of [levels] are written in the source,
    and the reverse order. *)
Definition levelsAscending : list (logio.Level * logio.levelInfo) :=
  (λ l, (l, logio.levels_at l)) <$> seqZ 0 5.

Definition noUnicode : bytes → bytes := λ s, s.

(** A runtime whose clock stands still and whose helpers write a fixed
    time stamp and the tag or the position between brackets. *)
Definition exampleRuntime : logio.Runtime :=
  {| logio.unicode_ToLower := noUnicode;
     logio.time_Now := λ _, 0%Z;
     logio.formatTime := λ buf _, buf ++ logio.str "12:00:00 ";
     logio.formatHeader := λ buf tag file line,
       buf ++ logio.str "[" ++ (if decide (length tag = 0) then file else tag)
           ++ logio.str "] " |}.

(** What a call leaves of the window title: a call of [Progress] with a
    title of its own sets it, any other call keeps it. *)
Definition keeps_title (title : bytes) (c : logio.Call) : Prop :=
  match c with
  | logio.CallWrite _ => True
  | logio.CallProgress t _ => t = [] ∨ t = title
  end.

(** A logger whose minimum level is above every level of the table. *)
Definition silentLogger : logio.Logger :=
  {| logio.extraFrames := 0; logio.minLevel := 5%Z; logio.tag := [] |}.

(** The chunk in which [doWrite] sends [data] that is not a progress line,
    in the state [st]. *)
Definition written (st : logio.Pkg) (data : bytes) : bytes :=
  (if logio.hasProgress (logio.progress st)
   then logio.eraseLine ++ [x0d] ++ data else data)
  ++ logio.lastProgress (logio.progress st).

(** Two places in a program that uses the package. *)
Definition mainFrame : logio.Frame := (logio.str "main.go", 42%Z).
Definition helperFrame : logio.Frame := (logio.str "util.go", 7%Z).

(** * Properties *)

(** ** Logging changes the log only *)

Lemma output_frame l lv text w :
  let w' := log.output put_line l lv text w in
  sched w' = sched w ∧ fs w' = fs w ∧ net w' = net w ∧ ntmp w' = ntmp w
  ∧ clock w' = clock w ∧ progress w' = progress w.
Proof. unfold log.output. by case_match. Qed.

Lemma logf_Ok l lv text w :
  lv ≠ log.LevelFatal →
  log.logf put_line l lv text w = Ok tt (log.output put_line l lv text w).
Proof. by destruct lv. Qed.

Lemma fatal_line_written {S} (put : log.Line → S → S) l text s :
  (log.minLevel (l s) ≤ 4)%Z →
  log.output put l log.LevelFatal text s
  = put {| log.line_level := log.LevelFatal; log.line_text := text |} s.
Proof.
  intros Hl. unfold log.output. cbn [log.level_int].
  by rewrite (proj2 (Z.leb_le _ _) Hl).
Qed.

(** ** [doRequest] *)

(** What a call of a log method adds to the lines logged, and that it leaves
    the default logger as it is. *)
Lemma output_logged l lv text w :
  logged (log.output put_line l lv text w)
  = (if decide (log.minLevel (l w) ≤ log.level_int lv)%Z
     then [{| log.line_level := lv; log.line_text := text |}] else [])
    ++ logged w.
Proof.
  unfold log.output. case_decide as Hl.
  - by rewrite (proj2 (Z.leb_le _ _) Hl).
  - by rewrite (proj2 (Z.leb_gt _ _)) by lia.
Qed.

Lemma output_DefaultLogger l lv text w :
  log_DefaultLogger (log.output put_line l lv text w) = log_DefaultLogger w.
Proof. unfold log.output. by case_match. Qed.

Lemma logger_output task l lv text w :
  logger task (log.output put_line l lv text w) = logger task w.
Proof. unfold logger. by rewrite output_DefaultLogger. Qed.

Lemma doRequest_from_nil E task req n w :
  Client task = None → n ≠ 0 →
  doRequest_from E n task req w
  = Panicked "invalid memory address or nil pointer dereference" w.
Proof.
  intros Hnil Hn. destruct n as [|n]; [done|].
  cbn. unfold st_bind, Client_Do. by rewrite Hnil.
Qed.

Lemma doRequest_from_spec E task req c n w :
  Client task = Some c →
  doRequest_from E n task req w
  = Ok (first_reply E n (length (net w)) req).2
       (set_net (app (replicate (first_reply E n (length (net w)) req).1 req)) w).
Proof.
  intros Hc. revert w. induction n as [|n IH]; intros w.
  - cbn. unfold st_ret. by destruct w.
  - cbn. unfold st_bind, Client_Do. rewrite Hc.
    destruct (transport E (length (net w)) req) as [|resp]; cbn.
    + rewrite IH. cbn. f_equal. unfold set_net; cbn. f_equal.
      by rewrite cons_middle, (assoc_L (++)), <-replicate_cons_app.
    + done.
Qed.

Lemma first_reply_bound E n k req : (first_reply E n k req).1 ≤ n.
Proof.
  revert k. induction n as [|n IH]; intros k; cbn; [lia|].
  destruct (transport E k req); cbn; [|lia]. specialize (IH (S k)). lia.
Qed.

Lemma first_reply_all_fail E n k req :
  (∀ j, j < n → transport E (k + j) req = TransportErr) →
  first_reply E n k req = (n, None).
Proof.
  revert k. induction n as [|n IH]; intros k Hfail; cbn; [done|].
  rewrite <-(Nat.add_0_r k) at 1. rewrite Hfail by lia.
  rewrite IH; [done|]. intros j Hj.
  replace (S k + j) with (k + S j) by lia. apply Hfail. lia.
Qed.

Lemma first_reply_after E n k m req resp :
  m < n →
  (∀ j, j < m → transport E (k + j) req = TransportErr) →
  transport E (k + m) req = Replied resp →
  first_reply E n k req = (S m, Some resp).
Proof.
  revert k m. induction n as [|n IH]; intros k m Hm Hfail Hok; [lia|].
  cbn. destruct m as [|m].
  - rewrite Nat.add_0_r in Hok. by rewrite Hok.
  - rewrite <-(Nat.add_0_r k) at 1. rewrite Hfail by lia.
    rewrite (IH (S k) m); [done|lia| |].
    + intros j Hj. replace (S k + j) with (k + S j) by lia. apply Hfail. lia.
    + by replace (S k + m) with (k + S m) by lia.
Qed.

Lemma first_reply_None E n k req :
  (first_reply E n k req).2 = None →
  (first_reply E n k req).1 = n
  ∧ ∀ j, j < n → transport E (k + j) req = TransportErr.
Proof.
  revert k. induction n as [|n IH]; intros k; cbn.
  - intros _. split; [done|lia].
  - destruct (transport E k req) eqn:Hk; cbn; [|done].
    intros Hn. destruct (IH _ Hn) as [-> Hall]. split; [done|].
    intros [|j] Hj.
    + by rewrite Nat.add_0_r.
    + replace (k + S j) with (S k + j) by lia. apply Hall. lia.
Qed.


Lemma doRequest_spec E task req c w :
  Client task = Some c →
  doRequest E task req w
  = Ok (first_reply E 3 (length (net w)) req).2
       (set_net (app (replicate (first_reply E 3 (length (net w)) req).1 req)) w).
Proof. intros Hc. unfold doRequest. by erewrite doRequest_from_spec. Qed.

Lemma doRequest_nil E task req w :
  Client task = None →
  doRequest E task req w
  = Panicked "invalid memory address or nil pointer dereference" w.
Proof. intros Hc. unfold doRequest. by apply doRequest_from_nil. Qed.

(** [doRequest] touches nothing but the list of requests sent, whatever way
    it ends. *)
Lemma doRequest_frame E task req w :
  let w' := res_state (doRequest E task req w) in
  sched w' = sched w ∧ fs w' = fs w ∧ ntmp w' = ntmp w ∧ clock w' = clock w
  ∧ logged w' = logged w ∧ progress w' = progress w.
Proof.
  destruct (Client task) as [c|] eqn:Hc.
  - by erewrite doRequest_spec.
  - by rewrite doRequest_nil.
Qed.

(** ** [downloadSegment], path by path *)

Section FetcherPaths.

Context (E : Env) (task : DownloadTask) (segment : Z) (c : http_Client).
Hypothesis Hclient : Client task = Some c.
Hypothesis Hurl : url_parses E (getSegUrl E (Url task) segment) = true.

#[local] Abbreviation req := (segmentRequest E task segment).

(** The world once the segment request is over, after [k] tries. *)
#[local] Abbreviation requested k w := (set_net (app (replicate k req)) w).

Lemma downloadSegment_unfold w :
  downloadSegment E task segment w
  = (do r <- doRequest E task req;
     match r with
     | None =>
         exec Debugf task "Request for segment %d failed with %v";
         st_ret false
     | Some resp =>
         if decide (StatusCode resp ≠ 200%Z) then
           exec Debugf task "Non-200 status code %d for segment %d";
           match http_NewRequest E "GET" (Url task) with
           | Some req' => do _ <- doRequest E task req'; st_ret false
           | None => st_ret false
           end
         else
           do file <- ioutil_TempFile E "/tmp/ytarchive_test" "segment-";
           match file with
           | None =>
               exec Warnf task "Unable to create temp file for segment %d: %v";
               st_ret false
           | Some name =>
               do copied <- io_Copy E name (Body resp);
               if negb copied then
                 exec os_Remove name;
                 exec Errorf task "Unable to write segment %d: %v";
                 st_ret false
               else
                 exec downloaded segment {| ok := true; filename := name |};
                 st_ret true
           end
     end) w.
Proof. unfold downloadSegment, http_NewRequest. by rewrite Hurl. Qed.

(** Every inline try fails: a failed attempt, nothing recorded. *)
Lemma downloadSegment_transport_failed w :
  (∀ j, j < 3 → transport E (length (net w) + j) req = TransportErr) →
  downloadSegment E task segment w
  = Ok false (log.output put_line (logger task) log.LevelDebug
                "Request for segment %d failed with %v" (requested 3 w)).
Proof.
  intros Hfail. rewrite downloadSegment_unfold. unfold st_bind.
  erewrite doRequest_spec by done.
  by rewrite (first_reply_all_fail _ _ _ _ Hfail).
Qed.

(** A response with a status other than 200 after [m] failed tries: the
    probe is sent and the attempt fails. *)
Lemma downloadSegment_bad_status w m resp :
  m < 3 →
  (∀ j, j < m → transport E (length (net w) + j) req = TransportErr) →
  transport E (length (net w) + m) req = Replied resp →
  StatusCode resp ≠ 200%Z →
  url_parses E (Url task) = true →
  let w1 := log.output put_line (logger task) log.LevelDebug
              "Non-200 status code %d for segment %d" (requested (S m) w) in
  downloadSegment E task segment w
  = Ok false (res_state (doRequest E task (probeRequest task) w1)).
Proof.
  intros Hm Hfail Hok Hst Hbase w1. rewrite downloadSegment_unfold.
  unfold st_bind. erewrite doRequest_spec by done.
  rewrite (first_reply_after _ _ _ _ _ _ Hm Hfail Hok). cbn.
  rewrite decide_True by done. unfold st_bind. cbn.
  unfold http_NewRequest. rewrite Hbase.
  fold (probeRequest task). subst w1.
  by rewrite !(doRequest_spec E task _ c) by done.
Qed.

(** A 200 response after [m] failed tries, stored without a fault: the
    attempt succeeds and the success is recorded under the scratch name. *)
Lemma downloadSegment_stored w m resp suffix :
  m < 3 →
  (∀ j, j < m → transport E (length (net w) + j) req = TransportErr) →
  transport E (length (net w) + m) req = Replied resp →
  StatusCode resp = 200%Z →
  tempfile E (ntmp w) = Some suffix →
  fs w !! scratchName suffix = None →
  copy_fault E (ntmp w) = None →
  downloadSegment E task segment w
  = Ok true
      (set_sched (set_outcomes
                    <[segment := {| ok := true;
                                    filename := scratchName suffix |}]>)
         (set_fs <[scratchName suffix := Body resp]>
            (set_ntmp S (requested (S m) w)))).
Proof.
  intros Hm Hfail Hok Hst Htmp Hnew Hcopy. rewrite downloadSegment_unfold.
  unfold st_bind. erewrite doRequest_spec by done.
  rewrite (first_reply_after _ _ _ _ _ _ Hm Hfail Hok). cbn.
  rewrite decide_False by (intros ?; done). unfold st_bind.
  unfold ioutil_TempFile. cbn. rewrite Htmp.
  fold (scratchName suffix). rewrite Hnew.
  unfold io_Copy. cbn. rewrite Nat.sub_0_r, Hcopy. cbn.
  unfold set_sched, set_fs; cbn. do 2 f_equal.
  by rewrite insert_insert_eq.
Qed.

(** A 200 response whose copy to the scratch file fails: the file is
    removed and the attempt fails. *)
Lemma downloadSegment_write_failed w m resp suffix k :
  m < 3 →
  (∀ j, j < m → transport E (length (net w) + j) req = TransportErr) →
  transport E (length (net w) + m) req = Replied resp →
  StatusCode resp = 200%Z →
  tempfile E (ntmp w) = Some suffix →
  fs w !! scratchName suffix = None →
  copy_fault E (ntmp w) = Some k →
  downloadSegment E task segment w
  = Ok false (log.output put_line (logger task) log.LevelError
                "Unable to write segment %d: %v"
                (set_ntmp S (requested (S m) w))).
Proof.
  intros Hm Hfail Hok Hst Htmp Hnew Hcopy. rewrite downloadSegment_unfold.
  unfold st_bind. erewrite doRequest_spec by done.
  rewrite (first_reply_after _ _ _ _ _ _ Hm Hfail Hok). cbn.
  rewrite decide_False by (intros ?; done). unfold st_bind.
  unfold ioutil_TempFile. cbn. rewrite Htmp.
  fold (scratchName suffix). rewrite Hnew.
  unfold io_Copy. cbn. rewrite Nat.sub_0_r, Hcopy. cbn.
  unfold st_ret. do 2 f_equal.
  unfold set_fs, set_ntmp, requested, set_net; cbn. f_equal.
  rewrite insert_insert_eq, delete_insert_eq. by apply delete_id.
Qed.

End FetcherPaths.

(** ** [downloadSegment], whatever the surroundings *)

(** A failed attempt leaves the scheduler, the files, the clock and the
    progress count as they were: nothing is recorded for the segment. *)
Lemma downloadSegment_false E task segment w w' :
  downloadSegment E task segment w = Ok false w' →
  sched w' = sched w ∧ fs w' = fs w ∧ clock w' = clock w
  ∧ progress w' = progress w.
Proof.
  unfold downloadSegment.
  destruct (http_NewRequest E "GET" _) as [req|]; [|done].
  unfold st_bind at 1.
  pose proof (doRequest_frame E task (Header_Set "User-Agent" userAgent req) w)
    as Hfr.
  destruct (doRequest _ _ _ w) as [[resp|] w1| |]; cbn in Hfr; [| |done..].
  - case_decide as Hst.
    + unfold st_bind, Debugf. rewrite logf_Ok by done.
      pose proof (output_frame (logger task) log.LevelDebug
                    "Non-200 status code %d for segment %d" w1) as Ho.
      cbn in Ho. set (w2 := log.output _ _ _ _ w1) in *.
      destruct (http_NewRequest E "GET" (Url task)) as [req'|].
      * pose proof (doRequest_frame E task req' w2) as Hfr2.
        destruct (doRequest _ _ req' w2) as [r w3| |]; cbn in Hfr2; [|done..].
        intros [= <-]. destruct_and!. split_and!; congruence.
      * intros [= <-]. destruct_and!. split_and!; congruence.
    + unfold st_bind at 1. unfold ioutil_TempFile.
      destruct (tempfile E (ntmp w1)) as [suffix|]; cbn.
      * destruct (fs w1 !! _) eqn:Hnew; cbn.
        -- intros [= <-]. unfold log.output. destruct_and!.
           case_match; cbn; split_and!; congruence.
        -- unfold st_bind, io_Copy; cbn.
           destruct (copy_fault E _); cbn; [|done].
           intros [= <-]. unfold log.output. destruct_and!.
           assert (delete ("/tmp/ytarchive_test" +:+ "/" +:+ "segment-" +:+ suffix)
                     (<["/tmp/ytarchive_test" +:+ "/" +:+ "segment-" +:+ suffix
                        := take n (Body resp)]>
                        (<["/tmp/ytarchive_test" +:+ "/" +:+ "segment-" +:+ suffix
                           := []]> (fs w1))) = fs w) as Hfs.
           { rewrite insert_insert_eq, delete_insert_eq.
             rewrite delete_id by done. congruence. }
           case_match; cbn; split_and!; congruence.
      * intros [= <-]. unfold log.output. destruct_and!.
        case_match; cbn; split_and!; congruence.
  - unfold st_bind, Debugf. rewrite logf_Ok by done. intros [= <-].
    unfold log.output. destruct_and!. case_match; cbn; split_and!; congruence.
Qed.

(** A successful attempt has created one new scratch file and recorded the
    success of the segment under its name; it has changed nothing else in the
    scheduler or among the files. *)
Lemma downloadSegment_true E task segment w w' :
  downloadSegment E task segment w = Ok true w' →
  ∃ name body,
    fs w !! name = None
    ∧ fs w' = <[name := body]> (fs w)
    ∧ sched w' = set_outcomes <[segment := {| ok := true; filename := name |}]>
                   (sched w)
    ∧ clock w' = clock w ∧ progress w' = progress w.
Proof.
  unfold downloadSegment.
  destruct (http_NewRequest E "GET" _) as [req|]; [|done].
  unfold st_bind at 1.
  pose proof (doRequest_frame E task (Header_Set "User-Agent" userAgent req) w)
    as Hfr.
  destruct (doRequest _ _ _ w) as [[resp|] w1| |]; cbn in Hfr; [| |done..].
  - case_decide as Hst.
    + unfold st_bind, Debugf. rewrite logf_Ok by done.
      destruct (http_NewRequest E "GET" (Url task)) as [req'|]; [|done].
      by destruct (doRequest _ _ req' _) as [r w3| |].
    + unfold st_bind at 1. unfold ioutil_TempFile.
      destruct (tempfile E (ntmp w1)) as [suffix|]; cbn.
      * destruct (fs w1 !! _) eqn:Hnew; cbn.
        -- unfold log.output. by case_match.
        -- unfold st_bind, io_Copy; cbn.
           destruct (copy_fault E _); cbn; [done|].
           intros [= <-]. destruct_and!.
           exists (scratchName suffix), (Body resp). unfold scratchName. cbn.
           rewrite insert_insert_eq. split_and!; congruence.
      * unfold log.output. by case_match.
  - unfold st_bind, Debugf. by rewrite logf_Ok by done.
Qed.

(** ** One step of a worker that holds an index *)

Lemma NextSegment_sched q w1 w2 :
  sched w1 = sched w2 →
  res_value (NextSegment q w1) = res_value (NextSegment q w2).
Proof.
  intros Hs. unfold NextSegment. rewrite Hs.
  repeat case_match; done.
Qed.

(** The three ways the step of a worker holding [seg wk] returns: a failed
    attempt, after which it still holds the index; a successful attempt; the
    abandonment of the index. *)
Lemma downloadTask_step_holding E task wk w a wk' w' :
  exited wk = false → seg wk ≠ (-1)%Z →
  downloadTask_step E task wk w = Ok (a, wk') w' →
  ((failCount wk < FailThreshold)%Z
   ∧ a = ActAttempted (seg wk) false
   ∧ wk' = set_local (failCount wk + 1) (seg wk) wk
   ∧ sched w' = sched w ∧ fs w' = fs w
   ∧ clock w' = clock w + 1 ∧ progress w' = progress w)
  ∨ ((failCount wk < FailThreshold)%Z
     ∧ a = ActAttempted (seg wk) true
     ∧ wk' = set_local 0 (-1) wk
     ∧ (∃ name body,
          fs w !! name = None ∧ fs w' = <[name := body]> (fs w)
          ∧ sched w' = set_outcomes
                         <[seg wk := {| ok := true; filename := name |}]>
                         (sched w))
     ∧ clock w' = clock w ∧ progress w' = seg wk :: progress w)
  ∨ ((FailThreshold ≤ failCount wk)%Z
     ∧ a = ActGaveUp (seg wk)
     ∧ wk' = set_local 0 (-1) wk
     ∧ sched w' = set_outcomes
                    <[seg wk := {| ok := false; filename := "" |}]> (sched w)
     ∧ fs w' = fs w ∧ net w' = net w
     ∧ clock w' = clock w ∧ progress w' = seg wk :: progress w).
Proof.
  intros Hex Hseg. unfold downloadTask_step. rewrite Hex.
  rewrite decide_False by done. case_decide as Hfc.
  - unfold st_bind, Warnf. rewrite logf_Ok by done. cbn.
    intros [= <- <- <-]. right; right.
    unfold log.output. case_match; cbn; split_and!; done.
  - unfold st_bind at 1. unfold Debugf at 1. rewrite logf_Ok by done.
    pose proof (output_frame (logger task) log.LevelDebug
                  "Current segment: %d" w) as Ho.
    cbn in Ho. set (w0 := log.output _ _ _ _ w) in *.
    unfold st_bind at 1.
    destruct (downloadSegment E task (seg wk) w0) as [[] w1| |] eqn:Hd;
      [| |done..].
    + apply downloadSegment_true in Hd as (name & body & Hnew & Hfs & Hs & Hc & Hp).
      unfold st_bind, Debugf. rewrite logf_Ok by done. cbn.
      intros [= <- <- <-]. right; left. destruct_and!.
      split_and!; [lia|done|done| | |].
      * exists name, body. unfold log.output.
        case_match; cbn; split_and!; congruence.
      * unfold log.output. case_match; cbn; congruence.
      * unfold log.output. case_match; cbn; congruence.
    + apply downloadSegment_false in Hd as (Hs & Hfs & Hc & Hp).
      unfold st_bind, Debugf. rewrite logf_Ok by done. cbn.
      intros [= <- <- <-]. left. destruct_and!.
      unfold log.output. case_match; cbn; split_and!; (lia || congruence).
Qed.

Lemma downloadTask_step_failed E task wk w w1 :
  exited wk = false → seg wk ≠ (-1)%Z → (failCount wk < FailThreshold)%Z →
  downloadSegment E task (seg wk)
    (log.output put_line (logger task) log.LevelDebug "Current segment: %d" w)
  = Ok false w1 →
  downloadTask_step E task wk w
  = Ok (ActAttempted (seg wk) false, set_local (failCount wk + 1) (seg wk) wk)
       (set_clock (λ t, t + 1)
          (log.output put_line (logger task) log.LevelDebug
             "Failed segment %d [%d/%d]" w1)).
Proof.
  intros Hex Hseg Hfc Hd. unfold downloadTask_step. rewrite Hex.
  rewrite decide_False by done. rewrite decide_False by lia.
  unfold st_bind, Debugf. rewrite !logf_Ok by done. by rewrite Hd.
Qed.

Lemma downloadTask_step_succeeded E task wk w w1 :
  exited wk = false → seg wk ≠ (-1)%Z → (failCount wk < FailThreshold)%Z →
  downloadSegment E task (seg wk)
    (log.output put_line (logger task) log.LevelDebug "Current segment: %d" w)
  = Ok true w1 →
  downloadTask_step E task wk w
  = Ok (ActAttempted (seg wk) true, set_local 0 (-1) wk)
       (put_progress (seg wk)
          (log.output put_line (logger task) log.LevelDebug
             "Downloaded segment %d" w1)).
Proof.
  intros Hex Hseg Hfc Hd. unfold downloadTask_step. rewrite Hex.
  rewrite decide_False by done. rewrite decide_False by lia.
  unfold st_bind, Debugf. rewrite !logf_Ok by done. by rewrite Hd.
Qed.

Lemma downloadTask_step_gave_up E task wk w :
  exited wk = false → seg wk ≠ (-1)%Z → (FailThreshold ≤ failCount wk)%Z →
  downloadTask_step E task wk w
  = Ok (ActGaveUp (seg wk), set_local 0 (-1) wk)
       (put_progress (seg wk)
          (set_sched (set_outcomes
                        <[seg wk := {| ok := false; filename := "" |}]>)
             (log.output put_line (logger task) log.LevelWarn
                "Giving up segment %d" w))).
Proof.
  intros Hex Hseg Hfc. unfold downloadTask_step. rewrite Hex.
  rewrite decide_False by done. rewrite decide_True by lia.
  unfold st_bind, Warnf. by rewrite !logf_Ok by done.
Qed.

(** ** A segment that fails every attempt *)

Section Unfetchable.

Context (E : Env) (task : DownloadTask) (s : Z).
Hypothesis Hs : s ≠ (-1)%Z.
Hypothesis Hfail : ∀ w0, ∃ w1, downloadSegment E task s w0 = Ok false w1.

(** [k] failed attempts in a row, as long as the count stays within the
    threshold: the worker still holds the index and nothing is recorded. *)
Lemma failing_steps k wk w :
  exited wk = false → seg wk = s → (0 ≤ failCount wk)%Z →
  (failCount wk + Z.of_nat k ≤ FailThreshold)%Z →
  ∃ w', downloadTask_steps E task k wk w
        = Ok (replicate k (ActAttempted s false),
              set_local (failCount wk + Z.of_nat k) s wk) w'
        ∧ sched w' = sched w ∧ fs w' = fs w ∧ clock w' = clock w + k
        ∧ progress w' = progress w.
Proof.
  revert wk w. induction k as [|k IH]; intros wk w Hex Hseg Hfc0 Hfc.
  - exists w. cbn. unfold st_ret. split_and!; [|done|done|lia|done].
    do 2 f_equal. destruct wk; cbn in *. subst.
    unfold set_local; cbn. f_equal. lia.
  - cbn [downloadTask_steps]. rewrite Hex. unfold st_bind at 1.
    destruct (Hfail (log.output put_line (logger task) log.LevelDebug
                       "Current segment: %d" w)) as [w1 Hd].
    rewrite (downloadTask_step_failed E task wk w w1); [|done|lia|lia|by rewrite Hseg].
    pose proof (downloadSegment_false _ _ _ _ _ Hd) as (Hs1 & Hf1 & Hc1 & Hp1).
    pose proof (output_frame (logger task) log.LevelDebug
                  "Current segment: %d" w) as Ho. cbn in Ho.
    pose proof (output_frame (logger task) log.LevelDebug
                  "Failed segment %d [%d/%d]" w1) as Ho1. cbn in Ho1.
    cbn [fst snd]. unfold st_bind at 1.
    edestruct (IH (set_local (failCount wk + 1) (seg wk) wk)) as (w' & Hrun & Hs' & Hf' & Hc' & Hp');
      [done|by cbn|cbn; lia|cbn; lia|].
    rewrite Hrun. cbn. exists w'. destruct_and!. split_and!.
    + unfold st_ret. do 2 f_equal; [by rewrite Hseg|].
      unfold set_local; cbn. f_equal. lia.
    + rewrite Hs'. cbn. congruence.
    + rewrite Hf'. cbn. congruence.
    + rewrite Hc'. cbn. lia.
    + rewrite Hp'. cbn. congruence.
Qed.

End Unfetchable.

(** ** Runs of the worker loop *)

Lemma downloadTask_steps_app E task k j wk w acts wk1 w1 :
  downloadTask_steps E task k wk w = Ok (acts, wk1) w1 →
  downloadTask_steps E task (k + j) wk w
  = (do rs <- downloadTask_steps E task j wk1; st_ret (acts ++ rs.1, rs.2)) w1.
Proof.
  revert wk w acts. induction k as [|k IH]; intros wk w acts.
  - cbn. intros [= <- <- <-]. unfold st_bind.
    by destruct (downloadTask_steps E task j wk w) as [[] ?| |].
  - cbn [downloadTask_steps Nat.add].
    destruct (exited wk) eqn:Hex.
    + intros [= <- <- <-]. unfold st_bind.
      destruct j; cbn; [done|]. by rewrite Hex.
    + intros H. unfold st_bind in H |- *.
      destruct (downloadTask_step E task wk w) as [[a wk2] w2| |]; [|done..].
      cbn [fst snd] in *.
      destruct (downloadTask_steps E task k wk2 w2) as [[acts2 wk3] w3| |] eqn:Hk;
        [|done..].
      cbn in H. injection H as <- <- <-.
      rewrite (IH _ _ _ Hk). unfold st_bind.
      by destruct (downloadTask_steps E task j wk3 w3) as [[] ?| |].
Qed.

(** C3.  A worker attempts its segment as long as the failure count is below
    [FailThreshold] = 20 and abandons it exactly when the count has reached
    the threshold.  For a segment [s] whose every attempt fails: after [k]
    steps, for every [k] up to 20, the worker has made [k] failed attempts,
    counts [k] failures, still holds [s] and has recorded nothing (so the
    19th failure is followed by a 20th attempt); the 21st step is the
    abandonment, which records the permanent failure, so that the segment has
    received exactly 20 attempts.  Whatever the segment does, a step with a
    count below the threshold is an attempt, and a step with the count at the
    threshold gives the segment up without sending a request. *)
Theorem retry_until_threshold E task s wk w :
  s ≠ (-1)%Z → exited wk = false → seg wk = s → failCount wk = 0%Z →
  (∀ w0, ∃ w1, downloadSegment E task s w0 = Ok false w1) →
  FailThreshold = 20%Z
  ∧ (∀ k, k ≤ 20 →
       ∃ w', downloadTask_steps E task k wk w
             = Ok (replicate k (ActAttempted s false),
                   set_local (Z.of_nat k) s wk) w'
             ∧ outcomes (sched w') = outcomes (sched w))
  ∧ (∃ w', downloadTask_steps E task 21 wk w
           = Ok (replicate 20 (ActAttempted s false) ++ [ActGaveUp s],
                 set_local 0 (-1) wk) w'
           ∧ outcomes (sched w')
             = <[s := {| ok := false; filename := "" |}]> (outcomes (sched w))
           ∧ progress w' = s :: progress w)
  ∧ (∀ wk0 w0 a wk' w',
       exited wk0 = false → seg wk0 = s → (failCount wk0 < FailThreshold)%Z →
       downloadTask_step E task wk0 w0 = Ok (a, wk') w' →
       ∃ ok, a = ActAttempted s ok)
  ∧ (∀ wk0 w0,
       exited wk0 = false → seg wk0 = s → (FailThreshold ≤ failCount wk0)%Z →
       ∃ w', downloadTask_step E task wk0 w0
             = Ok (ActGaveUp s, set_local 0 (-1) wk0) w'
             ∧ net w' = net w0).
Proof.
  intros Hs Hex Hseg Hfc Hfail.
  assert (Hrun : ∀ k, k ≤ 20 →
            ∃ w', downloadTask_steps E task k wk w
                  = Ok (replicate k (ActAttempted s false),
                        set_local (Z.of_nat k) s wk) w'
                  ∧ sched w' = sched w ∧ progress w' = progress w).
  { intros k Hk.
    destruct (failing_steps E task s Hs Hfail k wk w)
      as (w' & Hrun & Hsc & _ & _ & Hp);
      [done|done|lia|unfold FailThreshold; lia|].
    exists w'. rewrite Hfc in Hrun. by rewrite Z.add_0_l in Hrun. }
  split_and!.
  - done.
  - intros k Hk. destruct (Hrun k Hk) as (w' & ? & Hsc & _). exists w'.
    by rewrite Hsc.
  - destruct (Hrun 20) as (w1 & Hrun20 & Hsc & Hp); [lia|].
    change 21 with (20 + 1).
    rewrite (downloadTask_steps_app _ _ _ _ _ _ _ _ _ Hrun20).
    unfold st_bind at 1. cbn [downloadTask_steps]. cbn [exited set_local].
    rewrite Hex. unfold st_bind at 1.
    rewrite downloadTask_step_gave_up;
      [|done|by cbn|cbn; unfold FailThreshold; lia].
    cbn. eexists. split; [reflexivity|]. cbn.
    pose proof (output_frame (logger task) log.LevelWarn
                  "Giving up segment %d" w1) as Ho. cbn in Ho.
    destruct_and!. split; congruence.
  - intros wk0 w0 a wk' w' Hex0 Hseg0 Hfc0 Hstep.
    apply downloadTask_step_holding in Hstep; [|done|by rewrite Hseg0].
    rewrite Hseg0 in Hstep.
    destruct Hstep as [(_ & -> & _)|[(_ & -> & _)|(? & _)]]; [by eexists..|lia].
  - intros wk0 w0 Hex0 Hseg0 Hfc0. eexists. split.
    + rewrite <-Hseg0. by apply downloadTask_step_gave_up; [|rewrite Hseg0|].
    + cbn. unfold log.output. by case_match.
Qed.

Lemma retry_until_threshold_witness :
  ∃ w', downloadTask_steps envDown exampleTask 21 exampleWorker exampleWorld
        = Ok (replicate 20 (ActAttempted 1 false) ++ [ActGaveUp 1],
              set_local 0 (-1) exampleWorker) w'
        ∧ outcomes (sched w')
          = <[1%Z := {| ok := false; filename := "" |}]>
              (outcomes (sched exampleWorld))
        ∧ progress w' = 1%Z :: progress exampleWorld.
Proof.
  apply (retry_until_threshold envDown exampleTask 1 exampleWorker exampleWorld);
    [done|reflexivity|reflexivity|reflexivity|].
  intros w0. eexists.
  by apply (downloadSegment_transport_failed envDown exampleTask 1 defaultClient).
Defined.

(** ** The inline retries of one attempt *)

Lemma first_reply_tries E k req :
  1 ≤ (first_reply E 3 k req).1 ≤ 3.
Proof.
  split; [|apply first_reply_bound].
  cbn. destruct (transport E k req); cbn; lia.
Qed.

(** C5.  Within one attempt, a transport failure of the segment request is
    retried at once: [doRequest] calls [Client.Do] between one and
    [RetryThreshold] = 3 times with the same request and lets no time pass.
    When the three tries fail, the step of the worker is one failed attempt:
    the failure count grows by exactly one and nothing is recorded for the
    segment (no permanent failure).  When a try succeeds after [m] < 3
    failures (the origin answers 200 and the body is stored), the step is one
    successful attempt made of [m + 1] tries: the failures before it are not
    counted, the failure count is 0 afterwards, and no time was spent. *)
Theorem inline_retries E task c wk w s :
  Client task = Some c →
  url_parses E (getSegUrl E (Url task) s) = true →
  exited wk = false → seg wk = s → s ≠ (-1)%Z →
  (failCount wk < FailThreshold)%Z →
  let req := segmentRequest E task s in
  RetryThreshold = 3%Z
  ∧ (∃ k, 1 ≤ k ≤ 3
          ∧ doRequest E task req w
            = Ok (first_reply E 3 (length (net w)) req).2
                 (set_net (app (replicate k req)) w)
          ∧ clock (res_state (doRequest E task req w)) = clock w)
  ∧ ((∀ j, j < 3 → transport E (length (net w) + j) req = TransportErr) →
     ∃ w', downloadTask_step E task wk w
           = Ok (ActAttempted s false, set_local (failCount wk + 1) s wk) w'
           ∧ net w' = replicate 3 req ++ net w
           ∧ sched w' = sched w
           ∧ clock w' = clock w + 1)
  ∧ (∀ m resp suffix,
       m < 3 →
       (∀ j, j < m → transport E (length (net w) + j) req = TransportErr) →
       transport E (length (net w) + m) req = Replied resp →
       StatusCode resp = 200%Z →
       tempfile E (ntmp w) = Some suffix →
       fs w !! scratchName suffix = None →
       copy_fault E (ntmp w) = None →
       ∃ w', downloadTask_step E task wk w
             = Ok (ActAttempted s true, set_local 0 (-1) wk) w'
             ∧ net w' = replicate (S m) req ++ net w
             ∧ outcomes (sched w')
               = <[s := {| ok := true; filename := scratchName suffix |}]>
                   (outcomes (sched w))
             ∧ fs w' = <[scratchName suffix := Body resp]> (fs w)
             ∧ clock w' = clock w).
Proof.
  intros Hc Hurl Hex Hseg Hs Hfc req.
  pose proof (output_frame (logger task) log.LevelDebug
                "Current segment: %d" w) as Ho. cbn in Ho.
  destruct Ho as (Hosc & Hofs & Hon & Hot & Hocl & Hop).
  split_and!.
  - done.
  - exists (first_reply E 3 (length (net w)) req).1. split_and!.
    + apply first_reply_tries.
    + apply first_reply_tries.
    + by apply doRequest_spec with c.
    + apply doRequest_frame.
  - intros Hfail. eexists. split.
    + rewrite <-Hseg. apply downloadTask_step_failed; [done|by rewrite Hseg|done|].
      rewrite Hseg.
      apply (downloadSegment_transport_failed E task s c Hc Hurl).
      by rewrite Hon.
    + clear. cbn. unfold log.output. repeat case_match; cbn; done.
  - intros m resp suffix Hm Hfail Hok Hst Htmp Hnew Hcopy. eexists. split.
    + rewrite <-Hseg. apply downloadTask_step_succeeded; [done|by rewrite Hseg|done|].
      rewrite Hseg.
      apply (downloadSegment_stored E task s c Hc Hurl _ m resp suffix);
        rewrite ?Hon, ?Hot, ?Hofs; done.
    + clear. cbn. unfold log.output. repeat case_match; cbn; done.
Qed.

Lemma inline_retries_witness :
  ∃ w', downloadTask_step envFlaky exampleTask exampleWorker exampleWorld
        = Ok (ActAttempted 1 true, set_local 0 (-1) exampleWorker) w'
        ∧ net w' = replicate 3 (segmentRequest envFlaky exampleTask 1)
                   ++ net exampleWorld
        ∧ outcomes (sched w')
          = <[1%Z := {| ok := true; filename := scratchName "0" |}]>
              (outcomes (sched exampleWorld))
        ∧ fs w' = <[scratchName "0" := exampleBody]> (fs exampleWorld)
        ∧ clock w' = clock exampleWorld.
Proof.
  apply (inline_retries envFlaky exampleTask defaultClient exampleWorker
           exampleWorld 1 eq_refl eq_refl eq_refl eq_refl) with (resp := found);
    [done|reflexivity|lia| |reflexivity..].
  intros [|[|j]] Hj; [reflexivity|reflexivity|lia].
Defined.

(** ** A status other than 200 *)

(** A response with a status other than 200 when the base URL of the stream
    cannot be made into a request: the attempt fails without a probe. *)
Lemma downloadSegment_no_probe E task c s w m resp :
  Client task = Some c →
  url_parses E (getSegUrl E (Url task) s) = true →
  m < 3 →
  (∀ j, j < m →
        transport E (length (net w) + j) (segmentRequest E task s) = TransportErr) →
  transport E (length (net w) + m) (segmentRequest E task s) = Replied resp →
  StatusCode resp ≠ 200%Z →
  url_parses E (Url task) = false →
  downloadSegment E task s w
  = Ok false
      (log.output put_line (logger task) log.LevelDebug
         "Non-200 status code %d for segment %d"
         (set_net (app (replicate (S m) (segmentRequest E task s))) w)).
Proof.
  intros Hc Hurl Hm Hfail Hok Hst Hbase.
  rewrite (downloadSegment_unfold E task s Hurl).
  unfold st_bind. erewrite doRequest_spec by done.
  rewrite (first_reply_after _ _ _ _ _ _ Hm Hfail Hok). cbn.
  rewrite decide_True by done. unfold st_bind. cbn.
  unfold http_NewRequest. by rewrite Hbase.
Qed.

(** C6, as the code has it.  When the segment request is answered with a
    status other than 200 (after [m] < 3 transport failures),
    [downloadSegment] reports a failed attempt and, before returning, probes
    the base URL of the stream, without segment index, through one call of
    [doRequest]: the requests sent are the tries of the segment request
    followed by the [k] tries of the probe.  [k] is 1 when the first probe is
    answered, 3 when the transport fails each time, never more than 3, and 0
    when the base URL cannot be made into a request.  What the probe returns
    is not used: the result is [false] and the scheduler, the files, the
    clock and the progress count are what they were before the segment
    request. *)
Theorem probe_on_bad_status E task c s w m resp :
  Client task = Some c →
  url_parses E (getSegUrl E (Url task) s) = true →
  m < 3 →
  (∀ j, j < m →
        transport E (length (net w) + j) (segmentRequest E task s) = TransportErr) →
  transport E (length (net w) + m) (segmentRequest E task s) = Replied resp →
  StatusCode resp ≠ 200%Z →
  let w1 := log.output put_line (logger task) log.LevelDebug
              "Non-200 status code %d for segment %d"
              (set_net (app (replicate (S m) (segmentRequest E task s))) w) in
  ∃ k w',
    downloadSegment E task s w = Ok false w'
    ∧ net w' = replicate k (probeRequest task)
               ++ replicate (S m) (segmentRequest E task s) ++ net w
    ∧ URL (probeRequest task) = Url task
    ∧ (if url_parses E (Url task)
       then w' = res_state (doRequest E task (probeRequest task) w1)
            ∧ k = (first_reply E 3 (length (net w) + S m) (probeRequest task)).1
            ∧ 1 ≤ k ≤ 3
            ∧ (∀ answer,
                 transport E (length (net w) + S m) (probeRequest task)
                 = Replied answer → k = 1)
            ∧ ((∀ j, j < 3 →
                     transport E (length (net w) + S m + j) (probeRequest task)
                     = TransportErr) → k = 3)
       else w' = w1 ∧ k = 0)
    ∧ sched w' = sched w ∧ fs w' = fs w ∧ ntmp w' = ntmp w
    ∧ clock w' = clock w ∧ progress w' = progress w.
Proof.
  intros Hc Hurl Hm Hfail Hok Hst w1.
  set (req := segmentRequest E task s) in *.
  pose proof (output_frame (logger task) log.LevelDebug
                "Non-200 status code %d for segment %d"
                (set_net (app (replicate (S m) req)) w)) as Ho.
  cbn zeta in Ho. fold w1 in Ho.
  destruct Ho as (Hsc & Hfs & Hnet & Htmp & Hcl & Hpr).
  change (net (set_net _ w)) with (replicate (S m) req ++ net w) in Hnet.
  assert (Hlen : length (net w1) = length (net w) + S m).
  { rewrite Hnet, length_app, length_replicate. lia. }
  destruct (url_parses E (Url task)) eqn:Hbase.
  - pose proof (doRequest_frame E task (probeRequest task) w1) as Hfr.
    cbn zeta in Hfr. destruct Hfr as (Hsc' & Hfs' & Htmp' & Hcl' & _ & Hpr').
    exists (first_reply E 3 (length (net w) + S m) (probeRequest task)).1,
           (res_state (doRequest E task (probeRequest task) w1)).
    split_and!.
    + by apply (downloadSegment_bad_status E task s c Hc Hurl w m resp).
    + rewrite (doRequest_spec E task _ c) by done.
      unfold res_state, set_net. cbn [net]. rewrite Hlen. f_equal. exact Hnet.
    + done.
    + done.
    + done.
    + apply first_reply_tries.
    + apply first_reply_tries.
    + intros answer Hans. cbn. by rewrite Hans.
    + intros Hdown. by rewrite (first_reply_all_fail E 3 _ _ Hdown).
    + by rewrite Hsc'.
    + by rewrite Hfs'.
    + by rewrite Htmp'.
    + by rewrite Hcl'.
    + by rewrite Hpr'.
  - exists 0, w1. split_and!; try done.
    by apply (downloadSegment_no_probe E task c s w m resp).
Qed.

Lemma probe_on_bad_status_witness :
  ∃ k w',
    downloadSegment envGone exampleTask 1 exampleWorld = Ok false w'
    ∧ net w' = replicate k (probeRequest exampleTask)
               ++ replicate 2 (segmentRequest envGone exampleTask 1)
               ++ net exampleWorld
    ∧ k = 1
    ∧ sched w' = sched exampleWorld ∧ fs w' = fs exampleWorld.
Proof.
  destruct (probe_on_bad_status envGone exampleTask defaultClient 1
              exampleWorld 1 notFound)
    as (k & w' & Hd & Hnet & _ & Hk & Hsc & Hfs & _);
    [reflexivity|reflexivity|lia| |reflexivity|done|].
  { intros [|j] Hj; [reflexivity|lia]. }
  exists k, w'. split_and!; try done.
  destruct Hk as (_ & _ & _ & Hone & _). by eapply Hone.
Defined.

(** C6, as the specification states it, fails: the probe is not always
    exactly one request.  When the transport fails on the probe, three probe
    requests are sent; when the base URL cannot be made into a request, none
    is sent. *)
Lemma probe_not_exactly_one :
  (∃ w', downloadSegment envProbeDown exampleTask 1 exampleWorld = Ok false w'
         ∧ net w' = replicate 3 (probeRequest exampleTask)
                    ++ [segmentRequest envProbeDown exampleTask 1])
  ∧ (∃ w', downloadSegment envNoBase exampleTask 1 exampleWorld = Ok false w'
           ∧ net w' = [segmentRequest envNoBase exampleTask 1]).
Proof. split; (eexists; split; [by vm_compute|by vm_compute]). Qed.

(** ** A write error while the body is stored *)

Lemma io_Copy_partial E name body w k :
  copy_fault E (ntmp w - 1) = Some k →
  io_Copy E name body w = Ok false (set_fs <[name := take k body]> w).
Proof. intros Hk. unfold io_Copy. by rewrite Hk. Qed.

(** C7.  When the segment request is answered 200 and copying the body into
    the scratch file just created fails, [downloadSegment] returns [false]
    and the scratch file, which held the bytes copied before the error, is
    removed before it returns: the files are those that existed before the
    attempt.  Nothing is recorded for the segment, so the step of the worker
    is a failed attempt and the segment has no outcome from it. *)
Theorem write_error_removes_scratch E task c s w m resp suffix k :
  Client task = Some c →
  url_parses E (getSegUrl E (Url task) s) = true →
  m < 3 →
  (∀ j, j < m →
        transport E (length (net w) + j) (segmentRequest E task s) = TransportErr) →
  transport E (length (net w) + m) (segmentRequest E task s) = Replied resp →
  StatusCode resp = 200%Z →
  tempfile E (ntmp w) = Some suffix →
  fs w !! scratchName suffix = None →
  copy_fault E (ntmp w) = Some k →
  (∃ w', downloadSegment E task s w = Ok false w'
         ∧ fs w' !! scratchName suffix = None
         ∧ fs w' = fs w
         ∧ sched w' = sched w)
  ∧ (∀ wk, exited wk = false → seg wk = s → s ≠ (-1)%Z →
           (failCount wk < FailThreshold)%Z →
           ∃ w', downloadTask_step E task wk w
                 = Ok (ActAttempted s false,
                       set_local (failCount wk + 1) s wk) w'
                 ∧ fs w' = fs w
                 ∧ outcomes (sched w') = outcomes (sched w)).
Proof.
  intros Hc Hurl Hm Hfail Hok Hst Htmp Hnew Hcopy. split.
  - eexists. split.
    + by apply (downloadSegment_write_failed E task s c Hc Hurl w m resp suffix k).
    + clear -Hnew. unfold log.output. repeat case_match; cbn; done.
  - intros wk Hex Hseg Hs Hfc.
    pose proof (output_frame (logger task) log.LevelDebug
                  "Current segment: %d" w) as Ho. cbn zeta in Ho.
    destruct Ho as (Hosc & Hofs & Hon & Hot & Hocl & Hop).
    eexists. split.
    + rewrite <-Hseg.
      apply downloadTask_step_failed; [done|by rewrite Hseg|done|].
      rewrite Hseg.
      apply (downloadSegment_write_failed E task s c Hc Hurl _ m resp suffix k);
        rewrite ?Hon, ?Hot, ?Hofs; done.
    + clear. cbn. unfold log.output. repeat case_match; cbn; done.
Qed.

Lemma write_error_removes_scratch_witness :
  ∃ w', downloadSegment envDiskFull exampleTask 1 exampleWorld = Ok false w'
        ∧ fs w' !! scratchName "0" = None
        ∧ fs w' = fs exampleWorld
        ∧ sched w' = sched exampleWorld.
Proof.
  apply (write_error_removes_scratch envDiskFull exampleTask defaultClient 1
           exampleWorld 0 found "0" 1);
    [reflexivity|reflexivity|lia| |reflexivity..].
  intros j Hj. lia.
Defined.

(** ** A task without an HTTP client *)

(** C9.  With a nil [Client] the accessor [client] would give
    [defaultClient], but [doRequest] calls [task.Client.Do]: every call of
    [doRequest] panics on the nil pointer before any request is sent, so does
    every call of [downloadSegment] that gets as far as its request, and so
    does every attempt of a worker. *)
Theorem nil_client_panics E task :
  Client task = None →
  client task = defaultClient
  ∧ (∀ req w,
       doRequest E task req w
       = Panicked "invalid memory address or nil pointer dereference" w)
  ∧ (∀ s w,
       url_parses E (getSegUrl E (Url task) s) = true →
       downloadSegment E task s w
       = Panicked "invalid memory address or nil pointer dereference" w)
  ∧ (∀ wk w,
       exited wk = false → seg wk ≠ (-1)%Z →
       (failCount wk < FailThreshold)%Z →
       url_parses E (getSegUrl E (Url task) (seg wk)) = true →
       ∃ w', downloadTask_step E task wk w
             = Panicked "invalid memory address or nil pointer dereference" w'
             ∧ net w' = net w ∧ sched w' = sched w).
Proof.
  intros Hnil.
  assert (Hseg : ∀ s w,
            url_parses E (getSegUrl E (Url task) s) = true →
            downloadSegment E task s w
            = Panicked "invalid memory address or nil pointer dereference" w).
  { intros s w Hurl. unfold downloadSegment, http_NewRequest. rewrite Hurl.
    unfold st_bind. by rewrite doRequest_nil. }
  split_and!.
  - unfold client. by rewrite Hnil.
  - intros req w. by apply doRequest_nil.
  - done.
  - intros wk w Hex Hs Hfc Hurl. eexists. split.
    + unfold downloadTask_step. rewrite Hex.
      rewrite decide_False by done. rewrite decide_False by lia.
      unfold st_bind, Debugf. rewrite logf_Ok by done.
      by rewrite Hseg.
    + clear. unfold log.output. by case_match.
Qed.

Lemma nil_client_panics_witness :
  client exampleTaskNoClient = defaultClient
  ∧ downloadSegment envFlaky exampleTaskNoClient 1 exampleWorld
    = Panicked "invalid memory address or nil pointer dereference" exampleWorld.
Proof.
  destruct (nil_client_panics envFlaky exampleTaskNoClient eq_refl)
    as (Hclient & _ & Hseg & _).
  split; [exact Hclient|]. apply Hseg. reflexivity.
Defined.

(** ** [Wait] without [Start] *)

(** C10.  On a task on which [Start] was never called the counter of the
    wait group is zero, so [Wait] returns at once, and what it returns is the
    zero value of [DownloadResult]: no error, no lost segment, a total of
    0. *)
Theorem Wait_without_Start c del l mergeFile m segmentDir threads url files :
  Wait (proc0 (newTask c del l mergeFile m segmentDir threads url) files)
  = Some zeroResult
  ∧ Error zeroResult = None
  ∧ LostSegments zeroResult = []
  ∧ TotalSegments zeroResult = 0%Z.
Proof. done. Qed.

(** ** A worker and the index it holds *)

Lemma downloadTask_step_idle E task wk w :
  exited wk = false → seg wk = (-1)%Z →
  downloadTask_step E task wk w
  = (do r <- NextSegment (queue wk);
     match r with
     | None => st_ret (ActWaiting, wk)
     | Some (s, ok, q) =>
         let wk' := {| threadNumber := threadNumber wk; queue := q;
                       failCount := failCount wk; seg := s;
                       exited := negb ok |} in
         if negb ok then
           exec Infof task "Thread %d done";
           st_ret (ActExited, wk')
         else if decide (s = -1)%Z then st_panic "Segment == -1"
         else st_ret (ActDispensed s, wk')
     end) w.
Proof.
  intros Hex Hseg. unfold downloadTask_step. rewrite Hex.
  by rewrite decide_True by done.
Qed.

(** C8.  A worker that holds an index and whose step returns has either
    made a failed attempt, and then it holds the same index, counts one more
    failure and has not touched the scheduler, whose queues therefore answer
    any worker as they did before; or it has reached a terminal outcome, by a
    successful attempt or by giving the index up at the threshold, and then
    the outcome is recorded for that index, its failure count is 0, it holds
    no index, and its next step is the request for the next index to its
    queue. *)
Theorem worker_holds_index E task wk w a wk' w' :
  exited wk = false → seg wk ≠ (-1)%Z →
  downloadTask_step E task wk w = Ok (a, wk') w' →
  (a = ActAttempted (seg wk) false
   ∧ seg wk' = seg wk ∧ failCount wk' = (failCount wk + 1)%Z
   ∧ exited wk' = false ∧ queue wk' = queue wk
   ∧ sched w' = sched w
   ∧ ∀ q, res_value (NextSegment q w') = res_value (NextSegment q w))
  ∨ (((a = ActAttempted (seg wk) true
       ∧ ∃ name, outcomes (sched w')
                 = <[seg wk := {| ok := true; filename := name |}]>
                     (outcomes (sched w)))
      ∨ (a = ActGaveUp (seg wk) ∧ (FailThreshold ≤ failCount wk)%Z
         ∧ outcomes (sched w')
           = <[seg wk := {| ok := false; filename := "" |}]>
               (outcomes (sched w))))
     ∧ failCount wk' = 0%Z ∧ seg wk' = (-1)%Z ∧ exited wk' = false
     ∧ queue wk' = queue wk
     ∧ ∀ w2, downloadTask_step E task wk' w2
             = (do r <- NextSegment (queue wk);
                match r with
                | None => st_ret (ActWaiting, wk')
                | Some (s, ok, q) =>
                    let wk2 := {| threadNumber := threadNumber wk; queue := q;
                                  failCount := 0; seg := s;
                                  exited := negb ok |} in
                    if negb ok then
                      exec Infof task "Thread %d done";
                      st_ret (ActExited, wk2)
                    else if decide (s = -1)%Z then st_panic "Segment == -1"
                    else st_ret (ActDispensed s, wk2)
                end) w2).
Proof.
  intros Hex Hseg Hstep.
  apply downloadTask_step_holding in Hstep; [|done..].
  destruct Hstep as [(_ & -> & -> & Hsc & _)
                    |[(_ & -> & -> & (name & body & _ & _ & Hsc) & _)
                     |(Hfc & -> & -> & Hsc & _)]].
  - left. split_and!; try done.
    intros q. by apply NextSegment_sched.
  - right. split_and!; try done.
    + left. split; [done|]. exists name. by rewrite Hsc.
    + intros w2. by rewrite downloadTask_step_idle.
  - right. split_and!; try done.
    + right. split_and!; [done|done|]. by rewrite Hsc.
    + intros w2. by rewrite downloadTask_step_idle.
Qed.

Lemma worker_holds_index_witness :
  ∃ wk' w',
    downloadTask_step envFlaky exampleTask exampleWorker exampleWorld
    = Ok (ActAttempted 1 true, wk') w'
    ∧ failCount wk' = 0%Z ∧ seg wk' = (-1)%Z
    ∧ outcomes (sched w') !! 1%Z
      = Some {| ok := true; filename := scratchName "0" |}.
Proof.
  destruct (downloadTask_step envFlaky exampleTask exampleWorker exampleWorld)
    as [[a wk'] w'| |] eqn:Hstep; [|by vm_compute in Hstep..].
  pose proof (worker_holds_index envFlaky exampleTask exampleWorker
                exampleWorld a wk' w' eq_refl ltac:(done) Hstep) as Hcases.
  assert (Ha : a = ActAttempted 1 true
               ∧ outcomes (sched w') !! 1%Z
                 = Some {| ok := true; filename := scratchName "0" |}).
  { vm_compute in Hstep. injection Hstep as <- _ <-. by vm_compute. }
  destruct Ha as [-> Hout].
  exists wk', w'. split; [done|].
  destruct Hcases as [(Hfalse & _)|(_ & Hfc & Hseg & _)]; [done|].
  by split_and!.
Defined.

(** ** [Start] and the configuration *)

Lemma Start_started p :
  started (proc_task p) = true → Start p = Ok tt p.
Proof. intros Hs. unfold Start, st_bind, st_get. by rewrite Hs. Qed.

(** [Start] on a task that is not started, with the thread count raised to
    1 when it is 0: the first empty field among URL, merge file and segment
    directory is fatal; without one the run is started. *)
Lemma Start_unfold p :
  started (proc_task p) = false →
  let p1 := if decide (Threads (proc_task p) < 1)%N
            then set_task (set_Threads 1) p else p in
  Start p
  = if decide (String.length (Url (proc_task p)) = 0)
    then log_Fatal "Empty URL" p1
    else if decide (String.length (MergeFile (proc_task p)) = 0)
    then log_Fatal "Empty MergeFile" p1
    else if decide (String.length (SegmentDir (proc_task p)) = 0)
    then log_Fatal "Empty SegmentDir" p1
    else (exec wg_Add 1;
          exec st_modify (set_task (set_started true));
          st_modify go_run) p1.
Proof.
  intros Hs. unfold Start, st_bind at 1. cbn. rewrite Hs.
  unfold st_bind at 1.
  destruct (decide (Threads (proc_task p) < 1)%N); cbn;
    repeat (unfold st_bind at 1; case_decide; cbn; [done|]); done.
Qed.

Lemma log_Fatal_fatal p p0 text :
  spawned p = spawned p0 → proc_run p = proc_run p0 →
  wg (proc_task p) = wg (proc_task p0) → started (proc_task p) = false →
  result (proc_task p) = result (proc_task p0) →
  proc_world p = proc_world p0 →
  fatalBeforeWork p0 text (log_Fatal text p).
Proof.
  intros Hsp Hrun Hwg Hst Hres Hw. eexists. split; [reflexivity|].
  unfold log.output. cbn [log.level_int]. rewrite Hw.
  case_decide as Hl.
  - rewrite (proj2 (Z.leb_le _ _) Hl). cbn. rewrite Hw. by split_and!.
  - rewrite (proj2 (Z.leb_gt _ _)) by lia. cbn. rewrite Hw. by split_and!.
Qed.

(** C4, as the code has it.  On a task that is not started, an empty URL, an
    empty merge file path or an empty segment directory is fatal, in that
    order: [Start] calls [log.Fatal] with the message of the first empty
    field, which ends the process with status 1 before any work (nothing
    requested, no file touched, no scheduler, no goroutine, wait group and
    [started] flag untouched) and which writes the message when the minimum
    level of the default logger is at most [LevelFatal].  A thread count
    below 1 is not an error: with the three strings non-empty, [Start] raises
    it to 1 and starts the run. *)
Theorem Start_config_errors p :
  started (proc_task p) = false → (0 ≤ wg (proc_task p))%Z →
  (String.length (Url (proc_task p)) = 0 →
   fatalBeforeWork p "Empty URL" (Start p))
  ∧ (String.length (Url (proc_task p)) ≠ 0 →
     String.length (MergeFile (proc_task p)) = 0 →
     fatalBeforeWork p "Empty MergeFile" (Start p))
  ∧ (String.length (Url (proc_task p)) ≠ 0 →
     String.length (MergeFile (proc_task p)) ≠ 0 →
     String.length (SegmentDir (proc_task p)) = 0 →
     fatalBeforeWork p "Empty SegmentDir" (Start p))
  ∧ (validConfig (proc_task p) →
     ∃ p', Start p = Ok tt p'
           ∧ Threads (proc_task p') = N.max 1 (Threads (proc_task p))
           ∧ started (proc_task p') = true
           ∧ wg (proc_task p') = (wg (proc_task p) + 1)%Z
           ∧ proc_run p' = Some RunSpawned
           ∧ spawned p' = S (spawned p)
           ∧ proc_world p' = proc_world p
           ∧ Url (proc_task p') = Url (proc_task p)
           ∧ MergeFile (proc_task p') = MergeFile (proc_task p)
           ∧ result (proc_task p') = result (proc_task p)).
Proof.
  intros Hst Hwg. rewrite (Start_unfold p Hst). cbn zeta.
  set (p1 := if decide (Threads (proc_task p) < 1)%N
             then set_task (set_Threads 1) p else p).
  assert (Hp1 : spawned p1 = spawned p ∧ proc_run p1 = proc_run p
                ∧ wg (proc_task p1) = wg (proc_task p)
                ∧ started (proc_task p1) = false
                ∧ result (proc_task p1) = result (proc_task p)
                ∧ proc_world p1 = proc_world p
                ∧ Url (proc_task p1) = Url (proc_task p)
                ∧ MergeFile (proc_task p1) = MergeFile (proc_task p)
                ∧ Threads (proc_task p1) = N.max 1 (Threads (proc_task p))).
  { subst p1. case_decide; cbn; split_and!; try done; lia. }
  destruct Hp1 as (Hsp & Hrun & Hwg1 & Hst1 & Hres & Hw & Hu & Hm & Hth).
  split_and!.
  - intros Hurl. rewrite decide_True by done. by apply log_Fatal_fatal.
  - intros Hurl Hmerge. rewrite decide_False, decide_True by done.
    by apply log_Fatal_fatal.
  - intros Hurl Hmerge Hdir. rewrite !decide_False, decide_True by done.
    by apply log_Fatal_fatal.
  - intros (Hurl & Hmerge & Hdir).
    rewrite !decide_False by done.
    unfold st_bind, wg_Add. rewrite decide_False by lia. cbn.
    eexists. split; [reflexivity|]. cbn.
    rewrite Hwg1, Hsp, Hw, Hu, Hm, Hres, Hth. split_and!; try done. lia.
Qed.

Lemma Start_config_errors_witness :
  fatalBeforeWork (proc0 exampleTaskNoUrl ∅) "Empty URL"
    (Start (proc0 exampleTaskNoUrl ∅))
  ∧ ∃ p', Start (proc0 exampleTaskNoThreads ∅) = Ok tt p'
          ∧ Threads (proc_task p') = 1%N
          ∧ started (proc_task p') = true
          ∧ proc_run p' = Some RunSpawned.
Proof.
  split.
  - destruct (Start_config_errors (proc0 exampleTaskNoUrl ∅) eq_refl)
      as [Hurl _]; [done|]. by apply Hurl.
  - destruct (Start_config_errors (proc0 exampleTaskNoThreads ∅) eq_refl)
      as (_ & _ & _ & Hok); [done|].
    destruct Hok as (p' & HStart & Hth & Hst & _ & Hrun & _); [done|].
    exists p'. by split_and!.
Defined.

(** C4, as the specification states it, fails twice.  A task with 0 threads
    has a configuration error in the sense of the specification, and [Start]
    does not end the process on it.  And an error that is fatal is not
    always reported: after [log.SetDefaultLevel(5)], [Start] on a task
    without a URL ends the process and writes nothing. *)
Lemma Start_not_as_specified :
  (configError exampleTaskNoThreads
   ∧ ∀ text, ¬ fatalBeforeWork (proc0 exampleTaskNoThreads ∅) text
                 (Start (proc0 exampleTaskNoThreads ∅)))
  ∧ (configError exampleTaskNoUrl
     ∧ ∃ p', Start (silencedProc exampleTaskNoUrl) = Exited 1 p'
             ∧ logged (proc_world p') = []).
Proof.
  split; split.
  - right; right. done.
  - intros text (p' & Hexit & _). vm_compute in Hexit. discriminate.
  - by left.
  - by eexists.
Qed.

(** ** The total in the result of a run *)












(** ** The merge coordinator *)

Lemma event_run_snoc l evs e s :
  event_run l (evs ++ [e]) s
  = match event_run l evs s with
    | Some s' => event_step l e s'
    | None => None
    end.
Proof.
  revert s. induction evs as [|e' evs IH]; intros s; cbn.
  - by destruct (event_step l e s).
  - destruct (event_step l e' s); [apply IH|done].
Qed.

Lemma stored_app evs evs' i :
  stored (evs ++ evs') !! i
  = match stored evs !! i with
    | Some c => Some c
    | None => stored evs' !! i
    end.
Proof.
  induction evs as [|e evs IH]; cbn.
  - by rewrite lookup_empty.
  - destruct e; try done.
    destruct (decide (i0 = i)) as [->|Hne].
    + by rewrite !lookup_insert_eq.
    + by rewrite !lookup_insert_ne.
Qed.

Lemma lost_app evs evs' : lost (evs ++ evs') = lost evs ∪ lost evs'.
Proof.
  induction evs as [|e evs IH]; cbn.
  - by rewrite (left_id_L ∅ (∪)).
  - destruct e; try done. rewrite IH. by rewrite (assoc_L (∪)).
Qed.

Lemma concat_stored_ext evs evs' n :
  (∀ j, (0 ≤ j < n)%Z → stored evs !! j = stored evs' !! j) →
  concat_stored evs n = concat_stored evs' n.
Proof.
  intros Hext. unfold concat_stored. f_equal. apply list_fmap_ext.
  intros k j Hj. apply lookup_seqZ in Hj as [-> Hk].
  rewrite Hext by lia. done.
Qed.

Lemma concat_stored_succ evs n :
  (0 ≤ n)%Z →
  concat_stored evs (n + 1)
  = concat_stored evs n ++ default [] (stored evs !! n).
Proof.
  intros Hn. unfold concat_stored.
  rewrite seqZ_app by lia. rewrite fmap_app, join_app, Z.add_0_l.
  rewrite (seqZ_cons n 1) by lia. rewrite (seqZ_nil _ (Z.pred 1)) by lia.
  cbn. by rewrite (right_id_L [] (++)).
Qed.

Lemma filter_ext_elem {A} (P Q : A → Prop)
    `{!∀ x, Decision (P x), !∀ x, Decision (Q x)} (l : list A) :
  (∀ x, x ∈ l → P x ↔ Q x) → filter P l = filter Q l.
Proof.
  induction l as [|a l IH]; intros Hext; [done|].
  rewrite !filter_cons.
  rewrite IH by (intros x Hx; apply Hext; by apply list_elem_of_further).
  pose proof (Hext a (list_elem_of_here _ _)) as Ha.
  destruct (decide (P a)), (decide (Q a)); first [done|exfalso; tauto].
Qed.

Lemma lost_below_ext evs evs' n :
  (∀ j, (0 ≤ j < n)%Z → j ∈ lost evs ↔ j ∈ lost evs') →
  lost_below evs n = lost_below evs' n.
Proof.
  intros Hext. unfold lost_below. apply filter_ext_elem.
  intros j Hj. apply elem_of_seqZ in Hj. apply Hext. lia.
Qed.

Lemma lost_below_succ evs n :
  (0 ≤ n)%Z →
  lost_below evs (n + 1)
  = lost_below evs n ++ (if decide (n ∈ lost evs) then [n] else []).
Proof.
  intros Hn. unfold lost_below.
  rewrite seqZ_app by lia. rewrite filter_app, Z.add_0_l.
  rewrite (seqZ_cons n 1) by lia. rewrite (seqZ_nil _ (Z.pred 1)) by lia.
  rewrite filter_cons. by destruct (decide (n ∈ lost evs)).
Qed.

Lemma stored_snoc_store evs i name content :
  stored evs !! i = None →
  stored (evs ++ [EvStore i name content]) = <[i := content]> (stored evs).
Proof.
  intros Hi. apply map_eq. intros j. rewrite stored_app. cbn.
  destruct (decide (i = j)) as [->|Hne].
  - by rewrite Hi, !lookup_insert_eq.
  - rewrite !lookup_insert_ne by done. rewrite lookup_empty.
    by destruct (stored evs !! j).
Qed.

Lemma stored_snoc_other evs e :
  (∀ i name content, e ≠ EvStore i name content) →
  stored (evs ++ [e]) = stored evs.
Proof.
  intros He. apply map_eq. intros j. rewrite stored_app.
  destruct e; try (cbn; rewrite lookup_empty; by destruct (stored evs !! j)).
  by destruct (He i name content).
Qed.

Lemma lost_snoc_lose evs i : lost (evs ++ [EvLose i]) = lost evs ∪ {[i]}.
Proof. rewrite lost_app. cbn. by rewrite (right_id_L ∅ (∪)). Qed.

Lemma lost_snoc_other evs e :
  (∀ i, e ≠ EvLose i) → lost (evs ++ [e]) = lost evs.
Proof.
  intros He. rewrite lost_app.
  destruct e; try (cbn; by rewrite (right_id_L ∅ (∪))).
  by destruct (He i).
Qed.

Lemma concat_stored_snoc evs e n :
  (∀ j, (0 ≤ j < n)%Z → stored (evs ++ [e]) !! j = stored evs !! j) →
  concat_stored (evs ++ [e]) n = concat_stored evs n.
Proof. apply concat_stored_ext. Qed.

Lemma merge_start_inv files m n known total file :
  (0 ≤ total)%Z →
  merge_inv [] (merge_start files (freshStatus m n known total) file).
Proof.
  intros Htotal. unfold merge_inv, merge_start; cbn.
  split_and!; try done.
  - intros i [r Hr]. by rewrite lookup_empty in Hr.
  - intros i Hi. lia.
  - by rewrite lookup_insert_eq.
Qed.

Lemma merge_inv_store evs w mt i name content :
  merge_inv evs (w, mt) →
  recordable i w → fs w !! name = None →
  merge_inv (evs ++ [EvStore i name content])
    (res_state (downloaded i {| ok := true; filename := name |}
                  (set_fs <[name := content]> w)), mt).
Proof.
  intros Hinv [Hi Hnew] Hname.
  destruct Hinv as (Hf & Hrange & Hpassed & Hout & Hlost & Hsucc & Hfail
                    & Hnone & Hinj & Hfin).
  cbn [fst snd] in *.
  destruct (Hnone i Hnew) as [Hsi Hli].
  assert (Hfi : (highestMergedContiguous (sched w) ≤ i)%Z).
  { destruct (decide (highestMergedContiguous (sched w) ≤ i)%Z); [done|].
    destruct (Hpassed i) as [r Hr]; [lia|]. congruence. }
  assert (Hmf : name ≠ mergeFile mt) by congruence.
  unfold merge_inv. cbn [fst snd]. cbn.
  rewrite (stored_snoc_store _ _ _ _ Hsi).
  rewrite (lost_snoc_other evs (EvStore i name content)) by done.
  split_and!.
  - lia.
  - lia.
  - intros j [r Hr]. destruct (decide (i = j)) as [<-|Hne]; [lia|].
    rewrite lookup_insert_ne in Hr by done. by apply Hrange.
  - intros j Hj. destruct (decide (i = j)) as [<-|Hne]; [lia|].
    rewrite lookup_insert_ne by done. by apply Hpassed.
  - rewrite lookup_insert_ne by done. rewrite Hout. f_equal.
    apply concat_stored_ext. intros j Hj.
    rewrite stored_snoc_store by done. rewrite lookup_insert_ne by lia. done.
  - rewrite Hlost. apply lost_below_ext. intros j Hj.
    by rewrite (lost_snoc_other evs (EvStore i name content)).
  - intros j r Hr Hok. destruct (decide (i = j)) as [<-|Hne].
    + rewrite lookup_insert_eq in Hr. injection Hr as <-. cbn.
      split; [done|]. exists content. rewrite !lookup_insert_eq. done.
    + rewrite lookup_insert_ne in Hr by done.
      destruct (Hsucc j r Hr Hok) as (Hl & c & Hc & Hfile).
      split; [done|]. exists c. rewrite lookup_insert_ne by done.
      split; [done|]. intros Hfj. destruct (Hfile Hfj) as [Hfs Hnm].
      split; [|done]. rewrite lookup_insert_ne; [done|congruence].
  - intros j r Hr Hok. destruct (decide (i = j)) as [<-|Hne].
    + rewrite lookup_insert_eq in Hr. by injection Hr as <-.
    + rewrite lookup_insert_ne in Hr by done. rewrite lookup_insert_ne by done.
      by apply Hfail with r.
  - intros j Hj. destruct (decide (i = j)) as [<-|Hne].
    + by rewrite lookup_insert_eq in Hj.
    + rewrite lookup_insert_ne in Hj by done. rewrite lookup_insert_ne by done.
      by apply Hnone.
  - intros j1 j2 r1 r2 Hf1 Hf2 Hr1 Hr2 Hok1 Hok2 Hnm.
    destruct (decide (i = j1)) as [<-|Hne1]; destruct (decide (i = j2)) as [<-|Hne2];
      [done| | |].
    + rewrite lookup_insert_eq in Hr1. injection Hr1 as <-. cbn in Hnm.
      rewrite lookup_insert_ne in Hr2 by done.
      destruct (Hsucc j2 r2 Hr2 Hok2) as (_ & c & _ & Hfile).
      destruct (Hfile Hf2) as [Hfs _]. congruence.
    + rewrite lookup_insert_eq in Hr2. injection Hr2 as <-. cbn in Hnm.
      rewrite lookup_insert_ne in Hr1 by done.
      destruct (Hsucc j1 r1 Hr1 Hok1) as (_ & c & _ & Hfile).
      destruct (Hfile Hf1) as [Hfs _]. congruence.
    + rewrite lookup_insert_ne in Hr1, Hr2 by done. by eapply Hinj.
  - intros Hfinished. destruct (Hfin Hfinished) as [Hk He]. lia.
Qed.

Lemma merge_inv_lose evs w mt i :
  merge_inv evs (w, mt) →
  recordable i w →
  merge_inv (evs ++ [EvLose i])
    (res_state (downloaded i {| ok := false; filename := "" |} w), mt).
Proof.
  intros Hinv [Hi Hnew].
  destruct Hinv as (Hf & Hrange & Hpassed & Hout & Hlost & Hsucc & Hfail
                    & Hnone & Hinj & Hfin).
  cbn [fst snd] in *.
  destruct (Hnone i Hnew) as [Hsi Hli].
  assert (Hfi : (highestMergedContiguous (sched w) ≤ i)%Z).
  { destruct (decide (highestMergedContiguous (sched w) ≤ i)%Z); [done|].
    destruct (Hpassed i) as [r Hr]; [lia|]. congruence. }
  unfold merge_inv. cbn [fst snd]. cbn.
  rewrite (stored_snoc_other evs (EvLose i)) by done.
  rewrite lost_snoc_lose.
  split_and!.
  - lia.
  - lia.
  - intros j [r Hr]. destruct (decide (i = j)) as [<-|Hne]; [lia|].
    rewrite lookup_insert_ne in Hr by done. by apply Hrange.
  - intros j Hj. destruct (decide (i = j)) as [<-|Hne]; [lia|].
    rewrite lookup_insert_ne by done. by apply Hpassed.
  - rewrite Hout. f_equal. apply concat_stored_ext. intros j Hj.
    by rewrite (stored_snoc_other evs (EvLose i)).
  - rewrite Hlost. apply lost_below_ext. intros j Hj.
    rewrite lost_snoc_lose, elem_of_union, elem_of_singleton.
    split; [tauto|]. intros [?|?]; [done|lia].
  - intros j r Hr Hok. destruct (decide (i = j)) as [<-|Hne].
    + rewrite lookup_insert_eq in Hr. by injection Hr as <-.
    + rewrite lookup_insert_ne in Hr by done.
      destruct (Hsucc j r Hr Hok) as (Hl & c & Hc & Hfile).
      split; [|by exists c].
      rewrite elem_of_union, elem_of_singleton. intros [?|?]; done.
  - intros j r Hr Hok. destruct (decide (i = j)) as [<-|Hne].
    + split; [done|]. rewrite elem_of_union, elem_of_singleton. by right.
    + rewrite lookup_insert_ne in Hr by done.
      destruct (Hfail j r Hr Hok). split; [done|].
      rewrite elem_of_union. by left.
  - intros j Hj. destruct (decide (i = j)) as [<-|Hne].
    + by rewrite lookup_insert_eq in Hj.
    + rewrite lookup_insert_ne in Hj by done.
      destruct (Hnone j Hj). split; [done|].
      rewrite elem_of_union, elem_of_singleton. intros [?|?]; done.
  - intros j1 j2 r1 r2 Hf1 Hf2 Hr1 Hr2 Hok1 Hok2 Hnm.
    destruct (decide (i = j1)) as [<-|Hne1].
    { rewrite lookup_insert_eq in Hr1. by injection Hr1 as <-. }
    destruct (decide (i = j2)) as [<-|Hne2].
    { rewrite lookup_insert_eq in Hr2. by injection Hr2 as <-. }
    rewrite lookup_insert_ne in Hr1, Hr2 by done. by eapply Hinj.
  - intros Hfinished. destruct (Hfin Hfinished) as [Hk He]. lia.
Qed.

Lemma merge_inv_origin evs e w mt st' :
  merge_inv evs (w, mt) →
  (∀ i name content, e ≠ EvStore i name content) → (∀ i, e ≠ EvLose i) →
  outcomes st' = outcomes (sched w) →
  highestMergedContiguous st' = highestMergedContiguous (sched w) →
  (end_ (sched w) ≤ end_ st')%Z →
  (finished mt = true → totalKnown st' = true ∧ end_ st' = end_ (sched w)) →
  merge_inv (evs ++ [e]) (set_sched (λ _, st') w, mt).
Proof.
  intros Hinv Hns Hnl Ho Hfr He Hfinished.
  destruct Hinv as (Hf & Hrange & Hpassed & Hout & Hlost & Hsucc & Hfail
                    & Hnone & Hinj & Hfin).
  cbn [fst snd] in *.
  unfold merge_inv. cbn [fst snd]. cbn.
  rewrite (stored_snoc_other evs e) by done.
  rewrite (lost_snoc_other evs e) by done.
  rewrite Ho, Hfr.
  split_and!; try done.
  - lia.
  - lia.
  - intros j Hj. specialize (Hrange j Hj). lia.
  - rewrite Hout. f_equal. apply concat_stored_ext. intros j Hj.
    by rewrite (stored_snoc_other evs e).
  - rewrite Hlost. apply lost_below_ext. intros j Hj.
    by rewrite (lost_snoc_other evs e).
  - intros Hfd. destruct (Hfinished Hfd) as [Hk Hend].
    destruct (Hfin Hfd) as [_ Hfe]. split; [done|congruence].
Qed.

Lemma merge_inv_merge l evs w mt :
  merge_inv evs (w, mt) →
  ∃ r w', mergeTask_step l mt w = Ok r w'
          ∧ merge_inv (evs ++ [EvMerge]) (w', r.2).
Proof.
  intros Hinv.
  assert (Hsame : merge_inv (evs ++ [EvMerge]) (w, mt)).
  { pose proof (merge_inv_origin evs EvMerge w mt (sched w) Hinv) as Ho.
    assert (Hk : finished mt = true → totalKnown (sched w) = true).
    { intros Hfd. by apply Hinv. }
    destruct w. apply Ho; try done. intros Hfd. split; [by apply Hk|done]. }
  destruct Hinv as (Hf & Hrange & Hpassed & Hout & Hlost & Hsucc & Hfail
                    & Hnone & Hinj & Hfin).
  cbn [fst snd] in *.
  unfold mergeTask_step.
  destruct (finished mt) eqn:Hfd.
  { eexists _, _. split; [done|]. done. }
  set (f := highestMergedContiguous (sched w)) in *.
  destruct (outcomes (sched w) !! f) as [r|] eqn:Hr.
  - assert (Hfe : (f < end_ (sched w))%Z).
    { destruct (Hrange f); [by eexists|done]. }
    destruct (ok r) eqn:Hok.
    + destruct (Hsucc f r Hr Hok) as (Hl & content & Hc & Hfile).
      destruct Hfile as [Hfs Hnm]; [lia|].
      rewrite Hfs, Hout. eexists _, _. split; [done|].
      unfold merge_inv. cbn [fst snd]. cbn.
      rewrite (stored_snoc_other evs EvMerge) by done.
      rewrite (lost_snoc_other evs EvMerge) by done.
      fold f. split_and!.
      * lia.
      * lia.
      * done.
      * intros j Hj. destruct (decide (j = f)) as [->|Hne]; [by eexists|].
        apply Hpassed. lia.
      * rewrite lookup_delete_ne by done. rewrite lookup_insert_eq.
        f_equal. rewrite concat_stored_succ by lia.
        rewrite (stored_snoc_other evs EvMerge) by done. rewrite Hc. cbn.
        f_equal. apply concat_stored_ext. intros j Hj.
        by rewrite (stored_snoc_other evs EvMerge).
      * rewrite Hlost. rewrite lost_below_succ by lia.
        rewrite (lost_snoc_other evs EvMerge) by done.
        rewrite decide_False by done. rewrite (right_id_L [] (++)).
        apply lost_below_ext. intros j Hj.
        by rewrite (lost_snoc_other evs EvMerge).
      * intros j rj Hrj Hokj.
        destruct (Hsucc j rj Hrj Hokj) as (Hlj & c & Hcj & Hfilej).
        split; [done|]. exists c. split; [done|]. intros Hfj.
        destruct Hfilej as [Hfsj Hnmj]; [lia|]. split; [|done].
        rewrite lookup_delete_ne.
        -- by rewrite lookup_insert_ne.
        -- intros Heq. assert (f = j) by (eapply (Hinj f j); try done; lia). lia.
      * done.
      * done.
      * intros j1 j2 r1 r2 Hf1 Hf2. apply Hinj; lia.
      * by rewrite Hfd.
    + destruct (Hfail f r Hr Hok) as [Hc Hl].
      eexists _, _. split; [done|].
      unfold merge_inv. cbn [fst snd]. cbn.
      rewrite (stored_snoc_other evs EvMerge) by done.
      rewrite (lost_snoc_other evs EvMerge) by done.
      fold f. split_and!.
      * lia.
      * lia.
      * done.
      * intros j Hj. destruct (decide (j = f)) as [->|Hne]; [by eexists|].
        apply Hpassed. lia.
      * rewrite Hout. f_equal. rewrite concat_stored_succ by lia.
        rewrite (stored_snoc_other evs EvMerge) by done. rewrite Hc. cbn.
        rewrite (right_id_L [] (++)).
        apply concat_stored_ext. intros j Hj.
        by rewrite (stored_snoc_other evs EvMerge).
      * rewrite Hlost. rewrite lost_below_succ by lia.
        rewrite (lost_snoc_other evs EvMerge) by done.
        rewrite decide_True by done. f_equal.
        apply lost_below_ext. intros j Hj.
        by rewrite (lost_snoc_other evs EvMerge).
      * intros j rj Hrj Hokj.
        destruct (Hsucc j rj Hrj Hokj) as (Hlj & c & Hcj & Hfilej).
        split; [done|]. exists c. split; [done|]. intros Hfj.
        apply Hfilej. lia.
      * done.
      * done.
      * intros j1 j2 r1 r2 Hf1 Hf2. apply Hinj; lia.
      * by rewrite Hfd.
  - destruct (totalKnown (sched w) && bool_decide (end_ (sched w) ≤ f)%Z) eqn:Hend.
    + apply andb_prop in Hend as [Hk He]. apply bool_decide_eq_true in He.
      eexists _, _. split; [done|].
      destruct Hsame as (Hf' & Hrange' & Hpassed' & Hout' & Hlost' & Hsucc'
                         & Hfail' & Hnone' & Hinj' & Hfin').
      cbn [fst snd] in *.
      unfold merge_inv. cbn [fst snd]. split_and!; try done; try lia.
      intros _. fold f. split; [done|lia].
    + eexists _, _. split; [done|]. done.
Qed.

Lemma event_step_inv l evs e s s' :
  merge_inv evs s → event_step l e s = Some s' →
  merge_inv (evs ++ [e]) s'.
Proof.
  destruct s as [w mt]. intros Hinv. unfold event_step.
  destruct e as [i name content|i|n| |].
  - case_decide as Hd; [|done]. destruct Hd as [Hrec Hnew].
    intros [= <-]. by apply merge_inv_store.
  - case_decide as Hd; [|done]. intros [= <-]. by apply merge_inv_lose.
  - intros [= <-]. unfold extendTotal, st_modify, res_state.
    apply (merge_inv_origin evs (EvExtend n) w mt
             (if negb (totalKnown (sched w))
                 && bool_decide (end_ (sched w) < n)%Z
              then set_end n (sched w) else sched w)); try done.
    + by case_match.
    + by case_match.
    + case_match eqn:Hg; cbn; [|lia].
      apply andb_prop in Hg as [_ Hlt]. apply bool_decide_eq_true in Hlt. lia.
    + intros Hfd. assert (Hk : totalKnown (sched w) = true) by by apply Hinv.
      by rewrite Hk.
  - intros [= <-]. unfold finalizeTotal, st_modify, res_state.
    apply (merge_inv_origin evs EvFinal w mt (set_totalKnown true (sched w)));
      try done.
  - destruct (merge_inv_merge l evs w mt Hinv) as (r & w' & -> & Hinv').
    by intros [= <-].
Qed.

Lemma event_run_inv l evs s0 s :
  merge_inv [] s0 → event_run l evs s0 = Some s → merge_inv evs s.
Proof.
  intros Hinit. revert s. induction evs as [|e evs IH] using rev_ind; intros s.
  - by intros [= <-].
  - rewrite event_run_snoc.
    destruct (event_run l evs s0) as [s1|]; [|done].
    intros Hstep. eapply event_step_inv; [by apply IH|done].
Qed.

Lemma event_step_frontier l e s s' :
  event_step l e s = Some s' →
  frontier s' = frontier s
  ∨ (e = EvMerge ∧ frontier s' = (frontier s + 1)%Z
     ∧ is_Some (outcomes (sched s.1) !! frontier s)).
Proof.
  destruct s as [w mt]. unfold event_step, frontier.
  destruct e as [i name content|i|n| |].
  - case_decide; [|done]. intros [= <-]. by left.
  - case_decide; [|done]. intros [= <-]. by left.
  - intros [= <-]. left. cbn. by case_match.
  - intros [= <-]. by left.
  - unfold mergeTask_step. cbn [fst snd].
    destruct (finished mt); [intros [= <-]; by left|].
    destruct (outcomes (sched w) !! highestMergedContiguous (sched w))
      as [r|] eqn:Hr.
    + destruct (ok r).
      * repeat case_match; try done. simplify_eq. intros [= <-]. right.
        split_and!; [done|done|by eexists].
      * intros [= <-]. right. split_and!; [done|done|by eexists].
    + destruct (totalKnown (sched w) && _); intros [= <-]; by left.
Qed.

Lemma event_step_mergeFile l e s s' :
  event_step l e s = Some s' → mergeFile s'.2 = mergeFile s.2.
Proof.
  destruct s as [w mt]. unfold event_step.
  destruct e as [i name content|i|n| |].
  - case_decide; [|done]. by intros [= <-].
  - case_decide; [|done]. by intros [= <-].
  - by intros [= <-].
  - by intros [= <-].
  - destruct (mergeTask_step l mt w) as [r w'| |] eqn:Hstep; [|done..].
    intros [= <-]. cbn. unfold mergeTask_step in Hstep.
    repeat case_match; simplify_eq; done.
Qed.

Lemma event_run_mergeFile l evs s s' :
  event_run l evs s = Some s' → mergeFile s'.2 = mergeFile s.2.
Proof.
  revert s. induction evs as [|e evs IH]; intros s; cbn.
  - by intros [= <-].
  - destruct (event_step l e s) as [s1|] eqn:Hstep; [|done].
    intros Hrun. rewrite (IH _ Hrun). by eapply event_step_mergeFile.
Qed.

(** C1 (the merge coordinator is modelled from the specification).  For every
    run of the merge coordinator against outcomes recorded under the
    scheduler's contract: every index below the frontier has a terminal
    outcome; an event leaves the frontier where it is or is a merge round
    that moves it by exactly one, over an index that already has its
    outcome, so that the frontier passes the indices one by one in ascending
    order; the output file holds the concatenation, in ascending index
    order, of the contents stored for the indices below the frontier, the
    lost ones contributing nothing and being listed in [notMerged]; a merge
    round never fails.  When the coordinator has terminated the frontier is
    the final total, every index below it has an outcome, every stored or
    lost index is below it, and the output file is the concatenation over
    all indices. *)
Theorem merge_in_index_order l files m n known total file evs s :
  (0 ≤ total)%Z →
  event_run l evs (merge_start files (freshStatus m n known total) file)
  = Some s →
  (∀ i, (0 ≤ i < frontier s)%Z → is_Some (outcomes (sched s.1) !! i))
  ∧ (∀ e s', event_step l e s = Some s' →
       frontier s' = frontier s
       ∨ (e = EvMerge ∧ frontier s' = (frontier s + 1)%Z
          ∧ is_Some (outcomes (sched s.1) !! frontier s)))
  ∧ fs s.1 !! file = Some (concat_stored evs (frontier s))
  ∧ notMerged s.2 = lost_below evs (frontier s)
  ∧ (∃ r w', mergeTask_step l s.2 s.1 = Ok r w')
  ∧ (finished s.2 = true →
     frontier s = end_ (sched s.1)
     ∧ (∀ i, (0 ≤ i < end_ (sched s.1))%Z →
             is_Some (outcomes (sched s.1) !! i))
     ∧ (∀ i, is_Some (stored evs !! i) ∨ i ∈ lost evs →
             (0 ≤ i < end_ (sched s.1))%Z)
     ∧ fs s.1 !! file = Some (concat_stored evs (end_ (sched s.1)))
     ∧ notMerged s.2 = lost_below evs (end_ (sched s.1))).
Proof.
  intros Htotal Hrun.
  pose proof (event_run_mergeFile _ _ _ _ Hrun) as Hfile. cbn in Hfile.
  pose proof (event_run_inv _ _ _ _
                (merge_start_inv files m n known total file Htotal) Hrun)
    as Hinv.
  destruct (merge_inv_merge l evs s.1 s.2) as (r & w' & Hstep & _).
  { by destruct s. }
  destruct Hinv as (Hf & Hrange & Hpassed & Hout & Hlost & Hsucc & Hfail
                    & Hnone & Hinj & Hfin).
  rewrite Hfile in Hout. unfold frontier.
  split_and!; try done.
  - intros e s'. apply event_step_frontier.
  - by exists r, w'.
  - intros Hfd. destruct (Hfin Hfd) as [Hk He]. rewrite <-He.
    split_and!; try done.
    intros i Hi. rewrite He. apply Hrange.
    destruct (outcomes (sched s.1) !! i) eqn:Ho; [done|].
    destruct (Hnone i Ho) as [Hs Hl]. rewrite Hs in Hi.
    destruct Hi as [[? ?]|?]; done.
Qed.

Lemma merge_in_index_order_witness :
  ∃ s, event_run log_DefaultLogger mergeEvents
         (merge_start ∅ (freshStatus QueueSequential 2 true 3) "out.ts")
       = Some s
       ∧ finished s.2 = true
       ∧ fs s.1 !! "out.ts" = Some (concat_stored mergeEvents 3)
       ∧ concat_stored mergeEvents 3 = [x61; x63]
       ∧ notMerged s.2 = [1%Z].
Proof.
  destruct (event_run log_DefaultLogger mergeEvents
              (merge_start ∅ (freshStatus QueueSequential 2 true 3) "out.ts"))
    as [s|] eqn:Hrun; [|by vm_compute in Hrun].
  exists s. split; [done|].
  destruct (merge_in_index_order log_DefaultLogger ∅ QueueSequential 2 true 3
              "out.ts" mergeEvents s ltac:(done) Hrun)
    as (_ & _ & _ & _ & _ & Hfin).
  assert (Hs : finished s.2 = true ∧ end_ (sched s.1) = 3%Z).
  { vm_compute in Hrun. injection Hrun as <-. by vm_compute. }
  destruct Hs as [Hfd Hend]. destruct (Hfin Hfd) as (_ & _ & _ & Hout & Hlost).
  rewrite Hend in Hout, Hlost. split_and!; [done|done|by vm_compute|].
  rewrite Hlost. by vm_compute.
Defined.

(** ** What a worker records is an event of the merge coordinator *)

(** The step of a worker that holds an index either leaves the scheduler and
    the files as they are (a failed attempt), or acts on them as the event
    [EvStore] (a successful attempt, with the new scratch file) or [EvLose]
    (the abandonment) of its index. *)
Lemma downloadTask_step_event E task l wk w a wk' w' mt :
  exited wk = false → seg wk ≠ (-1)%Z → recordable (seg wk) w →
  downloadTask_step E task wk w = Ok (a, wk') w' →
  (sched w' = sched w ∧ fs w' = fs w)
  ∨ ∃ e s',
      (e = EvLose (seg wk) ∨ ∃ name body, e = EvStore (seg wk) name body)
      ∧ event_step l e (w, mt) = Some s'
      ∧ sched s'.1 = sched w' ∧ fs s'.1 = fs w' ∧ s'.2 = mt.
Proof.
  intros Hex Hseg Hrec Hstep.
  apply downloadTask_step_holding in Hstep; [|done..].
  destruct Hstep as [(_ & _ & _ & Hsc & Hfs & _)
                    |[(_ & _ & _ & (name & body & Hnew & Hfs & Hsc) & _)
                     |(_ & _ & _ & Hsc & Hfs & _)]].
  - by left.
  - right. eexists (EvStore (seg wk) name body), _. split_and!.
    + right. by eexists _, _.
    + cbn. by rewrite decide_True by done.
    + by rewrite Hsc.
    + by rewrite Hfs.
    + done.
  - right. eexists (EvLose (seg wk)), _. split_and!.
    + by left.
    + cbn. by rewrite decide_True by done.
    + by rewrite Hsc.
    + by rewrite Hfs.
    + done.
Qed.

(** ** A run can come to its end *)












(** ** The schedule, turn by turn *)








(** ** From one worker to the next *)





(** ** A run that comes to its end *)

Lemma Start_newTask c del l mergeFile m segmentDir threads url files :
  validConfig (newTask c del l mergeFile m segmentDir threads url) →
  Start (proc0 (newTask c del l mergeFile m segmentDir threads url) files)
  = Ok tt
      {| proc_task :=
           {| Client := c; DeleteSegments := del; Logger := l;
              MergeFile := mergeFile; QueueMode_ := m;
              SegmentDir := segmentDir; Threads := N.max 1 threads;
              Url := url; wg := 1; result := zeroResult; started := true |};
         proc_world := world0 files;
         proc_run := Some RunSpawned;
         spawned := 1 |}.
Proof.
  intros (Hurl & Hmerge & Hdir). rewrite Start_unfold by done. cbn in *.
  rewrite !decide_False by done.
  destruct (decide (threads < 1)%N); unfold st_bind, wg_Add; cbn;
    rewrite decide_False by lia;
    unfold st_modify, go_run, set_task, set_started, set_wg, set_Threads,
      proc0, newTask; cbn; do 3 f_equal; lia.
Qed.

Lemma threadNumbers_lookup n k tn :
  threadNumbers n !! k = Some tn → tn = N.of_nat k ∧ k < N.to_nat n.
Proof.
  unfold threadNumbers. rewrite list_lookup_fmap.
  destruct (seq 0 (N.to_nat n) !! k) as [k'|] eqn:Hk; [|done].
  apply lookup_seq in Hk as [-> ?]. by intros [= <-].
Qed.

Lemma threadNumbers_length n : length (threadNumbers n) = N.to_nat n.
Proof. unfold threadNumbers. by rewrite length_fmap, length_seq. Qed.


(** ** The pool, whatever the schedule *)












(** ** How far the pool is from its end *)



(** ** One step of a worker of the pool *)




(** ** One round of the merge task beside the pool *)






(** ** The pool at the start of a run *)


Lemma set_world_id p : set_world (λ _, proc_world p) p = p.
Proof. by destruct p. Qed.


(** ** The run, whatever the schedule *)

Section Schedules.

Variable E : Env.
Variable files : gmap string bytes.
Variable p1 : Proc.

Hypothesis Hrun1 : proc_run p1 = Some RunSpawned.
Hypothesis Hworld1 : proc_world p1 = world0 files.
Hypothesis Hwg1 : wg (proc_task p1) = 1%Z.
Hypothesis Hthreads1 : (1 ≤ Threads (proc_task p1))%N.
Hypothesis Htotal1 :
  ∀ known total,
    discover E (Url (proc_task p1)) = Discovered known total → (0 ≤ total)%Z.




(** ** A run of a task with a client, under a fair schedule *)

Variable c : http_Client.

Hypothesis Hclient1 : Client (proc_task p1) = Some c.
Hypothesis Hparse1 :
  ∀ s, url_parses E (getSegUrl E (Url (proc_task p1)) s) = true.





End Schedules.

(** ** A run in which no attempt returns *)


Section Stuck.

Variable E : Env.
Variable p1 : Proc.

Hypothesis Hrun1 : proc_run p1 = Some RunSpawned.
Hypothesis Hwg1 : wg (proc_task p1) = 1%Z.
Hypothesis Hstuck1 :
  Client (proc_task p1) = None
  ∨ (∀ s, url_parses E (getSegUrl E (Url (proc_task p1)) s) = false).
Hypothesis Hdisc1 :
  ∃ known total,
    discover E (Url (proc_task p1)) = Discovered known total ∧ (1 ≤ total)%Z.



End Stuck.


(** ** The result of [Wait] *)




(** * Further properties of [download.go] *)

(** ** The requests of one attempt *)

Lemma doRequest_requests E task c req w :
  Client task = Some c →
  ∃ r w' n, doRequest E task req w = Ok r w'
            ∧ net w' = replicate n req ++ net w ∧ 1 ≤ n ≤ 3
            ∧ sched w' = sched w ∧ fs w' = fs w ∧ ntmp w' = ntmp w
            ∧ clock w' = clock w ∧ logged w' = logged w
            ∧ progress w' = progress w
            ∧ r = (first_reply E 3 (length (net w)) req).2
            ∧ n = (first_reply E 3 (length (net w)) req).1.
Proof.
  intros Hc. rewrite (doRequest_spec E task req c w Hc).
  eexists _, _, _. split; [done|].
  pose proof (first_reply_tries E (length (net w)) req).
  split_and!; (done || lia).
Qed.

Lemma downloadSegment_requests E task c s w b w' :
  Client task = Some c →
  downloadSegment E task s w = Ok b w' →
  ∃ m k, net w' = replicate k (probeRequest task)
                  ++ replicate m (segmentRequest E task s) ++ net w
         ∧ 1 ≤ m ≤ 3 ∧ k ≤ 3 ∧ (b = true → k = 0).
Proof.
  intros Hc. unfold downloadSegment, http_NewRequest.
  destruct (url_parses E (getSegUrl E (Url task) s)); [|done].
  unfold st_bind at 1.
  destruct (doRequest_requests E task c
              (Header_Set "User-Agent" userAgent
                 {| Method := "GET"; URL := getSegUrl E (Url task) s;
                    Header := [] |}) w Hc)
    as (r & w1 & m & -> & Hnet & Hm & _).
  change (Header_Set _ _ _) with (segmentRequest E task s) in Hnet.
  destruct r as [resp|].
  - case_decide as Hst.
    + unfold st_bind at 1. unfold Debugf. rewrite logf_Ok by done.
      pose proof (output_frame (logger task) log.LevelDebug
                    "Non-200 status code %d for segment %d" w1) as Ho.
      cbn in Ho. set (w2 := log.output _ _ _ _ w1) in *.
      destruct (url_parses E (Url task)).
      * unfold st_bind.
        destruct (doRequest_requests E task c
                    {| Method := "GET"; URL := Url task; Header := [] |} w2 Hc)
          as (r2 & w3 & k & -> & Hnet3 & Hk & _).
        intros [= <- <-]. exists m, k. destruct_and!.
        split_and!; [|lia..|done]. unfold probeRequest. congruence.
      * intros [= <- <-]. exists m, 0. destruct_and!.
        split_and!; [|lia..|done]. cbn. congruence.
    + unfold st_bind at 1. unfold ioutil_TempFile.
      destruct (tempfile E (ntmp w1)) as [suffix|]; cbn.
      * destruct (fs w1 !! _) eqn:Hnew; cbn.
        -- intros [= <- <-]. exists m, 0. unfold log.output.
           split_and!; [|lia..|done]. by case_match.
        -- unfold st_bind, io_Copy; cbn.
           destruct (copy_fault E _); cbn.
           ++ intros [= <- <-]. exists m, 0. unfold log.output.
              split_and!; [|lia..|done]. by case_match.
           ++ intros [= <- <-]. exists m, 0. by split_and!; [|lia..|].
      * intros [= <- <-]. exists m, 0. unfold log.output.
        split_and!; [|lia..|done]. by case_match.
  - unfold st_bind, Debugf. rewrite logf_Ok by done. intros [= <- <-].
    exists m, 0. unfold log.output. split_and!; [|lia..|done]. by case_match.
Qed.

(** X1.  One call of [downloadSegment] that returns has sent between one and
    three requests for the segment and, after them, at most three probes to
    the base URL, none when it succeeded: never more than six requests.  The
    segment requests carry the User-Agent header, the probe carries no
    header. *)
Theorem attempt_request_bound E task c s w b w' :
  Client task = Some c →
  downloadSegment E task s w = Ok b w' →
  ∃ m k, net w' = replicate k (probeRequest task)
                  ++ replicate m (segmentRequest E task s) ++ net w
         ∧ 1 ≤ m ≤ 3 ∧ k ≤ 3 ∧ (b = true → k = 0)
         ∧ length (net w) < length (net w') ≤ length (net w) + 6
         ∧ Header (segmentRequest E task s) = [("User-Agent", userAgent)]
         ∧ Header (probeRequest task) = [].
Proof.
  intros Hc Hd.
  destruct (downloadSegment_requests E task c s w b w' Hc Hd)
    as (m & k & Hnet & Hm & Hk & Hb).
  exists m, k.
  split_and!; try done; try lia;
    rewrite Hnet, !length_app, !length_replicate; lia.
Qed.

Lemma attempt_request_bound_witness :
  ∃ w' m k,
    downloadSegment envGone exampleTask 1 exampleWorld = Ok false w'
    ∧ net w' = replicate k (probeRequest exampleTask)
               ++ replicate m (segmentRequest envGone exampleTask 1)
               ++ net exampleWorld
    ∧ 1 ≤ m ≤ 3 ∧ k ≤ 3.
Proof.
  destruct (downloadSegment envGone exampleTask 1 exampleWorld)
    as [[] w'| |] eqn:Hd; [by vm_compute in Hd| |by vm_compute in Hd..].
  destruct (attempt_request_bound envGone exampleTask defaultClient 1
              exampleWorld false w' eq_refl Hd) as (m & k & Hnet & Hm & Hk & _).
  by exists w', m, k.
Defined.

(** ** What a successful attempt leaves behind *)



(** ** The scratch file cannot be created *)

(** X3.  When the origin answers 200 but [ioutil.TempFile] reports an error,
    the attempt fails: [Warnf] is called, which writes its line if the
    minimum level of the logger is at most [LevelWarn]; the body is dropped,
    no file is created and nothing is recorded for the segment; the worker
    counts one more failure and sleeps one second. *)
Theorem tempfile_error_fails_attempt E task c s w m resp :
  Client task = Some c →
  url_parses E (getSegUrl E (Url task) s) = true →
  m < 3 →
  (∀ j, j < m →
        transport E (length (net w) + j) (segmentRequest E task s) = TransportErr) →
  transport E (length (net w) + m) (segmentRequest E task s) = Replied resp →
  StatusCode resp = 200%Z →
  tempfile E (ntmp w) = None →
  (∃ w', downloadSegment E task s w = Ok false w'
         ∧ w' = log.output put_line (logger task) log.LevelWarn
                  "Unable to create temp file for segment %d: %v"
                  (set_ntmp S (set_net (app (replicate (S m)
                                               (segmentRequest E task s))) w))
         ∧ logged w'
           = (if decide (log.minLevel (logger task w) ≤ 2)%Z
              then [{| log.line_level := log.LevelWarn;
                       log.line_text
                       := "Unable to create temp file for segment %d: %v" |}]
              else [])
             ++ logged w
         ∧ net w' = replicate (S m) (segmentRequest E task s) ++ net w
         ∧ fs w' = fs w ∧ sched w' = sched w ∧ ntmp w' = S (ntmp w))
  ∧ (∀ wk, exited wk = false → seg wk = s → s ≠ (-1)%Z →
       (failCount wk < FailThreshold)%Z →
       ∃ w', downloadTask_step E task wk w
             = Ok (ActAttempted s false, set_local (failCount wk + 1) s wk) w'
             ∧ fs w' = fs w ∧ sched w' = sched w
             ∧ clock w' = clock w + 1 ∧ progress w' = progress w).
Proof.
  intros Hc Hurl Hm Hfail Hrep Hst Htmp.
  assert (Hpath : ∀ w0,
            net w0 = net w → ntmp w0 = ntmp w →
            downloadSegment E task s w0
            = Ok false
                (log.output put_line (logger task) log.LevelWarn
                   "Unable to create temp file for segment %d: %v"
                   (set_ntmp S (set_net (app (replicate (S m)
                                                (segmentRequest E task s))) w0)))).
  { intros w0 Hnet0 Hnt0.
    rewrite (downloadSegment_unfold E task s Hurl). unfold st_bind at 1.
    rewrite (doRequest_spec E task _ c w0 Hc), Hnet0.
    rewrite (first_reply_after E 3 (length (net w)) m _ resp Hm Hfail Hrep).
    cbn [fst snd]. rewrite decide_False by (by intros ?).
    unfold st_bind at 1. unfold ioutil_TempFile. cbn [ntmp set_net].
    rewrite Hnt0, Htmp. unfold st_bind, Warnf. by rewrite logf_Ok by done. }
  split.
  - eexists. split; [by apply Hpath|]. split; [done|].
    pose proof (output_frame (logger task) log.LevelWarn
                  "Unable to create temp file for segment %d: %v"
                  (set_ntmp S (set_net (app (replicate (S m)
                                               (segmentRequest E task s))) w)))
      as Ho.
    cbn zeta in Ho. destruct Ho as (Hs0 & Hfs0 & Hnet0 & Hnt0 & _).
    rewrite output_logged. by split_and!.
  - intros wk Hex Hseg Hs Hfc. subst s.
    pose proof (output_frame (logger task) log.LevelDebug
                  "Current segment: %d" w) as Ho.
    cbn in Ho. destruct Ho as (Hs0 & Hfs0 & Hnet0 & Hnt0 & Hcl0 & Hpr0).
    eexists. split.
    + eapply downloadTask_step_failed; [done..|]. by apply Hpath.
    + unfold log.output. repeat case_match; cbn; split_and!; congruence.
Qed.

Lemma tempfile_error_fails_attempt_witness :
  ∃ w', downloadSegment envNoScratch exampleTask 1 exampleWorld = Ok false w'
        ∧ fs w' = fs exampleWorld ∧ ntmp w' = 1
        ∧ outcomes (sched w') = outcomes (sched exampleWorld).
Proof.
  destruct (tempfile_error_fails_attempt envNoScratch exampleTask defaultClient
              1 exampleWorld 0 found)
    as [(w' & Hd & _ & _ & _ & Hfs & Hs & Hnt) _];
    [reflexivity|reflexivity|lia|intros j Hj; lia|reflexivity..|].
  exists w'. split; [exact Hd|]. split; [exact Hfs|].
  split; [exact Hnt|]. by rewrite Hs.
Defined.

(** ** A segment URL that cannot be parsed *)

(** X4.  When [http.NewRequest] refuses the URL of the segment, the worker
    does not count a failed attempt: [Fatalf] ends the whole process with
    status 1, before any request is sent and with nothing recorded.  The
    fatal line is the last line written if the minimum level of the logger
    is at most [LevelFatal]; with a higher minimum level the process ends
    without a line. *)
Theorem bad_segment_url_exits E task wk w :
  exited wk = false → seg wk ≠ (-1)%Z → (failCount wk < FailThreshold)%Z →
  url_parses E (getSegUrl E (Url task) (seg wk)) = false →
  ∃ w', downloadTask_step E task wk w = Exited 1 w'
        ∧ w' = log.output put_line (logger task) log.LevelFatal
                 "Unable to create http request: %v"
                 (log.output put_line (logger task) log.LevelDebug
                    "Current segment: %d" w)
        ∧ ((log.minLevel (logger task w) ≤ 4)%Z →
           head (logged w')
           = Some {| log.line_level := log.LevelFatal;
                     log.line_text := "Unable to create http request: %v" |})
        ∧ ((4 < log.minLevel (logger task w))%Z → logged w' = logged w)
        ∧ net w' = net w ∧ sched w' = sched w ∧ fs w' = fs w
        ∧ clock w' = clock w ∧ progress w' = progress w
        ∧ ∀ p ws mt i,
            proc_task p = task → proc_world p = w →
            proc_run p = Some (RunPool ws mt) → ws !! i = Some wk →
            ∃ p', proc_step E (TurnWorker i) p = Exited 1 p'
                  ∧ Wait p' = Wait p.
Proof.
  intros Hex Hseg Hfc Hurl.
  set (w0 := log.output put_line (logger task) log.LevelDebug
               "Current segment: %d" w).
  assert (Hstep : downloadTask_step E task wk w
                  = Exited 1
                      (log.output put_line (logger task) log.LevelFatal
                         "Unable to create http request: %v" w0)).
  { unfold downloadTask_step. rewrite Hex.
    rewrite !decide_False by (done || lia).
    unfold st_bind at 1. unfold Debugf at 1. rewrite logf_Ok by done.
    unfold st_bind at 1. unfold downloadSegment, http_NewRequest.
    by rewrite Hurl. }
  eexists. split; [exact Hstep|].
  pose proof (output_frame (logger task) log.LevelDebug
                "Current segment: %d" w) as Ho.
  cbn zeta in Ho. fold w0 in Ho.
  destruct Ho as (Hs0 & Hfs0 & Hnet0 & Hnt0 & Hcl0 & Hpr0).
  pose proof (output_frame (logger task) log.LevelFatal
                "Unable to create http request: %v" w0) as Ho1.
  cbn zeta in Ho1. destruct Ho1 as (Hs1 & Hfs1 & Hnet1 & Hnt1 & Hcl1 & Hpr1).
  assert (Hlg : logger task w0 = logger task w) by apply logger_output.
  split_and!; try congruence.
  - intros Hl. rewrite output_logged, Hlg. cbn [log.level_int].
    by rewrite decide_True by done.
  - intros Hl. rewrite output_logged, Hlg. cbn [log.level_int].
    rewrite decide_False by lia. subst w0. rewrite output_logged.
    cbn [log.level_int]. by rewrite decide_False by lia.
  - intros p ws mt i Ht Hw Hrun Hi. subst task w.
    unfold proc_step, st_bind at 1, st_get. rewrite Hrun, Hi.
    unfold st_bind, in_world. rewrite Hstep. by eexists.
Qed.

Lemma bad_segment_url_exits_witness :
  ∃ w', downloadTask_step envBadUrl exampleTask exampleWorker exampleWorld
        = Exited 1 w'
        ∧ net w' = [] ∧ sched w' = sched exampleWorld.
Proof.
  destruct (bad_segment_url_exits envBadUrl exampleTask exampleWorker
              exampleWorld) as (w' & Hstep & _ & _ & _ & Hnet & Hs & _);
    [reflexivity|done|by vm_compute|by vm_compute|].
  by exists w'.
Defined.

(** ** What giving a segment up costs *)

Lemma failed_step_cost E task c wk w :
  Client task = Some c →
  exited wk = false → seg wk ≠ (-1)%Z → (failCount wk < FailThreshold)%Z →
  (∀ w0, ∃ w1, downloadSegment E task (seg wk) w0 = Ok false w1) →
  ∃ w', downloadTask_step E task wk w
        = Ok (ActAttempted (seg wk) false,
              set_local (failCount wk + 1) (seg wk) wk) w'
        ∧ clock w' = clock w + 1
        ∧ length (net w) + 1 ≤ length (net w') ≤ length (net w) + 6.
Proof.
  intros Hc Hex Hseg Hfc Hfail.
  pose proof (output_frame (logger task) log.LevelDebug
                "Current segment: %d" w) as Ho.
  cbn in Ho. destruct Ho as (Hs0 & Hfs0 & Hnet0 & Hnt0 & Hcl0 & Hpr0).
  destruct (Hfail (log.output put_line (logger task) log.LevelDebug
                     "Current segment: %d" w)) as [w1 Hd].
  destruct (downloadSegment_requests E task c _ _ _ _ Hc Hd)
    as (m & k & Hnet & Hm & Hk & _).
  apply downloadSegment_false in Hd as Hfr.
  destruct Hfr as (_ & _ & Hcl1 & _).
  eexists. split; [by eapply downloadTask_step_failed|].
  pose proof (output_frame (logger task) log.LevelDebug
                "Failed segment %d [%d/%d]" w1) as Ho1.
  cbn in Ho1. destruct Ho1 as (_ & _ & Hnet1 & _ & Hcl1' & _).
  cbn [clock net set_clock]. rewrite Hnet1, Hcl1', Hcl1, Hcl0, Hnet, Hnet0.
  rewrite !length_app, !length_replicate. lia.
Qed.

Lemma failing_steps_cost E task c s k :
  Client task = Some c → s ≠ (-1)%Z →
  (∀ w0, ∃ w1, downloadSegment E task s w0 = Ok false w1) →
  ∀ wk w,
    exited wk = false → seg wk = s → (0 ≤ failCount wk)%Z →
    (failCount wk + Z.of_nat k ≤ FailThreshold)%Z →
    ∃ w', downloadTask_steps E task k wk w
          = Ok (replicate k (ActAttempted s false),
                set_local (failCount wk + Z.of_nat k) s wk) w'
          ∧ clock w' = clock w + k
          ∧ length (net w) + k ≤ length (net w') ≤ length (net w) + 6 * k.
Proof.
  intros Hc Hs Hfail. induction k as [|k IH]; intros wk w Hex Hseg Hfc0 Hfc.
  - exists w. cbn. split_and!; [|lia..].
    destruct wk. cbn in *. subst. do 3 f_equal. by rewrite Z.add_0_r.
  - destruct (failed_step_cost E task c wk w) as (w1 & Hstep & Hcl & Hnet);
      [done|done|by rewrite Hseg|lia|by rewrite Hseg|].
    rewrite Hseg in Hstep.
    destruct (IH (set_local (failCount wk + 1) s wk) w1) as (w' & Hsteps & Hcl' & Hnet');
      [done|done|cbn; lia|cbn; lia|].
    exists w'. cbn [downloadTask_steps]. rewrite Hex. unfold st_bind.
    rewrite Hstep. cbn [fst snd]. rewrite Hsteps. cbn.
    split_and!; [|lia..].
    do 2 f_equal. unfold set_local. cbn. f_equal. lia.
Qed.

(** X5.  A segment that no attempt can fetch is given up after exactly
    twenty attempts and twenty seconds of sleep.  The twenty-first step gives
    it up without a request and without sleep: the requests sent and the
    clock are after it what they were before it.  In all the worker has sent
    at least twenty and at most one hundred and twenty requests for the
    segment. *)
Theorem give_up_cost E task c s wk w :
  Client task = Some c → s ≠ (-1)%Z →
  exited wk = false → seg wk = s → failCount wk = 0%Z →
  (∀ w0, ∃ w1, downloadSegment E task s w0 = Ok false w1) →
  ∃ w20 w',
    downloadTask_steps E task 20 wk w
    = Ok (replicate 20 (ActAttempted s false), set_local 20 s wk) w20
    ∧ downloadTask_step E task (set_local 20 s wk) w20
      = Ok (ActGaveUp s, set_local 0 (-1) wk) w'
    ∧ net w' = net w20 ∧ clock w' = clock w20
    ∧ downloadTask_steps E task 21 wk w
      = Ok (replicate 20 (ActAttempted s false) ++ [ActGaveUp s],
            set_local 0 (-1) wk) w'
    ∧ clock w' = clock w + 20
    ∧ length (net w) + 20 ≤ length (net w') ≤ length (net w) + 120.
Proof.
  intros Hc Hs Hex Hseg Hfc0 Hfail.
  destruct (failing_steps_cost E task c s 20 Hc Hs Hfail wk w)
    as (w1 & Hsteps & Hcl & Hnet); [done|done|lia|rewrite Hfc0; done|].
  rewrite Hfc0 in Hsteps. change (0 + Z.of_nat 20)%Z with 20%Z in Hsteps.
  pose proof (downloadTask_step_gave_up E task (set_local 20 s wk) w1)
    as Hgive.
  cbn [exited seg failCount set_local] in Hgive.
  specialize (Hgive Hex Hs ltac:(unfold FailThreshold; lia)).
  pose proof (output_frame (logger task) log.LevelWarn
                "Giving up segment %d" w1) as Ho.
  cbn zeta in Ho. destruct Ho as (_ & _ & Hnet1 & _ & Hcl1 & _).
  eexists w1, _. split; [exact Hsteps|]. split; [exact Hgive|].
  split; [exact Hnet1|]. split; [exact Hcl1|]. split.
  - change 21 with (20 + 1).
    rewrite (downloadTask_steps_app _ _ _ _ _ _ _ _ _ Hsteps).
    unfold st_bind at 1. cbn [downloadTask_steps]. cbn [exited set_local].
    rewrite Hex. unfold st_bind at 1.
    rewrite downloadTask_step_gave_up;
      [|done|by cbn|cbn; unfold FailThreshold; lia].
    reflexivity.
  - cbn [clock net put_progress set_sched]. rewrite Hnet1, Hcl1. lia.
Qed.

Lemma give_up_cost_witness :
  ∃ w20 w',
    downloadTask_step envDown exampleTask (set_local 20 1 exampleWorker) w20
    = Ok (ActGaveUp 1, set_local 0 (-1) exampleWorker) w'
    ∧ net w' = net w20
    ∧ downloadTask_steps envDown exampleTask 21 exampleWorker exampleWorld
      = Ok (replicate 20 (ActAttempted 1 false) ++ [ActGaveUp 1],
            set_local 0 (-1) exampleWorker) w'
    ∧ clock w' = 20
    ∧ 20 ≤ length (net w') ≤ 120.
Proof.
  destruct (give_up_cost envDown exampleTask defaultClient 1 exampleWorker
              exampleWorld)
    as (w20 & w' & _ & Hstep & Hnet20 & _ & Hsteps & Hcl & Hnet);
    [reflexivity|done|reflexivity|reflexivity|reflexivity| |].
  - intros w0. eexists.
    apply (downloadSegment_transport_failed envDown exampleTask 1 defaultClient);
      [reflexivity|reflexivity|done].
  - exists w20, w'. split; [exact Hstep|]. split; [exact Hnet20|].
    split; [exact Hsteps|]. split; [exact Hcl|exact Hnet].
Defined.

(** ** What the worker loop reads of the task *)

Lemma same_but_logged_refl w : same_but_logged w w.
Proof. by repeat split. Qed.

Lemma alike_ret {A} (a : A) : alike (st_ret a) (st_ret a).
Proof. by intros w1 w2 Hw. Qed.

Lemma alike_bind {A B} (m1 m2 : ST World A) (k1 k2 : A → ST World B) :
  alike m1 m2 → (∀ a, alike (k1 a) (k2 a)) →
  alike (st_bind m1 k1) (st_bind m2 k2).
Proof.
  intros Hm Hk w1 w2 Hw. unfold st_bind. specialize (Hm w1 w2 Hw).
  destruct (m1 w1) as [a1 w1'|msg1 w1'|c1 w1'],
           (m2 w2) as [a2 w2'|msg2 w2'|c2 w2']; try done.
  destruct Hm as [-> Hw']. by apply Hk.
Qed.

Lemma alike_output l1 l2 lv1 lv2 t1 t2 w1 w2 :
  same_but_logged w1 w2 →
  same_but_logged (log.output put_line l1 lv1 t1 w1)
                  (log.output put_line l2 lv2 t2 w2).
Proof.
  intros Hw. unfold log.output, same_but_logged in *.
  by repeat case_match.
Qed.

Lemma alike_logf l1 l2 lv t :
  alike (log.logf put_line l1 lv t) (log.logf put_line l2 lv t).
Proof.
  intros w1 w2 Hw. unfold log.logf.
  destruct lv; (split; [done|by apply alike_output]).
Qed.

Lemma alike_Fatalf {A} l1 l2 t :
  alike (log.Fatalf (A:=A) put_line l1 t) (log.Fatalf put_line l2 t).
Proof.
  intros w1 w2 Hw. unfold log.Fatalf. split; [done|by apply alike_output].
Qed.

Lemma alike_modify (f : World → World) :
  (∀ w1 w2, same_but_logged w1 w2 → same_but_logged (f w1) (f w2)) →
  alike (st_modify f) (st_modify f).
Proof. intros Hf w1 w2 Hw. split; [done|by apply Hf]. Qed.

Lemma alike_doRequest_from E n task1 task2 req :
  Client task1 = Client task2 →
  alike (doRequest_from E n task1 req) (doRequest_from E n task2 req).
Proof.
  intros Hc. induction n as [|n IH]; cbn; [apply alike_ret|].
  apply alike_bind.
  - intros w1 w2 Hw. unfold Client_Do. rewrite <-Hc.
    destruct (Client task1); [|done].
    unfold same_but_logged in *. destruct_and!. cbn.
    split; [congruence|]. split_and!; cbn; congruence.
  - intros [|resp]; [done|apply alike_ret].
Qed.

Lemma alike_downloadSegment E task1 task2 s :
  Client task1 = Client task2 → Url task1 = Url task2 →
  alike (downloadSegment E task1 s) (downloadSegment E task2 s).
Proof.
  intros Hc Hu. unfold downloadSegment. rewrite <-Hu.
  destruct (http_NewRequest E "GET" (getSegUrl E (Url task1) s)) as [req|];
    [|apply alike_Fatalf].
  apply alike_bind; [by apply alike_doRequest_from|].
  intros [resp|]; cycle 1.
  { apply alike_bind; [apply alike_logf|intros _; apply alike_ret]. }
  case_decide.
  { apply alike_bind; [apply alike_logf|intros _].
    destruct (http_NewRequest E "GET" (Url task1)); [|apply alike_ret].
    apply alike_bind; [by apply alike_doRequest_from|intros _; apply alike_ret]. }
  apply alike_bind.
  { intros w1 w2 Hw. unfold ioutil_TempFile.
    unfold same_but_logged in Hw. destruct Hw as (Hs & Hfs & Hn & Hnt & Hcl & Hp).
    rewrite Hnt, Hfs. destruct (tempfile E (ntmp w2)); cbn.
    - destruct (fs w2 !! _); cbn;
        (split; [done|]); unfold same_but_logged; cbn; split_and!; congruence.
    - split; [done|]. unfold same_but_logged; cbn; split_and!; congruence. }
  intros [name|]; cycle 1.
  { apply alike_bind; [apply alike_logf|intros _; apply alike_ret]. }
  apply alike_bind.
  { intros w1 w2 Hw. unfold io_Copy.
    unfold same_but_logged in Hw. destruct Hw as (Hs & Hfs & Hn & Hnt & Hcl & Hp).
    rewrite Hnt. destruct (copy_fault E _); cbn;
      (split; [done|]); unfold same_but_logged; cbn; split_and!; congruence. }
  intros [|]; cbn.
  - apply alike_bind; [|intros _; apply alike_ret].
    apply alike_modify. intros w1 w2 Hw. unfold same_but_logged in *.
    destruct_and!. cbn. split_and!; congruence.
  - apply alike_bind; [|intros _].
    { apply alike_modify. intros w1 w2 Hw. unfold same_but_logged in *.
      destruct_and!. cbn. split_and!; congruence. }
    apply alike_bind; [apply alike_logf|intros _; apply alike_ret].
Qed.

Lemma alike_NextSegment q : alike (NextSegment q) (NextSegment q).
Proof.
  intros w1 w2 Hw. unfold NextSegment.
  unfold same_but_logged in Hw. destruct Hw as (Hs & Hfs & Hn & Hnt & Hcl & Hp).
  rewrite Hs. repeat case_match; (split; [done|]);
    unfold same_but_logged; cbn; split_and!; congruence.
Qed.

(** X6.  The loop of a worker reads of the task its URL, its client and its
    logger only, and the logger decides nothing but what is logged: for two
    tasks with the same URL and the same client, whatever their loggers,
    thread counts, queue modes, output files, segment directories and
    [DeleteSegments] flags, a step of a worker ends in the same way, with the
    same requests sent, the same outcomes recorded, the same files written
    and the same time slept. *)
Theorem worker_reads_url_and_client E task1 task2 wk w1 w2 :
  Client task1 = Client task2 → Url task1 = Url task2 →
  same_but_logged w1 w2 →
  same_outcome (downloadTask_step E task1 wk w1)
               (downloadTask_step E task2 wk w2).
Proof.
  intros Hc Hu. revert w1 w2. change (alike (downloadTask_step E task1 wk)
                                            (downloadTask_step E task2 wk)).
  unfold downloadTask_step.
  destruct (exited wk); [apply alike_ret|].
  case_decide.
  { apply alike_bind; [apply alike_NextSegment|].
    intros [[[s ok] q]|]; [|apply alike_ret].
    destruct ok; cbn.
    - case_decide; [by intros w1 w2 Hw|apply alike_ret].
    - apply alike_bind; [apply alike_logf|intros _; apply alike_ret]. }
  case_decide.
  { apply alike_bind; [apply alike_logf|intros _].
    apply alike_bind; [|intros _].
    { apply alike_modify. intros w1 w2 Hw. unfold same_but_logged in *.
      destruct_and!. cbn. split_and!; congruence. }
    apply alike_bind; [|intros _; apply alike_ret].
    apply alike_modify. intros w1 w2 Hw. unfold same_but_logged in *.
    destruct_and!. cbn. split_and!; congruence. }
  apply alike_bind; [apply alike_logf|intros _].
  apply alike_bind; [by apply alike_downloadSegment|].
  intros [|].
  - apply alike_bind; [apply alike_logf|intros _].
    apply alike_bind; [|intros _; apply alike_ret].
    apply alike_modify. intros w1 w2 Hw. unfold same_but_logged in *.
    destruct_and!. cbn. split_and!; congruence.
  - apply alike_bind; [apply alike_logf|intros _].
    apply alike_bind; [|intros _; apply alike_ret].
    apply alike_modify. intros w1 w2 Hw. unfold same_but_logged in *.
    destruct_and!. cbn. split_and!; congruence.
Qed.

Lemma worker_reads_url_and_client_witness :
  same_outcome
    (downloadTask_step envFlaky exampleTask exampleWorker exampleWorld)
    (downloadTask_step envFlaky quietTask exampleWorker exampleWorld)
  ∧ logged (res_state (downloadTask_step envFlaky exampleTask exampleWorker
                         exampleWorld))
    ≠ logged (res_state (downloadTask_step envFlaky quietTask exampleWorker
                           exampleWorld)).
Proof.
  split.
  - apply (worker_reads_url_and_client envFlaky exampleTask quietTask
             exampleWorker exampleWorld exampleWorld);
      [reflexivity|reflexivity|by repeat split].
  - by vm_compute.
Defined.

(** ** [Start], called again *)

Lemma times_S {S} n (m : ST S unit) s :
  times (Datatypes.S n) m s
  = match m s with
    | Ok _ s' => times n m s'
    | Panicked msg s' => Panicked msg s'
    | Exited c s' => Exited c s'
    end.
Proof. done. Qed.

Lemma Start_again n p :
  started (proc_task p) = true → times n Start p = Ok tt p.
Proof.
  intros Hs. induction n as [|n IH]; [done|].
  by rewrite times_S, Start_started.
Qed.

(** X7.  [Start] acts once.  On a task with a valid configuration the first
    call starts one goroutine for [run] and adds one to the wait group; any
    number of further calls leave the task as the first call left it. *)
Theorem Start_acts_once n p :
  started (proc_task p) = false → (0 ≤ wg (proc_task p))%Z →
  validConfig (proc_task p) →
  ∃ p', Start p = Ok tt p'
        ∧ times (S n) Start p = Ok tt p'
        ∧ spawned p' = S (spawned p)
        ∧ wg (proc_task p') = (wg (proc_task p) + 1)%Z
        ∧ started (proc_task p') = true.
Proof.
  intros Hs Hwg (Hu & Hm & Hd).
  set (p1 := if decide (Threads (proc_task p) < 1)%N
             then set_task (set_Threads 1) p else p).
  assert (wg (proc_task p1) = wg (proc_task p)
          ∧ spawned p1 = spawned p) as [Hwg1 Hsp1].
  { subst p1. by case_decide. }
  assert (HStart : Start p
                   = Ok tt (go_run (set_task (set_started true)
                                      (set_task (set_wg (Z.add 1)) p1)))).
  { rewrite (Start_unfold p Hs). cbv zeta. fold p1.
    rewrite !decide_False by done.
    unfold st_bind at 1. unfold wg_Add.
    by rewrite decide_False by lia. }
  eexists. split; [exact HStart|].
  split; [rewrite times_S, HStart; by apply Start_again|].
  cbn. rewrite Hwg1, Hsp1. split_and!; (done || lia).
Qed.

Lemma Start_acts_once_witness :
  ∃ p', Start (proc0 exampleTask ∅) = Ok tt p'
        ∧ times 3 Start (proc0 exampleTask ∅) = Ok tt p'
        ∧ spawned p' = 1 ∧ wg (proc_task p') = 1%Z.
Proof.
  destruct (Start_acts_once 2 (proc0 exampleTask ∅))
    as (p' & H1 & H2 & H3 & H4 & _); [done|done|by repeat split|].
  by exists p'.
Defined.

(** ** What [run] starts *)

(** X8.  On a stream that discovery finds, [run] creates the workers before
    anything is fetched: as many as the thread count asks, one when it asks
    for none, numbered from 0, each with no index in hand and no failure
    counted. *)
Theorem run_starts_workers E c del l mergeFile m segmentDir threads url files
    known total :
  let d := newTask c del l mergeFile m segmentDir threads url in
  validConfig d →
  discover E url = Discovered known total →
  ∃ p1 p2 ws mt,
    Start (proc0 d files) = Ok tt p1
    ∧ proc_step E TurnRun p1 = Ok tt p2
    ∧ proc_run p2 = Some (RunPool ws mt)
    ∧ length ws = N.to_nat (N.max 1 threads)
    ∧ (∀ k wk, ws !! k = Some wk →
         threadNumber wk = N.of_nat k ∧ seg wk = (-1)%Z
         ∧ failCount wk = 0%Z ∧ exited wk = false)
    ∧ net (proc_world p2) = []
    ∧ Wait p2 = None.
Proof.
  intros d Hvalid Hdisc.
  eexists _, _, _, _. split; [by apply Start_newTask|].
  unfold proc_step, st_bind at 1, st_get. cbn [proc_run].
  unfold run_begin, st_bind at 1, st_get. cbn [proc_task Url QueueMode_].
  unfold newSegStatus. rewrite Hdisc.
  split; [reflexivity|]. cbn -[threadNumbers N.max].
  split; [reflexivity|].
  split; [by rewrite length_fmap, threadNumbers_length|].
  split; [|done].
  intros k wk Hk. apply list_lookup_fmap_Some in Hk as (tn & Hwk & Htn).
  apply threadNumbers_lookup in Htn as [Htn _]. by subst.
Qed.

Lemma run_starts_workers_witness :
  ∃ p1 p2 ws mt,
    Start (proc0 exampleTaskNoThreads ∅) = Ok tt p1
    ∧ proc_step envLive TurnRun p1 = Ok tt p2
    ∧ proc_run p2 = Some (RunPool ws mt)
    ∧ length ws = 1.
Proof.
  destruct (run_starts_workers envLive (Some defaultClient) false None "out.ts"
              QueueAuto "segments" 0 exampleUrl ∅ false 1)
    as (p1 & p2 & ws & mt & H1 & H2 & H3 & H4 & _);
    [by repeat split|reflexivity|].
  by exists p1, p2, ws, mt.
Defined.

(** X9.  When stream discovery fails, [run] returns at once with the error:
    [Wait] gives a result with that error, no lost segment and a total of 0;
    no worker was started, nothing was requested and no file, not even the
    output file, was created. *)
Theorem discovery_error_ends_run E c del l mergeFile m segmentDir threads url
    files err :
  let d := newTask c del l mergeFile m segmentDir threads url in
  validConfig d →
  discover E url = DiscoveryFailed err →
  ∃ p1 p2,
    Start (proc0 d files) = Ok tt p1
    ∧ proc_step E TurnRun p1 = Ok tt p2
    ∧ proc_run p2 = Some RunReturned
    ∧ Wait p2 = Some {| Error := Some err; LostSegments := [];
                        TotalSegments := 0 |}
    ∧ proc_world p2 = world0 files
    ∧ ∀ ts, proc_exec E ts p2 = Ok tt p2.
Proof.
  intros d Hvalid Hdisc.
  eexists _, _. split; [by apply Start_newTask|].
  unfold proc_step, st_bind at 1, st_get. cbn [proc_run].
  unfold run_begin, st_bind at 1, st_get. cbn [proc_task Url QueueMode_].
  unfold newSegStatus. rewrite Hdisc.
  split; [reflexivity|]. cbn. split_and!; try done.
  induction ts as [|t ts IH]; [done|].
  cbn [proc_exec]. unfold st_bind at 1. by destruct t.
Qed.

Lemma discovery_error_ends_run_witness :
  ∃ p1 p2,
    Start (proc0 exampleTask ∅) = Ok tt p1
    ∧ proc_step envNoStream TurnRun p1 = Ok tt p2
    ∧ Wait p2 = Some {| Error := Some "no such stream"; LostSegments := [];
                        TotalSegments := 0 |}
    ∧ fs (proc_world p2) = ∅.
Proof.
  destruct (discovery_error_ends_run envNoStream (Some defaultClient) false
              None "out.ts" QueueAuto "segments" 2 exampleUrl ∅
              "no such stream")
    as (p1 & p2 & H1 & H2 & _ & H4 & H5 & _); [by repeat split|reflexivity|].
  exists p1, p2. by rewrite H5.
Defined.

(** ** The progress callback *)

Lemma NextSegment_progress q w :
  ∃ r w', NextSegment q w = Ok r w'
          ∧ progress w' = progress w
          ∧ outcomes (sched w') = outcomes (sched w).
Proof. unfold NextSegment. repeat case_match; by eexists _, _. Qed.

Lemma step_progress E task wk w a wk1 w1 :
  downloadTask_step E task wk w = Ok (a, wk1) w1 →
  progress w1 = option_list (finishedIndex a) ++ progress w
  ∧ (∀ i, finishedIndex a = Some i → is_Some (outcomes (sched w1) !! i))
  ∧ (∀ j, finishedIndex a ≠ Some j →
          outcomes (sched w1) !! j = outcomes (sched w) !! j).
Proof.
  destruct (exited wk) eqn:Hex.
  { unfold downloadTask_step. rewrite Hex. by intros [= <- <- <-]. }
  destruct (decide (seg wk = -1)%Z) as [Hseg|Hseg].
  - rewrite downloadTask_step_idle by done. unfold st_bind at 1.
    destruct (NextSegment_progress (queue wk) w) as (r & w0 & -> & Hp & Ho).
    destruct r as [[[s ok] q]|]; [|by intros [= <- <- <-]; rewrite Hp, Ho].
    destruct ok; cbn [negb].
    + case_decide; [done|]. intros [= <- <- <-]. by rewrite Hp, Ho.
    + unfold st_bind, Infof. rewrite logf_Ok by done. intros [= <- <- <-].
      pose proof (output_frame (logger task) log.LevelInfo "Thread %d done" w0)
        as Hfr. cbn in Hfr. destruct Hfr as (Hs & _ & _ & _ & _ & Hp').
      cbn. by rewrite Hs, Hp', Hp, Ho.
  - intros Hstep.
    apply downloadTask_step_holding in Hstep as
      [(_ & -> & _ & Hs & _ & _ & Hp)
      |[(_ & -> & _ & (name & body & _ & _ & Hs) & _ & Hp)
       |(_ & -> & _ & Hs & _ & _ & _ & Hp)]]; [| | |done..]; cbn.
    + rewrite Hs, Hp. done.
    + rewrite Hs, Hp. cbn. split_and!; [done| |].
      * intros i [= <-]. by rewrite lookup_insert_eq.
      * intros j Hj. rewrite lookup_insert_ne; [done|congruence].
    + rewrite Hs, Hp. cbn. split_and!; [done| |].
      * intros i [= <-]. by rewrite lookup_insert_eq.
      * intros j Hj. rewrite lookup_insert_ne; [done|congruence].
Qed.

(** X10.  Over any number of steps of a worker, the progress callback is
    called once for every step that records an outcome, with the index of
    that outcome and in the order of the records, and at no other step; the
    outcomes of all other indices are left as they were. *)
Theorem done_once_per_outcome E task n wk w acts wk' w' :
  downloadTask_steps E task n wk w = Ok (acts, wk') w' →
  progress w' = reverse (omap finishedIndex acts) ++ progress w
  ∧ (∀ i, i ∈ omap finishedIndex acts → is_Some (outcomes (sched w') !! i))
  ∧ (∀ j, j ∉ omap finishedIndex acts →
          outcomes (sched w') !! j = outcomes (sched w) !! j).
Proof.
  revert wk w acts wk' w'.
  induction n as [|n IH]; intros wk w acts wk' w'.
  { intros [= <- <- <-]. split_and!; [done| |done].
    intros i Hi. by apply elem_of_nil in Hi. }
  cbn [downloadTask_steps]. destruct (exited wk).
  { intros [= <- <- <-]. split_and!; [done| |done].
    intros i Hi. by apply elem_of_nil in Hi. }
  unfold st_bind at 1.
  destruct (downloadTask_step E task wk w) as [[a wk1] w1| |] eqn:Hstep;
    [|done..].
  unfold st_bind at 1. cbn [fst snd].
  destruct (downloadTask_steps E task n wk1 w1) as [[acts1 wk2] w2| |] eqn:Hrest;
    [|done..].
  intros [= <- <- <-].
  apply step_progress in Hstep as (Hp1 & Hrec1 & Hkeep1).
  apply IH in Hrest as (Hp & Hrec & Hkeep).
  assert (Hsome : ∀ i, is_Some (outcomes (sched w1) !! i) →
                       is_Some (outcomes (sched w2) !! i)).
  { intros i Hi. destruct (decide (i ∈ omap finishedIndex acts1)).
    - by apply Hrec.
    - by rewrite Hkeep. }
  cbn [omap list_omap]. destruct (finishedIndex a) as [i0|] eqn:Ha.
  - split_and!.
    + rewrite Hp, Hp1, reverse_cons. cbn. by rewrite <-(assoc_L (++)).
    + intros i [->|Hi]%elem_of_cons; [|by apply Hrec].
      by apply Hsome, Hrec1.
    + intros j [Hj0 Hj]%not_elem_of_cons.
      rewrite Hkeep by done. apply Hkeep1. congruence.
  - split_and!.
    + by rewrite Hp, Hp1.
    + done.
    + intros j Hj. rewrite Hkeep by done. by apply Hkeep1.
Qed.

Lemma done_once_per_outcome_witness :
  ∃ w', downloadTask_steps envFlaky exampleTask 1 exampleWorker exampleWorld
        = Ok ([ActAttempted 1 true], set_local 0 (-1) exampleWorker) w'
        ∧ progress w' = [1%Z]
        ∧ is_Some (outcomes (sched w') !! 1%Z).
Proof.
  destruct (downloadTask_steps envFlaky exampleTask 1 exampleWorker exampleWorld)
    as [[acts wk'] w'| |] eqn:Hsteps; [|by vm_compute in Hsteps..].
  pose proof (done_once_per_outcome envFlaky exampleTask 1 exampleWorker
                exampleWorld acts wk' w' Hsteps) as (Hp & Hrec & _).
  assert (acts = [ActAttempted 1 true] ∧ wk' = set_local 0 (-1) exampleWorker)
    as [-> ->].
  { vm_compute in Hsteps. by injection Hsteps as <- <- _. }
  exists w'. split; [done|]. split; [exact Hp|].
  apply Hrec. by left.
Defined.

(** ** The failure count of a worker *)

Lemma step_failCount E task wk w a wk1 w1 :
  (0 ≤ failCount wk ≤ FailThreshold)%Z →
  (seg wk = (-1)%Z → failCount wk = 0%Z) →
  downloadTask_step E task wk w = Ok (a, wk1) w1 →
  (0 ≤ failCount wk1 ≤ FailThreshold)%Z
  ∧ (seg wk1 = (-1)%Z → failCount wk1 = 0%Z)
  ∧ threadNumber wk1 = threadNumber wk.
Proof.
  intros Hb H0.
  destruct (exited wk) eqn:Hex.
  { unfold downloadTask_step. rewrite Hex. by intros [= <- <- <-]. }
  destruct (decide (seg wk = -1)%Z) as [Hseg|Hseg].
  - rewrite downloadTask_step_idle by done. unfold st_bind at 1.
    destruct (NextSegment (queue wk) w) as [[[[s ok] q]|] w0| |]; [| |done..].
    + destruct ok; cbn [negb].
      * case_decide; [done|]. intros [= <- <- <-]. cbn.
        rewrite (H0 Hseg). unfold FailThreshold. split_and!; (done || lia).
      * unfold st_bind, Infof. rewrite logf_Ok by done. intros [= <- <- <-].
        cbn. rewrite (H0 Hseg). unfold FailThreshold. split_and!; (done || lia).
    + by intros [= <- <- <-].
  - intros Hstep.
    apply downloadTask_step_holding in Hstep as
      [(Hlt & _ & -> & _)|[(_ & _ & -> & _)|(_ & _ & -> & _)]];
      [| | |done..]; cbn; unfold FailThreshold in *; split_and!; (done || lia).
Qed.

(** X20.  The failure count of a worker stays between 0 and the threshold
    of 20, and it is 0 whenever the worker has no index in hand: the count
    of one segment is never carried over to the next. *)
Theorem failCount_bounded E task n wk w acts wk' w' :
  (0 ≤ failCount wk ≤ FailThreshold)%Z →
  (seg wk = (-1)%Z → failCount wk = 0%Z) →
  downloadTask_steps E task n wk w = Ok (acts, wk') w' →
  (0 ≤ failCount wk' ≤ 20)%Z
  ∧ (seg wk' = (-1)%Z → failCount wk' = 0%Z)
  ∧ threadNumber wk' = threadNumber wk.
Proof.
  revert wk w acts wk' w'.
  induction n as [|n IH]; intros wk w acts wk' w' Hb H0.
  { by intros [= <- <- <-]. }
  cbn [downloadTask_steps]. destruct (exited wk).
  { by intros [= <- <- <-]. }
  unfold st_bind at 1.
  destruct (downloadTask_step E task wk w) as [[a wk1] w1| |] eqn:Hstep;
    [|done..].
  unfold st_bind at 1. cbn [fst snd].
  destruct (downloadTask_steps E task n wk1 w1) as [[acts1 wk2] w2| |] eqn:Hrest;
    [|done..].
  intros [= <- <- <-].
  apply step_failCount in Hstep as (Hb1 & H01 & Htn1); [|done..].
  apply IH in Hrest as (Hb2 & H02 & Htn2); [|done..].
  split_and!; [lia..|done|congruence].
Qed.

Lemma failCount_bounded_witness :
  ∃ acts wk' w',
    downloadTask_steps envDown exampleTask 3
      (newWorker (freshStatus QueueSequential 2 true 3) 0) exampleWorld
    = Ok (acts, wk') w'
    ∧ (0 ≤ failCount wk' ≤ 20)%Z.
Proof.
  destruct (downloadTask_steps envDown exampleTask 3
              (newWorker (freshStatus QueueSequential 2 true 3) 0) exampleWorld)
    as [[acts wk'] w'| |] eqn:Hsteps;
    [|vm_compute in Hsteps; discriminate Hsteps..].
  destruct (failCount_bounded envDown exampleTask 3
              (newWorker (freshStatus QueueSequential 2 true 3) 0) exampleWorld
              acts wk' w') as (Hb & _);
    [vm_compute; split; discriminate|reflexivity|exact Hsteps|].
  exists acts, wk', w'. split; [reflexivity|exact Hb].
Defined.

(** * Properties of [log/log.go] *)

(** ** [log.go]: [ParseLevel] *)

Lemma ParseLevel_range_Some n order l :
  logio.ParseLevel_range n order = Some l →
  ∃ info, (l, info) ∈ order ∧ n = logio.name info.
Proof.
  induction order as [|[l' info'] rest IH]; cbn; [done|].
  case_decide as Hn.
  - intros [= <-]. exists info'. split; [left|done].
  - intros [info [Hin ->]]%IH. exists info. split; [by right|done].
Qed.

Lemma ParseLevel_range_None n order :
  logio.ParseLevel_range n order = None →
  ∀ l info, (l, info) ∈ order → n ≠ logio.name info.
Proof.
  induction order as [|[l' info'] rest IH]; cbn.
  - intros _ l info Hin. by apply elem_of_nil in Hin.
  - case_decide as Hn; [done|].
    intros Hr l info [[= -> ->]|Hin]%elem_of_cons; [done|by eapply IH].
Qed.

Lemma ParseLevel_range_found order l info :
  NoDup ((logio.name ∘ snd) <$> order) → (l, info) ∈ order →
  logio.ParseLevel_range (logio.name info) order = Some l.
Proof.
  induction order as [|[l' info'] rest IH]; cbn.
  - intros _ Hin. by apply elem_of_nil in Hin.
  - intros [Hnotin Hnd]%NoDup_cons [[= -> ->]|Hin]%elem_of_cons.
    + by rewrite decide_True.
    + rewrite decide_False; [by apply IH|].
      intros Heq. apply Hnotin. rewrite <-Heq.
      apply list_elem_of_fmap. by exists (l, info).
Qed.

Lemma levels_names_NoDup order :
  order ≡ₚ map_to_list logio.levels →
  NoDup ((logio.name ∘ snd) <$> order).
Proof.
  intros ->. apply (bool_decide_unpack _). by vm_compute.
Qed.

Lemma levels_cases l info :
  logio.levels !! l = Some info →
  (0 ≤ l ≤ 4)%Z ∧ info = logio.levels_at l
  ∧ logio.lower_byte <$> logio.name info = logio.name info
  ∧ forallb (λ c, Byte.to_N c <? 128)%N (logio.name info) = true.
Proof.
  intros Hl. apply elem_of_map_to_list in Hl.
  vm_compute in Hl.
  repeat (apply elem_of_cons in Hl as [[= -> ->]|Hl];
          [by split_and!; [lia|lia|..]|]).
  by apply elem_of_nil in Hl.
Qed.

Lemma ToLower_name R l info :
  logio.levels !! l = Some info →
  logio.strings_ToLower R (logio.name info) = logio.name info.
Proof.
  intros (_ & _ & Hlow & Hascii)%levels_cases.
  unfold logio.strings_ToLower. by rewrite Hascii.
Qed.

(** X11.  [ParseLevel] gives a level without an error exactly for the names
    of the table, compared after [strings.ToLower], whatever the order in
    which [range] visits the map; the name of each level is parsed back to
    that level. *)
Theorem ParseLevel_names R order s l :
  order ≡ₚ map_to_list logio.levels →
  (logio.ParseLevel R order s = (l, None)
   ↔ ∃ info, logio.levels !! l = Some info
             ∧ logio.strings_ToLower R s = logio.name info)
  ∧ (∀ l' info, logio.levels !! l' = Some info →
       logio.ParseLevel R order (logio.name info) = (l', None))
  ∧ (∀ order', order' ≡ₚ map_to_list logio.levels →
       logio.ParseLevel R order' s = logio.ParseLevel R order s).
Proof.
  intros Hperm.
  assert (Hfound : ∀ order0 l0 info0 s0,
            order0 ≡ₚ map_to_list logio.levels →
            logio.levels !! l0 = Some info0 →
            logio.strings_ToLower R s0 = logio.name info0 →
            logio.ParseLevel R order0 s0 = (l0, None)).
  { intros order0 l0 info0 s0 Hp Hl Hs. unfold logio.ParseLevel.
    rewrite Hs, (ParseLevel_range_found order0 l0 info0); [done|..].
    - by apply levels_names_NoDup.
    - rewrite Hp. by apply elem_of_map_to_list. }
  split_and!.
  - split.
    + unfold logio.ParseLevel.
      destruct (logio.ParseLevel_range _ order) as [l0|] eqn:Hr; [|done].
      intros [= ->]. apply ParseLevel_range_Some in Hr as [info [Hin Hs]].
      exists info. split; [|done].
      apply elem_of_map_to_list. by rewrite <-Hperm.
    + intros (info & Hl & Hs). by eapply Hfound.
  - intros l' info Hl. eapply Hfound; [done..|]. by eapply ToLower_name.
  - intros order' Hperm'. unfold logio.ParseLevel at 2.
    destruct (logio.ParseLevel_range _ order) as [l0|] eqn:Hr.
    + apply ParseLevel_range_Some in Hr as [info [Hin Hs]].
      eapply Hfound; [done| |done].
      apply elem_of_map_to_list. by rewrite <-Hperm.
    + unfold logio.ParseLevel.
      destruct (logio.ParseLevel_range _ order') as [l0|] eqn:Hr'; [|done].
      apply ParseLevel_range_Some in Hr' as [info [Hin Hs]].
      exfalso. eapply ParseLevel_range_None; [done| |done].
      rewrite Hperm, <-Hperm'. done.
Qed.

Lemma levelsAscending_perm : levelsAscending ≡ₚ map_to_list logio.levels.
Proof.
  apply NoDup_Permutation.
  - apply (bool_decide_unpack _). by vm_compute.
  - apply NoDup_map_to_list.
  - intros x.
    set (a := map_to_list logio.levels). vm_compute in a. subst a.
    set (b := levelsAscending). vm_compute in b. subst b.
    rewrite !elem_of_cons, !elem_of_nil. tauto.
Qed.

Lemma ParseLevel_names_witness :
  logio.ParseLevel exampleRuntime levelsAscending (logio.str "WaRn")
  = (logio.LevelWarn, None)
  ∧ logio.ParseLevel exampleRuntime (reverse levelsAscending) (logio.str "WaRn")
    = logio.ParseLevel exampleRuntime levelsAscending (logio.str "WaRn").
Proof.
  destruct (ParseLevel_names exampleRuntime levelsAscending (logio.str "WaRn")
              logio.LevelWarn levelsAscending_perm) as (H1 & _ & H3).
  split.
  - apply H1. eexists. split; [by vm_compute|by vm_compute].
  - apply H3. by rewrite reverse_Permutation, levelsAscending_perm.
Defined.

(** X12.  A name that is, after [strings.ToLower], none of the five names is
    refused: the level returned is [LevelFatal] and the error quotes the
    lowered name, not the name as it was given. *)
Theorem ParseLevel_invalid R order s :
  order ≡ₚ map_to_list logio.levels →
  (∀ l info, logio.levels !! l = Some info →
             logio.strings_ToLower R s ≠ logio.name info) →
  logio.ParseLevel R order s
  = (logio.LevelFatal,
     Some (logio.str "Invalid log level '" ++ logio.strings_ToLower R s
           ++ logio.str "'")).
Proof.
  intros Hperm Hnone. unfold logio.ParseLevel.
  destruct (logio.ParseLevel_range _ order) as [l0|] eqn:Hr; [|done].
  apply ParseLevel_range_Some in Hr as [info [Hin Hs]].
  exfalso. eapply Hnone; [|done].
  apply elem_of_map_to_list. by rewrite <-Hperm.
Qed.

Lemma ParseLevel_invalid_witness :
  logio.ParseLevel exampleRuntime levelsAscending (logio.str "Verbose")
  = (logio.LevelFatal, Some (logio.str "Invalid log level 'verbose'")).
Proof.
  apply (ParseLevel_invalid exampleRuntime levelsAscending (logio.str "Verbose")
           levelsAscending_perm).
  intros l info Hl. apply elem_of_map_to_list in Hl. vm_compute in Hl.
  repeat (apply elem_of_cons in Hl as [[= -> ->]|Hl]; [by vm_compute|]).
  by apply elem_of_nil in Hl.
Defined.

(** ** [log.go]: [doWrite] and the progress line *)

Lemma calls_app cs1 cs2 s :
  logio.calls (cs1 ++ cs2) s
  = match logio.calls cs1 s with
    | Ok _ s1 => logio.calls cs2 s1
    | Panicked msg s1 => Panicked msg s1
    | Exited c s1 => Exited c s1
    end.
Proof.
  revert s. induction cs1 as [|c cs1 IH]; intros s; [done|].
  cbn. unfold st_bind.
  destruct (logio.call c s); [apply IH|done..].
Qed.

Lemma calls_cons c cs s :
  logio.calls (c :: cs) s
  = match logio.call c s with
    | Ok _ s1 => logio.calls cs s1
    | Panicked msg s1 => Panicked msg s1
    | Exited code s1 => Exited code s1
    end.
Proof. done. Qed.

Lemma call_write p s :
  logio.call (logio.CallWrite p) s
  = match logio.stdLogProxy_Write p s with
    | Ok _ s1 => Ok tt s1
    | Panicked msg s1 => Panicked msg s1
    | Exited code s1 => Exited code s1
    end.
Proof. done. Qed.

Lemma call_progress title line s :
  logio.call (logio.CallProgress title line) s = logio.Progress title line s.
Proof. done. Qed.

Lemma doWrite_returns isProgress title data s :
  ∃ s', logio.doWrite isProgress title data s
        = Ok (Z.of_nat (length data)) s'
        ∧ logio.DefaultLogger s' = logio.DefaultLogger s
        ∧ ∃ chunk, logio.stderr s' = chunk :: logio.stderr s.
Proof.
  unfold logio.doWrite. destruct isProgress; [case_match|]; eauto.
Qed.

Lemma call_returns c s : ∃ s', logio.call c s = Ok tt s'.
Proof.
  destruct c as [p|title line]; unfold logio.call, logio.Progress,
    logio.stdLogProxy_Write, st_bind.
  - destruct (doWrite_returns false [] p s) as (s' & -> & _). eauto.
  - destruct (doWrite_returns true title line s) as (s' & -> & _). eauto.
Qed.

Lemma calls_returns cs s : ∃ s', logio.calls cs s = Ok tt s'.
Proof.
  revert s. induction cs as [|c cs IH]; intros s; cbn; [by eexists|].
  unfold st_bind. destruct (call_returns c s) as [s1 ->]. apply IH.
Qed.

Lemma write_plain p s :
  logio.hasProgress (logio.progress s) = false →
  logio.lastProgress (logio.progress s) = [] →
  ∃ s', logio.stdLogProxy_Write p s = Ok (Z.of_nat (length p)) s'
        ∧ logio.stderr s' = p :: logio.stderr s
        ∧ logio.hasProgress (logio.progress s') = false
        ∧ logio.lastProgress (logio.progress s') = [].
Proof.
  intros Hh Hl. unfold logio.stdLogProxy_Write, logio.doWrite.
  rewrite Hh, Hl. eexists. split; [done|]. cbn. by rewrite app_nil_r.
Qed.

(** X13.  As long as no progress line was shown, what goes to standard error
    is what was handed to the writer, chunk for chunk and unchanged. *)
Theorem writes_before_progress ps s :
  logio.hasProgress (logio.progress s) = false →
  logio.lastProgress (logio.progress s) = [] →
  ∃ s', logio.calls (logio.CallWrite <$> ps) s = Ok tt s'
        ∧ logio.stderr s' = reverse ps ++ logio.stderr s
        ∧ logio.hasProgress (logio.progress s') = false.
Proof.
  revert s. induction ps as [|p ps IH]; intros s Hh Hl.
  - by exists s.
  - destruct (write_plain p s Hh Hl) as (s1 & Hw & Herr & Hh1 & Hl1).
    destruct (IH s1 Hh1 Hl1) as (s' & Hc & Herr' & Hh').
    exists s'. rewrite fmap_cons, calls_cons, call_write, Hw.
    split; [done|]. split; [|done].
    by rewrite Herr', Herr, reverse_cons, <-(assoc_L (++)).
Qed.

Lemma writes_before_progress_witness :
  ∃ s', logio.calls (logio.CallWrite <$> [logio.str "a"; logio.str "b"])
          logio.init = Ok tt s'
        ∧ logio.stderr s' = reverse [logio.str "a"; logio.str "b"]
                            ++ logio.stderr logio.init
        ∧ logio.hasProgress (logio.progress s') = false.
Proof.
  apply (writes_before_progress [logio.str "a"; logio.str "b"] logio.init);
    reflexivity.
Defined.

Lemma write_shown p line s :
  logio.hasProgress (logio.progress s) = true →
  logio.lastProgress (logio.progress s) = line →
  ∃ s', logio.stdLogProxy_Write p s = Ok (Z.of_nat (length p)) s'
        ∧ logio.stderr s'
          = (logio.eraseLine ++ [x0d] ++ p ++ line) :: logio.stderr s
        ∧ logio.hasProgress (logio.progress s') = true
        ∧ logio.lastProgress (logio.progress s') = line
        ∧ logio.title (logio.progress s') = logio.title (logio.progress s).
Proof.
  intros Hh Hl. unfold logio.stdLogProxy_Write, logio.doWrite.
  rewrite Hh, Hl. eexists. split; [done|]. cbn.
  by split_and!.
Qed.

Lemma writes_shown ps line s :
  logio.hasProgress (logio.progress s) = true →
  logio.lastProgress (logio.progress s) = line →
  ∃ s', logio.calls (logio.CallWrite <$> ps) s = Ok tt s'
        ∧ logio.hasProgress (logio.progress s') = true
        ∧ logio.lastProgress (logio.progress s') = line
        ∧ logio.title (logio.progress s') = logio.title (logio.progress s).
Proof.
  revert s. induction ps as [|p ps IH]; intros s Hh Hl.
  - by exists s.
  - destruct (write_shown p line s Hh Hl) as (s1 & Hw & _ & Hh1 & Hl1 & Ht1).
    destruct (IH s1 Hh1 Hl1) as (s' & Hc & Hh' & Hl' & Ht').
    exists s'. rewrite fmap_cons, calls_cons, call_write, Hw.
    split; [done|]. by rewrite Ht', Ht1.
Qed.

Lemma Progress_shown title line s :
  ∃ s', logio.Progress title line s = Ok tt s'
        ∧ logio.hasProgress (logio.progress s') = true
        ∧ logio.lastProgress (logio.progress s') = line.
Proof.
  unfold logio.Progress, logio.doWrite, st_bind.
  destruct (_ && _); by eexists.
Qed.

(** X14.  Once a progress line is on the screen, every chunk written
    afterwards erases the line, writes its data and draws the latest
    progress line again; the writer reports the length of the data. *)
Theorem write_redraws_progress cs title line ps data s0 :
  ∃ s s',
    logio.calls (cs ++ [logio.CallProgress title line]
                    ++ (logio.CallWrite <$> ps)) s0 = Ok tt s
    ∧ logio.stdLogProxy_Write data s = Ok (Z.of_nat (length data)) s'
    ∧ logio.stderr s'
      = (logio.eraseLine ++ [x0d] ++ data ++ line) :: logio.stderr s.
Proof.
  destruct (calls_returns cs s0) as [s1 Hcs].
  destruct (Progress_shown title line s1) as (s2 & Hp & Hh2 & Hl2).
  destruct (writes_shown ps line s2 Hh2 Hl2) as (s & Hws & Hh & Hl & _).
  destruct (write_shown data line s Hh Hl) as (s' & Hw & Herr & _).
  exists s, s'. split; [|done].
  by rewrite calls_app, Hcs, calls_app, calls_cons, call_progress, Hp.
Qed.

Lemma Progress_same_title title line s :
  logio.hasProgress (logio.progress s) = true →
  title = [] ∨ title = logio.title (logio.progress s) →
  ∃ s', logio.Progress title line s = Ok tt s'
        ∧ logio.stderr s' = (logio.eraseLine ++ [x0d] ++ line) :: logio.stderr s
        ∧ logio.hasProgress (logio.progress s') = true
        ∧ logio.title (logio.progress s') = logio.title (logio.progress s).
Proof.
  intros Hh Ht. unfold logio.Progress, logio.doWrite, st_bind. rewrite Hh.
  assert (bool_decide (0 < length title)
          && bool_decide (title ≠ logio.title (logio.progress s)) = false)
    as ->; [|by eexists].
  destruct Ht as [->| ->].
  - done.
  - apply andb_false_intro2. apply bool_decide_false. by intros Hn.
Qed.

Lemma Progress_new_title title line s :
  title ≠ [] → title ≠ logio.title (logio.progress s) →
  ∃ s', logio.Progress title line s = Ok tt s'
        ∧ logio.stderr s'
          = ((if logio.hasProgress (logio.progress s)
              then logio.eraseLine ++ [x0d] ++ line else line)
             ++ logio.windowTitleBegin ++ title ++ logio.windowTitleEnd)
            :: logio.stderr s
        ∧ logio.hasProgress (logio.progress s') = true
        ∧ logio.title (logio.progress s') = title.
Proof.
  intros Hne Ht. unfold logio.Progress, logio.doWrite, st_bind.
  rewrite (bool_decide_true (0 < length title)), bool_decide_true by
    (done || (destruct title; [done|cbn; lia])).
  by eexists.
Qed.

Lemma Progress_sets_title title line s :
  title ≠ [] →
  ∃ s', logio.Progress title line s = Ok tt s'
        ∧ logio.hasProgress (logio.progress s') = true
        ∧ logio.title (logio.progress s') = title.
Proof.
  intros Hne. destruct (decide (title = logio.title (logio.progress s))) as [Heq|Hneq].
  - unfold logio.Progress, logio.doWrite, st_bind.
    rewrite (bool_decide_false (title ≠ _)) by (by intros Hn).
    rewrite andb_false_r. by eexists.
  - destruct (Progress_new_title title line s Hne Hneq) as (s' & ? & _ & ? & ?).
    by exists s'.
Qed.

Lemma calls_keep_title title cs s :
  Forall (keeps_title title) cs →
  logio.hasProgress (logio.progress s) = true →
  logio.title (logio.progress s) = title →
  ∃ s', logio.calls cs s = Ok tt s'
        ∧ logio.hasProgress (logio.progress s') = true
        ∧ logio.title (logio.progress s') = title.
Proof.
  intros Hcs. revert s. induction Hcs as [|c cs Hc Hcs IH]; intros s Hh Ht.
  - by exists s.
  - rewrite calls_cons. destruct c as [p|t line].
    + destruct (write_shown p _ s Hh eq_refl) as (s1 & Hw & _ & Hh1 & _ & Ht1).
      rewrite call_write, Hw. apply IH; [done|]. by rewrite Ht1.
    + destruct (Progress_same_title t line s Hh) as (s1 & Hp & _ & Hh1 & Ht1).
      { by rewrite Ht. }
      rewrite call_progress, Hp. apply IH; [done|]. by rewrite Ht1.
Qed.

(** X15.  The escape sequence that sets the window title goes out when a
    progress call brings a title that is not empty and differs from the one
    set last; calls with the same title or with no title, and log lines,
    do not repeat it and do not forget it. *)
Theorem title_only_when_changed s0 title l1 cs l2 t2 :
  title ≠ [] → Forall (keeps_title title) cs →
  ∃ s, logio.calls (logio.CallProgress title l1 :: cs) s0 = Ok tt s
       ∧ logio.title (logio.progress s) = title
       ∧ (∃ s', logio.Progress title l2 s = Ok tt s'
                ∧ logio.stderr s'
                  = (logio.eraseLine ++ [x0d] ++ l2) :: logio.stderr s)
       ∧ (∃ s', logio.Progress [] l2 s = Ok tt s'
                ∧ logio.stderr s'
                  = (logio.eraseLine ++ [x0d] ++ l2) :: logio.stderr s
                ∧ logio.title (logio.progress s') = title)
       ∧ (t2 ≠ [] → t2 ≠ title →
          ∃ s', logio.Progress t2 l2 s = Ok tt s'
                ∧ logio.stderr s'
                  = ((logio.eraseLine ++ [x0d] ++ l2)
                     ++ logio.windowTitleBegin ++ t2 ++ logio.windowTitleEnd)
                    :: logio.stderr s
                ∧ logio.title (logio.progress s') = t2).
Proof.
  intros Hne Hcs.
  destruct (Progress_sets_title title l1 s0 Hne) as (s1 & Hp & Hh1 & Ht1).
  destruct (calls_keep_title title cs s1 Hcs Hh1 Ht1) as (s & Hc & Hh & Ht).
  exists s. split_and!.
  - by rewrite calls_cons, call_progress, Hp.
  - done.
  - destruct (Progress_same_title title l2 s Hh) as (s' & ? & ? & _);
      [by right|by exists s'].
  - destruct (Progress_same_title [] l2 s Hh) as (s' & ? & ? & _ & Ht');
      [by left|]. exists s'. by rewrite Ht', Ht.
  - intros Hne2 Hneq.
    destruct (Progress_new_title t2 l2 s Hne2) as (s' & ? & Herr & _ & ?);
      [by rewrite Ht|].
    exists s'. rewrite Hh in Herr. done.
Qed.

Lemma title_only_when_changed_witness :
  ∃ s, logio.calls [logio.CallProgress (logio.str "live") (logio.str "1/3");
                    logio.CallWrite (logio.str "info: x");
                    logio.CallProgress [] (logio.str "2/3")] logio.init
       = Ok tt s
       ∧ ∃ s', logio.Progress (logio.str "live") (logio.str "3/3") s = Ok tt s'
               ∧ logio.stderr s'
                 = (logio.eraseLine ++ [x0d] ++ logio.str "3/3")
                   :: logio.stderr s.
Proof.
  destruct (title_only_when_changed logio.init (logio.str "live")
              (logio.str "1/3")
              [logio.CallWrite (logio.str "info: x");
               logio.CallProgress [] (logio.str "2/3")]
              (logio.str "3/3") [])
    as (s & Hc & _ & Hsame & _).
  - done.
  - repeat constructor.
  - by exists s.
Defined.

(** ** [log.go]: the line of [Logger.output] *)

Lemma doWrite_plain data s :
  logio.doWrite false [] data s
  = Ok (Z.of_nat (length data))
       {| logio.progress :=
            {| logio.buf :=
                 (if logio.hasProgress (logio.progress s)
                  then logio.eraseLine ++ [x0d] ++ data else data)
                 ++ logio.lastProgress (logio.progress s);
               logio.title := logio.title (logio.progress s);
               logio.lastProgress := logio.lastProgress (logio.progress s);
               logio.hasProgress := logio.hasProgress (logio.progress s) |};
          logio.DefaultLogger := logio.DefaultLogger s;
          logio.stderr :=
            ((if logio.hasProgress (logio.progress s)
              then logio.eraseLine ++ [x0d] ++ data else data)
             ++ logio.lastProgress (logio.progress s)) :: logio.stderr s |}.
Proof. done. Qed.

Lemma level_column level :
  length (logio.name (logio.levels_at level) ++ logio.str ": "
          ++ replicate (5 - length (logio.name (logio.levels_at level))) x20)
  = 7.
Proof.
  unfold logio.levels_at.
  destruct (logio.levels !! level) as [info|] eqn:Hl; [|done].
  apply levels_cases in Hl as (Hr & -> & _).
  assert (level = 0 ∨ level = 1 ∨ level = 2 ∨ level = 3 ∨ level = 4)%Z
    as [->|[->|[->|[->| ->]]]] by lia; done.
Qed.

(** X16.  The line that [output] writes closes with the message, one line
    feed and the colour reset: a line feed is added only to a message that
    does not end with one.  Between the time and the header stands the name
    of the level, padded to a column of seven bytes for every level, also
    one that is not in the table. *)
Theorem output_line_shape R l level calldepth s callers st :
  ∃ st' file line col body,
    logio.output R l level calldepth s callers st = Ok tt st'
    ∧ logio.stderr st'
      = ((if logio.hasProgress (logio.progress st)
          then logio.eraseLine ++ [x0d] else [])
         ++ (logio.formatHeader R
               (logio.formatTime R (logio.color (logio.levels_at level))
                  (logio.time_Now R (length (logio.stderr st))) ++ col)
               (logio.tag l) file line
             ++ body ++ logio.EndColor)
         ++ logio.lastProgress (logio.progress st)) :: logio.stderr st
    ∧ length col = 7
    ∧ logio.name (logio.levels_at level) `prefix_of` col
    ∧ last body = Some x0a
    ∧ (if decide (last s = Some x0a) then body = s else body = s ++ [x0a]).
Proof.
  unfold logio.output.
  set (fl := if decide (length (logio.tag l) = 0) then _ else _).
  destruct fl as [file line].
  unfold st_bind. rewrite doWrite_plain.
  eexists _, file, line,
    (logio.name (logio.levels_at level) ++ logio.str ": "
     ++ replicate (5 - length (logio.name (logio.levels_at level))) x20),
    (if decide (last s = Some x0a) then s else s ++ [x0a]).
  split; [done|]. split_and!.
  - cbn [logio.stderr]. f_equal. unfold logio.output_line.
    rewrite !app_nil_l.
    assert (∀ (b : bytes),
              (if decide (length s = 0 ∨ last s ≠ Some x0a)
               then (b ++ s) ++ [x0a] else b ++ s)
              = b ++ (if decide (last s = Some x0a) then s else s ++ [x0a]))
      as ->.
    { intros b. destruct (decide (last s = Some x0a)) as [Hs|Hs].
      - rewrite decide_False; [done|]. intros [Hlen|?]; [|done].
        destruct s; [done|]. discriminate Hlen.
      - rewrite decide_True by by right. by rewrite (assoc_L (++)). }
    destruct (logio.hasProgress _); by rewrite <-?(assoc_L (++)).
  - apply level_column.
  - by eexists.
  - case_decide as Hs; [done|]. by rewrite last_snoc.
  - by case_decide.
Qed.

(** What [doWrite] makes of one line when it is not a progress line. *)
Lemma output_unfold R l level calldepth s callers st :
  logio.output R l level calldepth s callers st
  = (let '(file, line) :=
       if decide (length (logio.tag l) = 0) then
         match logio.runtime_Caller ((logio.log_go, 138%Z) :: callers)
                 (calldepth + logio.extraFrames l) with
         | Some fr => fr
         | None => (logio.str "???", 0%Z)
         end
       else ([], 0%Z) in
     match logio.doWrite false []
             (logio.output_line R l level
                (logio.time_Now R (length (logio.stderr st))) file line s) st with
     | Ok _ st' => Ok tt st'
     | Panicked msg st' => Panicked msg st'
     | Exited c st' => Exited c st'
     end).
Proof. unfold logio.output. by destruct (if decide _ then _ else _). Qed.

Lemma logf_unfold R l level s callers st :
  logio.logf R l level s callers st
  = (if decide (logio.minLevel l ≤ level)%Z then
       match logio.output R l level 3 s ((logio.log_go, 169%Z) :: callers) st with
       | Ok _ st' =>
           if decide (level = logio.LevelFatal) then Exited 1%Z st'
           else Ok tt st'
       | Panicked msg st' => Panicked msg st'
       | Exited c st' => Exited c st'
       end
     else if decide (level = logio.LevelFatal) then Exited 1%Z st
     else Ok tt st).
Proof. unfold logio.logf, st_bind. by repeat case_decide. Qed.

Lemma log_unfold R l level s callers st :
  logio.log R l level s callers st
  = (if decide (logio.minLevel l ≤ level)%Z then
       match logio.output R l level 3 s ((logio.log_go, 178%Z) :: callers) st with
       | Ok _ st' =>
           if decide (level = logio.LevelFatal) then Exited 1%Z st'
           else Ok tt st'
       | Panicked msg st' => Panicked msg st'
       | Exited c st' => Exited c st'
       end
     else if decide (level = logio.LevelFatal) then Exited 1%Z st
     else Ok tt st).
Proof. unfold logio.log, st_bind. by repeat case_decide. Qed.

Lemma output_returns R l level calldepth s callers st :
  ∃ st' chunk,
    logio.output R l level calldepth s callers st = Ok tt st'
    ∧ logio.stderr st' = chunk :: logio.stderr st
    ∧ logio.DefaultLogger st' = logio.DefaultLogger st.
Proof.
  rewrite output_unfold. destruct (if decide _ then _ else _) as [file line].
  rewrite doWrite_plain. by eexists _, _.
Qed.

Ltac unfold_methods :=
  unfold logio.Debug, logio.Debugf, logio.Info, logio.Infof, logio.Warn,
    logio.Warnf, logio.Error, logio.Errorf, logio.Fatal, logio.Fatalf,
    logio.Logger_Debug, logio.Logger_Debugf, logio.Logger_Info,
    logio.Logger_Infof, logio.Logger_Warn, logio.Logger_Warnf,
    logio.Logger_Error, logio.Logger_Errorf, logio.Logger_Fatal,
    logio.Logger_Fatalf, st_bind, st_get.

(** A method is [log] or [logf] at its level, two calls above [output]. *)
Lemma method_unfold R l lv m s callers st :
  (lv, m) ∈ logio.loggerMethods →
  ∃ site1 site2,
    m R l s callers st
    = (if decide (logio.minLevel l ≤ lv)%Z then
         match logio.output R l lv 3 s (site1 :: site2 :: callers) st with
         | Ok _ st' =>
             if decide (lv = logio.LevelFatal) then Exited 1%Z st'
             else Ok tt st'
         | Panicked msg st' => Panicked msg st'
         | Exited c st' => Exited c st'
         end
       else if decide (lv = logio.LevelFatal) then Exited 1%Z st
       else Ok tt st).
Proof.
  intros Hin. unfold logio.loggerMethods in Hin.
  repeat (apply elem_of_cons in Hin as [[= -> ->]|Hin];
    [unfold_methods; rewrite ?logf_unfold, ?log_unfold;
     eexists _, _; reflexivity|]).
  by apply elem_of_nil in Hin.
Qed.

(** X17.  Each of the ten methods writes one chunk when its level is not below
    the minimum level of the logger and nothing otherwise; [Fatal] and
    [Fatalf] then end the process with status 1, also when nothing was
    written, and the other eight return. *)
Theorem methods_filter_and_exit R l lv m s callers st :
  (lv, m) ∈ logio.loggerMethods →
  let r := m R l s callers st in
  (if decide (lv = logio.LevelFatal) then r = Exited 1%Z (res_state r)
   else r = Ok tt (res_state r))
  ∧ (if decide (logio.minLevel l ≤ lv)%Z
     then ∃ chunk, logio.stderr (res_state r) = chunk :: logio.stderr st
     else res_state r = st).
Proof.
  intros Hin r. subst r.
  destruct (method_unfold R l lv m s callers st Hin) as (s1 & s2 & ->).
  destruct (decide (logio.minLevel l ≤ lv)%Z).
  - destruct (output_returns R l lv 3 s (s1 :: s2 :: callers) st)
      as (st' & chunk & -> & Herr & _).
    repeat case_decide; try done; (split; [done|by exists chunk]).
  - repeat case_decide; done.
Qed.

Lemma methods_filter_and_exit_witness :
  logio.Logger_Fatalf exampleRuntime silentLogger (logio.str "no more") []
    logio.init
  = Exited 1%Z logio.init.
Proof.
  pose proof (methods_filter_and_exit exampleRuntime silentLogger
                logio.LevelFatal logio.Logger_Fatalf (logio.str "no more") []
                logio.init) as H.
  cbv zeta in H. destruct H as [Hr Hs].
  - unfold logio.loggerMethods. do 9 right. left.
  - rewrite decide_True in Hr by done.
    rewrite decide_False in Hs by (by vm_compute).
    etrans; [exact Hr|]. by f_equal.
Defined.

(** ** [log.go]: whose position a line shows *)

Lemma output_written R l level calldepth s callers st :
  logio.stderr (res_state (logio.output R l level calldepth s callers st))
  = (let '(file, line) :=
       if decide (length (logio.tag l) = 0) then
         match logio.runtime_Caller ((logio.log_go, 138%Z) :: callers)
                 (calldepth + logio.extraFrames l) with
         | Some fr => fr
         | None => (logio.str "???", 0%Z)
         end
       else ([], 0%Z) in
     written st (logio.output_line R l level
                   (logio.time_Now R (length (logio.stderr st))) file line s)
     :: logio.stderr st).
Proof.
  rewrite output_unfold. destruct (if decide _ then _ else _) as [file line].
  by rewrite doWrite_plain.
Qed.

Lemma logf_written R l level s callers st :
  (logio.minLevel l ≤ level)%Z →
  logio.stderr (res_state (logio.logf R l level s callers st))
  = logio.stderr (res_state (logio.output R l level 3 s
                               ((logio.log_go, 169%Z) :: callers) st)).
Proof.
  intros Hl. rewrite logf_unfold, decide_True by done.
  destruct (output_returns R l level 3 s ((logio.log_go, 169%Z) :: callers) st)
    as (st' & chunk & -> & _). by case_decide.
Qed.

Lemma log_written R l level s callers st :
  (logio.minLevel l ≤ level)%Z →
  logio.stderr (res_state (logio.log R l level s callers st))
  = logio.stderr (res_state (logio.output R l level 3 s
                               ((logio.log_go, 178%Z) :: callers) st)).
Proof.
  intros Hl. rewrite log_unfold, decide_True by done.
  destruct (output_returns R l level 3 s ((logio.log_go, 178%Z) :: callers) st)
    as (st' & chunk & -> & _). by case_decide.
Qed.

Lemma method_written R l lv m s callers st :
  (lv, m) ∈ logio.loggerMethods → (logio.minLevel l ≤ lv)%Z →
  ∃ site1 site2,
    logio.stderr (res_state (m R l s callers st))
    = (let '(file, line) :=
         if decide (length (logio.tag l) = 0) then
           default (logio.str "???", 0%Z)
             (logio.runtime_Caller
                ((logio.log_go, 138%Z) :: site1 :: site2 :: callers)
                (3 + logio.extraFrames l))
         else ([], 0%Z) in
       written st (logio.output_line R l lv
                     (logio.time_Now R (length (logio.stderr st))) file line s)
       :: logio.stderr st).
Proof.
  intros Hin Hl.
  destruct (method_unfold R l lv m s callers st Hin) as (s1 & s2 & ->).
  exists s1, s2. rewrite decide_True by done.
  pose proof (output_written R l lv 3 s (s1 :: s2 :: callers) st) as Hw.
  destruct (output_returns R l lv 3 s (s1 :: s2 :: callers) st)
    as (st' & chunk & Hout & _).
  rewrite Hout in Hw |- *. destruct (decide (lv = _)); exact Hw.
Qed.

(** X18.  A line logged through a function of the package shows the position
    from which that function was called, and a line logged through a method
    of a logger without a tag made by [New] shows the position from which
    the method was called.  A method called on [DefaultLogger] itself shows
    the position one call further out, and a logger with a tag shows no
    position. *)
Theorem caller_attribution R s u v callers st :
  logio.tag (logio.DefaultLogger st) = [] →
  logio.extraFrames (logio.DefaultLogger st) = 1%Z →
  let dl := logio.DefaultLogger st in
  let line l lv (fr : logio.Frame) :=
    written st (logio.output_line R l lv
                  (logio.time_Now R (length (logio.stderr st))) fr.1 fr.2 s) in
  (∀ lv f, (lv, f) ∈ logio.packageFunctions → (logio.minLevel dl ≤ lv)%Z →
     logio.stderr (res_state (f R s (u :: callers) st))
     = line dl lv u :: logio.stderr st)
  ∧ (∀ lv m l, (lv, m) ∈ logio.loggerMethods →
       logio.tag l = [] → logio.extraFrames l = 0%Z →
       (logio.minLevel l ≤ lv)%Z →
       logio.stderr (res_state (m R l s (u :: callers) st))
       = line l lv u :: logio.stderr st)
  ∧ (∀ lv m, (lv, m) ∈ logio.loggerMethods → (logio.minLevel dl ≤ lv)%Z →
       logio.stderr (res_state (m R dl s (u :: v :: callers) st))
       = line dl lv v :: logio.stderr st)
  ∧ (∀ lv m l, (lv, m) ∈ logio.loggerMethods →
       logio.tag l ≠ [] → (logio.minLevel l ≤ lv)%Z →
       logio.stderr (res_state (m R l s (u :: callers) st))
       = line l lv ([], 0%Z) :: logio.stderr st).
Proof.
  intros Htag Hextra dl line. subst dl line. cbn beta. split_and!.
  - intros lv f Hin Hl. unfold logio.packageFunctions in Hin.
    repeat (apply elem_of_cons in Hin as [[= -> ->]|Hin];
      [unfold logio.Debug, logio.Debugf, logio.Info, logio.Infof, logio.Warn,
         logio.Warnf, logio.Error, logio.Errorf, logio.Fatal, logio.Fatalf,
         st_bind, st_get;
       match goal with
       | Hl : (_ ≤ ?lv)%Z |- context [?m R (logio.DefaultLogger st) s ?c st] =>
           destruct (method_written R (logio.DefaultLogger st) lv m s c st)
             as (s1 & s2 & ->);
             [unfold logio.loggerMethods; rewrite !elem_of_cons; tauto
             |done|]
       end;
       rewrite Htag, Hextra; by destruct u
      |]).
    by apply elem_of_nil in Hin.
  - intros lv m l Hin Ht He Hl.
    destruct (method_written R l lv m s (u :: callers) st) as (s1 & s2 & ->);
      [done..|].
    rewrite Ht, He. by destruct u.
  - intros lv m Hin Hl.
    destruct (method_written R (logio.DefaultLogger st) lv m s
                (u :: v :: callers) st) as (s1 & s2 & ->); [done..|].
    rewrite Htag, Hextra. by destruct v.
  - intros lv m l Hin Ht Hl.
    destruct (method_written R l lv m s (u :: callers) st) as (s1 & s2 & ->);
      [done..|].
    rewrite decide_False; [done|]. by destruct (logio.tag l).
Qed.

Lemma caller_attribution_witness :
  logio.stderr (res_state (logio.Infof exampleRuntime (logio.str "up")
                             [mainFrame] logio.init))
  = [x1b :: logio.str "[32m12:00:00 info:  [main.go] up" ++ [x0a; x1b]
            ++ logio.str "[0m"]
  ∧ logio.stderr (res_state (logio.Logger_Infof exampleRuntime
                               (logio.DefaultLogger logio.init)
                               (logio.str "up")
                               [mainFrame; helperFrame] logio.init))
    = [x1b :: logio.str "[32m12:00:00 info:  [util.go] up" ++ [x0a; x1b]
              ++ logio.str "[0m"].
Proof.
  destruct (caller_attribution exampleRuntime (logio.str "up") mainFrame
              helperFrame [] logio.init eq_refl eq_refl) as (H1 & _ & H3 & _).
  split.
  - rewrite (H1 logio.LevelInfo logio.Infof); [done| |done].
    unfold logio.packageFunctions. rewrite !elem_of_cons. tauto.
  - rewrite (H3 logio.LevelInfo logio.Logger_Infof); [done| |done].
    unfold logio.loggerMethods. rewrite !elem_of_cons. tauto.
Defined.

(** ** [log.go]: [New], [SubLogger] and the default level *)

(** X19.  A logger keeps the minimum level that [DefaultLogger] had when the
    logger was made.  A sub-logger does not take the level of its parent: it
    takes the level of [DefaultLogger] at the time of the call, so its
    methods write exactly the lines at or above that level.  Its tag is the
    tag of the parent, a dot and its own tag; it is never empty, so that a
    sub-logger never asks the runtime for the position of the caller. *)
Theorem SubLogger_level_and_tag a b t t2 st :
  ∃ l c st',
    (exec logio.SetDefaultLevel a;
     do l <- logio.New t;
     exec logio.SetDefaultLevel b;
     do c <- logio.SubLogger l t2;
     st_ret (l, c)) st = Ok (l, c) st'
    ∧ logio.minLevel l = a ∧ logio.minLevel c = b
    ∧ logio.tag c = t ++ logio.str "." ++ t2
    ∧ logio.extraFrames c = 0%Z
    ∧ logio.stderr st' = logio.stderr st
    ∧ logio.minLevel (logio.DefaultLogger st') = b
    ∧ (∀ R lv m s callers st2,
         (lv, m) ∈ logio.loggerMethods →
         if decide (b ≤ lv)%Z
         then ∃ chunk,
                logio.stderr (res_state (m R c s callers st2))
                = chunk :: logio.stderr st2
         else res_state (m R c s callers st2) = st2)
    ∧ (∀ R lv d s callers callers' st2,
         logio.output R c lv d s callers st2
         = logio.output R c lv d s callers' st2).
Proof.
  set (c := {| logio.extraFrames := 0; logio.minLevel := b;
               logio.tag := t ++ logio.str "." ++ t2 |}).
  exists {| logio.extraFrames := 0; logio.minLevel := a; logio.tag := t |}, c.
  eexists. split; [reflexivity|].
  split_and!; try done.
  - intros R lv m s callers st2 Hin.
    destruct (method_unfold R c lv m s callers st2 Hin) as (s1 & s2 & ->).
    change (logio.minLevel c) with b. destruct (decide (b ≤ lv)%Z).
    + destruct (output_returns R c lv 3 s (s1 :: s2 :: callers) st2)
        as (st' & chunk & -> & Herr & _).
      exists chunk. by destruct (decide (lv = _)).
    + by destruct (decide (lv = _)).
  - intros R lv d s callers callers' st2. rewrite !output_unfold.
    assert (length (logio.tag c) ≠ 0) as Htag.
    { subst c. cbn [logio.tag]. rewrite length_app. cbn. lia. }
    by rewrite !decide_False by done.
Qed.
